(** * outie: the group-assignment algorithm of [algorithm.ts]

    A shallow embedding of the scoring primitives, constraint checks,
    ranking functions, the single-trial engine ([run]) and the best-of-N
    selection ([runMany]) of [src/algorithm/src/algorithm.ts], followed by
    the properties the specification states about them.

    Conventions of the embedding.
    - A [Username] is a [string]; a [Group] is a [list Username] in array
      order; [Preferences] and [UserDetails] are finite maps with string
      keys (properties inherited from [Object.prototype] are not modelled).
    - Quantities that are always integers in the source (multipliers,
      scores, weights) are [Z].  A JavaScript number that can also be
      [Infinity] or [NaN], or a proper fraction, is a [number]; finite
      values are exact rationals and the arithmetic on them is exact.  The
      rounding to a double is modelled where the program makes a number
      out of text ([Num.toDouble] in [parseInt]).
    - A [TypeError] raised by reading a property of [undefined] is the
      [TypeError] constructor of [result].
    - [_.sample] is a tape of coin flips read through a cursor; the shuffled
      processing order and the key order of [Object.keys] are inputs. *)

From Stdlib Require Import ZArith QArith Qround List Bool Ascii String Lia.
From stdpp Require Import base list sorting strings pretty gmap.

Local Open Scope Z_scope.

(** ** JavaScript numbers *)

Inductive number : Type :=
| Fin (q : Q)
| PosInf
| NegInf
| NaN.

Module Num.

Definition ofZ (z : Z) : number := Fin (inject_Z z).

(** The Number value for the integer [z]: [z] itself below [2^53] in
    magnitude, otherwise the nearest double (a significand of 53 bits,
    ties to the even one), and an infinity once that reaches [2^1024]. *)
Definition toDouble (z : Z) : number :=
  let m := Z.abs z in
  if m <? 2 ^ 53 then ofZ z
  else
    let e := Z.log2 m - 52 in
    let q := Z.shiftr m e in
    let r := m - Z.shiftl q e in
    let half := Z.shiftl 1 (e - 1) in
    let q' := if (half <? r) || ((r =? half) && Z.odd q) then q + 1 else q in
    let v := Z.shiftl q' e in
    if 1024 <=? Z.log2 v then (if 0 <? z then PosInf else NegInf)
    else ofZ (Z.sgn z * v).

(** [a < b] *)
Definition ltb (a b : number) : bool :=
  match a, b with
  | NaN, _ | _, NaN => false
  | Fin x, Fin y => if Qlt_le_dec x y then true else false
  | NegInf, NegInf => false
  | NegInf, _ => true
  | _, NegInf => false
  | PosInf, _ => false
  | Fin _, PosInf => true
  end.

(** [a > b] *)
Definition gtb (a b : number) : bool := ltb b a.

(** [a === b] *)
Definition eqb (a b : number) : bool :=
  match a, b with
  | Fin x, Fin y => Qeq_bool x y
  | PosInf, PosInf | NegInf, NegInf => true
  | _, _ => false
  end.

(** [a !== a], true of [NaN] only *)
Definition isNaN (a : number) : bool :=
  match a with NaN => true | _ => false end.

(** [-a] *)
Definition neg (a : number) : number :=
  match a with
  | Fin x => Fin (- x)
  | PosInf => NegInf
  | NegInf => PosInf
  | NaN => NaN
  end.

(** [a - b] *)
Definition sub (a b : number) : number :=
  match a, b with
  | NaN, _ | _, NaN => NaN
  | Fin x, Fin y => Fin (x - y)
  | PosInf, PosInf | NegInf, NegInf => NaN
  | PosInf, _ | _, NegInf => PosInf
  | NegInf, _ | _, PosInf => NegInf
  end.

(** [a / b] for an integer [a] and an integer [b]: [0 / 0] is [NaN] and
    a non-zero numerator over zero is an infinity. *)
Definition divZ (a b : Z) : number :=
  if (b =? 0)%Z then
    (if (a =? 0)%Z then NaN else if (0 <? a)%Z then PosInf else NegInf)
  else Fin (inject_Z a / inject_Z b).

(** [Math.floor(a / 2)] *)
Definition floorHalf (a : number) : number :=
  match a with
  | Fin x => ofZ (Qfloor (x / 2))
  | other => other
  end.

(** [0 <= a && a <= 1]: membership in the closed unit interval. *)
Definition inUnit (a : number) : bool :=
  negb (ltb a (ofZ 0)) && negb (gtb a (ofZ 1)) && negb (isNaN a).

End Num.

(** ** Exceptions *)

Inductive result (A : Type) : Type :=
| Ok (a : A)
| TypeError.
Arguments Ok {A} a.
Arguments TypeError {A}.

#[global] Instance result_bind : MBind result := fun A B k r =>
  match r with
  | Ok a => k a
  | TypeError => TypeError
  end.

(** [o.prop] where [o] may be [undefined] *)
Definition deref {A} (o : option A) : result A :=
  match o with
  | Some a => Ok a
  | None => TypeError
  end.

(** ** Data model *)

Abbreviation Username := string.
Abbreviation Group := (list string).

Record UserDetail : Type := {
  isMale : bool;
  grade : string;
  isGoing : option bool;
  preferencesOf : option (list string);
}.

Abbreviation Preferences := (gmap string (list string)).
Abbreviation UserDetails := (gmap string UserDetail).

Record Details : Type := {
  groupSizes : list number;
  groupAmount : nat;
}.

Record RunResult : Type := {
  groups : list Group;
  preferences : Preferences;
  users : UserDetails;
  details : Details;
}.

Definition MOVE_ON_COUNT : nat := 100.

(** ** Arrays and strings *)

(** [array.includes(x)] on an array of strings *)
Fixpoint includes (l : list string) (x : string) : bool :=
  match l with
  | [] => false
  | y :: l' => String.eqb y x || includes l' x
  end.

(** [s.endsWith(suffix)] *)
Definition endsWith (s suffix : string) : bool :=
  String.prefix (String.rev suffix) (String.rev s).

(** [group.slice(); newGroup.push(member)] *)
Definition groupWithNew (group : Group) (member : Username) : Group :=
  group ++ [member].

(** ** Scoring primitives *)

Definition getMultiplier (username : Username) : Z :=
  if endsWith username "--x5" then 5
  else if endsWith username "--x4" then 4
  else if endsWith username "--x3" then 3
  else if endsWith username "--x2" then 2
  else 1.

Definition getAllMultiplier (usernames : list Username) : Z :=
  fold_left (fun sum username => sum + getMultiplier username) usernames 0.

(** A value found in an array at run time.  [getUGScore] is declared on
    groups of usernames, but the fallback pass also calls it on a zipped
    pair [[group, size]]. *)
Inductive element : Type :=
| EStr (s : string)
| EGroup (g : Group)
| ENum (n : number).

(** One iteration of the loop of [getUGScore] once [preferences[member]] has
    been read: [includes] compares with SameValueZero, so only a string can
    be found in a list of strings. *)
Definition ugStep (friends : list string) (score : Z) (groupMember : element) : Z :=
  match groupMember with
  | EStr s => if includes friends s then score + getMultiplier s else score
  | _ => score
  end.

(** [getUGScore] on any array.  [preferences[member]] is read inside the
    loop, so a missing entry raises at the first element and goes unnoticed
    when the array is empty. *)
Definition getUGScoreArr (preferences : Preferences) (group : list element)
    (member : Username) : result Z :=
  match group with
  | [] => Ok 0
  | _ :: _ =>
      friends ← deref (preferences !! member);
      Ok (fold_left (ugStep friends) group 0)
  end.

Definition getUGScore (preferences : Preferences) (group : Group)
    (member : Username) : result Z :=
  getUGScoreArr preferences (EStr <$> group) member.

(** [getGUScore]: how much the group likes [member]. *)
Fixpoint getGUScoreLoop (preferences : Preferences) (group : Group)
    (member : Username) (score : Z) : result Z :=
  match group with
  | [] => Ok score
  | groupMember :: rest =>
      friends ← deref (preferences !! groupMember);
      getGUScoreLoop preferences rest member
        (if includes friends member
         then score + getMultiplier member * getMultiplier groupMember
         else score)
  end.

Definition getGUScore (preferences : Preferences) (group : Group)
    (member : Username) : result Z :=
  getGUScoreLoop preferences group member 0.

(** ** Constraint checks *)

(** [[a, b].join('__')] *)
Definition join2 (a b : string) : string := a +:+ "__" +:+ b.

Fixpoint canTryJoiningGroup (antiPreferences : list string) (group : Group)
    (username : Username) : bool :=
  match group with
  | [] => true
  | member :: rest =>
      if includes antiPreferences (join2 member username) then false
      else if includes antiPreferences (join2 username member) then false
      else canTryJoiningGroup antiPreferences rest username
  end.

(** The loop of [hasMaximum]: the pair is
    [(currentAmountSame, currentAmount)]. *)
Fixpoint hasMaximumLoop (users : UserDetails) (isMale_ : bool) (group : Group)
    (acc : Z * Z) : result (Z * Z) :=
  match group with
  | [] => Ok acc
  | member :: rest =>
      let currentAmount := snd acc + getMultiplier member in
      detail ← deref (users !! member);
      hasMaximumLoop users isMale_ rest
        (if Bool.eqb (isMale detail) isMale_
         then (fst acc + getMultiplier member, currentAmount)
         else (fst acc, currentAmount))
  end.

Definition hasMaximum (group : Group) (isMale_ : bool)
    (maxAmount maxAmountSame : number) (oneGender : bool)
    (users : UserDetails) : result bool :=
  '(currentAmountSame, currentAmount) ← hasMaximumLoop users isMale_ group (0, 0);
  if oneGender then Ok (Num.gtb (Num.ofZ currentAmount) maxAmount)
  else Ok (Num.gtb (Num.ofZ currentAmountSame) maxAmountSame
           || Num.gtb (Num.ofZ currentAmount) maxAmount).

(** ** Sorting *)

(** [Array.prototype.sort] with a comparator, as a stable insertion sort:
    [x], which stands before every element of [l] in the input, moves
    behind [y] only when [cmp x y > 0].  The specification of [sort] fixes
    this result for every consistent comparator. *)
Fixpoint insertSorted {A} (cmp : A -> A -> Z) (x : A) (l : list A) : list A :=
  match l with
  | [] => [x]
  | y :: l' => if 0 <? cmp x y then y :: insertSorted cmp x l' else x :: l
  end.

Fixpoint arraySort {A} (cmp : A -> A -> Z) (l : list A) : list A :=
  match l with
  | [] => []
  | x :: l' => insertSorted cmp x (arraySort cmp l')
  end.

(** The same sort for a comparator that draws from the coin tape: the
    cursor is threaded through the comparisons.  Which pairs a sort
    compares, and in which argument order, is left to the engine, so a
    flip of the tape decides a tie here that another flip may decide
    there: the tape stands for the draws in the order this sort asks for
    them, and the results over all tapes include what any engine's sort
    returns. *)
Fixpoint insertSortedR {A} (cmp : A -> A -> nat -> Z * nat) (x : A)
    (l : list A) (cursor : nat) : list A * nat :=
  match l with
  | [] => ([x], cursor)
  | y :: l' =>
      let '(c, cursor') := cmp x y cursor in
      if 0 <? c then
        let '(l'', cursor'') := insertSortedR cmp x l' cursor' in
        (y :: l'', cursor'')
      else (x :: l, cursor')
  end.

Fixpoint arraySortR {A} (cmp : A -> A -> nat -> Z * nat) (l : list A)
    (cursor : nat) : list A * nat :=
  match l with
  | [] => ([], cursor)
  | x :: l' =>
      let '(sorted, cursor') := arraySortR cmp l' cursor in
      insertSortedR cmp x sorted cursor'
  end.

(** The sign a comparator result has for [sort]: [NaN] counts as [+0]. *)
Definition comparatorSign (v : number) : Z :=
  if Num.gtb v (Num.ofZ 0) then 1
  else if Num.ltb v (Num.ofZ 0) then -1
  else 0.

(** ** Ranking functions *)

Record GUEntry : Type := {
  gu_username : Username;
  gu_score : Z;
  gu_index : nat;
}.

Fixpoint guScores (preferences : Preferences) (group rest : Group) (i : nat)
    : result (list GUEntry) :=
  match rest with
  | [] => Ok []
  | member :: rest' =>
      score ← getGUScore preferences group member;
      scores ← guScores preferences group rest' (S i);
      Ok ({| gu_username := member; gu_score := score; gu_index := i |} :: scores)
  end.

Definition guCompare (a b : GUEntry) : Z :=
  if gu_score a =? gu_score b
  then Z.of_nat (gu_index a) - Z.of_nat (gu_index b)
  else gu_score b - gu_score a.

Definition getGURanking (preferences : Preferences) (group : Group)
    : result (list Username) :=
  scores ← guScores preferences group group 0;
  Ok (gu_username <$> arraySort guCompare scores).

Record UGEntry : Type := {
  ug_groupID : nat;
  ug_score : Z;
}.

Fixpoint ugScores (preferences : Preferences) (rest : list Group)
    (newMember : Username) (i : nat) : result (list UGEntry) :=
  match rest with
  | [] => Ok []
  | group :: rest' =>
      score ← getUGScore preferences group newMember;
      scores ← ugScores preferences rest' newMember (S i);
      Ok ({| ug_groupID := i; ug_score := score |} :: scores)
  end.

(** [_.sample([-1, 1])]: the flip under the cursor. *)
Definition sample (coin : nat -> bool) (cursor : nat) : Z * nat :=
  (if coin cursor then 1 else -1, S cursor).

Definition ugCompare (coin : nat -> bool) (groups : list Group)
    (a b : UGEntry) (cursor : nat) : Z * nat :=
  if ug_score a =? ug_score b then
    let lengthDifference :=
      Z.of_nat (length (groups !!! ug_groupID b))
      - Z.of_nat (length (groups !!! ug_groupID a)) in
    if lengthDifference =? 0 then sample coin cursor
    else (lengthDifference, cursor)
  else (ug_score b - ug_score a, cursor).

Definition getUGRanking (coin : nat -> bool) (preferences : Preferences)
    (groups : list Group) (newMember : Username) (cursor : nat)
    : result (list nat * nat) :=
  scores ← ugScores preferences groups newMember 0;
  let '(sorted, cursor') := arraySortR (ugCompare coin groups) scores cursor in
  Ok (ug_groupID <$> sorted, cursor').

(** ** Result metrics *)

(** The double loop of [getPercentFavorability]; a member without a
    preference entry contributes nothing ([preferences[x] && ...]). *)
Definition friendsSumRow (preferences : Preferences) (group : Group)
    (member : Username) : Z :=
  match preferences !! member with
  | None => 0
  | Some friends =>
      fold_left (fun sum other =>
                   if includes friends other
                   then sum + getMultiplier member * getMultiplier other
                   else sum) group 0
  end.

Definition currentFriendsSum (preferences : Preferences) (group : Group) : Z :=
  fold_left (fun sum member => sum + friendsSumRow preferences group member)
            group 0.

Definition getPercentFavorability (group : Group) (preferences : Preferences)
    : number :=
  match group with
  | [] => Num.ofZ 1
  | _ :: _ =>
      Num.divZ (currentFriendsSum preferences group)
               ((getAllMultiplier group - 1) * (getAllMultiplier group - 1) * 2)
  end.

Record MinFriends : Type := {
  minFriends : number;
  usernames : list Username;
}.

(** The innermost loop of [getMinFriends]: an unweighted head count. *)
Definition currentFriendsCount (friends : list string) (group : Group) : Z :=
  fold_left (fun count other => if includes friends other then count + 1 else count)
            group 0.

Definition minFriendsUser (preferences : Preferences) (group : Group)
    (acc : MinFriends) (username : Username) : MinFriends :=
  match preferences !! username with
  | None => acc
  | Some friends =>
      let count := Num.ofZ (currentFriendsCount friends group) in
      let pushed :=
        if Num.eqb count (minFriends acc)
        then {| minFriends := minFriends acc;
                usernames := usernames acc ++ [username] |}
        else acc in
      if Num.ltb count (minFriends pushed)
      then {| minFriends := count; usernames := [username] |}
      else pushed
  end.

Definition getMinFriends (groups : list Group) (preferences : Preferences)
    : MinFriends :=
  fold_left (fun acc group => fold_left (minFriendsUser preferences group) group acc)
            groups {| minFriends := PosInf; usernames := [] |}.

(** ** The parts of lodash the program uses *)

Module Lodash.

(** [compareAscending] on numbers: [NaN] sorts behind everything. *)
Definition compareAscending (value other : number) : Z :=
  if Num.eqb value other then 0
  else if Num.gtb value other || Num.isNaN value then 1
  else if Num.ltb value other || Num.isNaN other then -1
  else 0.

Fixpoint compareCriteria (objCriteria othCriteria : list number) : Z :=
  match objCriteria, othCriteria with
  | v :: vs, o :: os =>
      let r := compareAscending v o in
      if r =? 0 then compareCriteria vs os else r
  | _, _ => 0
  end.

(** [compareMultiple]: criteria in order, then the original index. *)
Definition compareMultiple {A} (object other : list number * nat * A) : Z :=
  let r := compareCriteria (fst (fst object)) (fst (fst other)) in
  if r =? 0 then Z.of_nat (snd (fst object)) - Z.of_nat (snd (fst other))
  else r.

(** [_.sortBy] once every iteratee has been run on every element. *)
Definition sortByCriteria {A} (entries : list (list number * A)) : list A :=
  snd <$> arraySort compareMultiple
            (imap (fun index entry => (fst entry, index, snd entry)) entries).

Definition sortBy {A} (iteratees : list (A -> number)) (collection : list A)
    : list A :=
  sortByCriteria ((fun x => ((fun f => f x) <$> iteratees, x)) <$> collection).

(** [_.min]: [undefined] for an empty array; a [NaN] is never picked up. *)
Definition min (array : list number) : option number :=
  fold_left (fun computed current =>
               match computed with
               | None => if Num.isNaN current then None else Some current
               | Some c => if Num.ltb current c then Some current else computed
               end) array None.

End Lodash.

(** [-x] where [x] may be [undefined] *)
Definition negate (x : option number) : number :=
  match x with
  | Some v => Num.neg v
  | None => NaN
  end.

(** ** Configuration *)

(** [argument.split('-')] *)
Fixpoint splitGo (s : string) (current : string) : list string :=
  match s with
  | EmptyString => [String.rev current]
  | String c s' =>
      if Ascii.eqb c "-" then String.rev current :: splitGo s' EmptyString
      else splitGo s' (String c current)
  end.

Definition split (argument : string) : list string := splitGo argument EmptyString.

Module ParseInt.

(** White space and line terminators among the first 256 code units. *)
Definition isWhiteSpace (c : ascii) : bool :=
  let n := nat_of_ascii c in
  ((9 <=? n) && (n <=? 13) || (n =? 32) || (n =? 160))%nat.

Fixpoint trimStart (s : string) : string :=
  match s with
  | String c s' => if isWhiteSpace c then trimStart s' else s
  | EmptyString => s
  end.

Definition digitValue (c : ascii) : option Z :=
  let n := Z.of_nat (nat_of_ascii c) in
  if (48 <=? n) && (n <=? 57) then Some (n - 48)
  else if (97 <=? n) && (n <=? 122) then Some (n - 87)
  else if (65 <=? n) && (n <=? 90) then Some (n - 55)
  else None.

(** The value of the longest prefix of radix-[radix] digits, if any. *)
Fixpoint digits (radix : Z) (s : string) (acc : option Z) : option Z :=
  match s with
  | EmptyString => acc
  | String c s' =>
      match digitValue c with
      | Some d =>
          if d <? radix then digits radix s' (Some (default 0 acc * radix + d))
          else acc
      | None => acc
      end
  end.

(** [parseInt(string)] without a radix argument.  The digits denote an
    integer and the result is the Number value for it; past twenty
    significant digits the language lets an engine approximate, and the
    model takes the correctly rounded value. *)
Definition parseInt (input : string) : number :=
  let s := trimStart input in
  let '(sign, s) :=
    match s with
    | String "-" s' => (-1, s')
    | String "+" s' => (1, s')
    | _ => (1, s)
    end in
  let '(radix, s) :=
    match s with
    | String "0" (String "x" s') | String "0" (String "X" s') => (16, s')
    | _ => (10, s)
    end in
  match digits radix s None with
  | None => NaN
  | Some value => Num.toDouble (sign * value)
  end.

End ParseInt.

(** [argument.split('-').map(size => parseInt(size)).sort((a, b) => b - a)].
    With a [NaN] among the values the comparator is not consistent and the
    language leaves the order of the result to the engine; which values
    the result holds does not depend on it. *)
Definition getGroupSizes (argument : string) : list number :=
  arraySort (fun a b => comparatorSign (Num.sub b a))
            (ParseInt.parseInt <$> split argument).

(** ** The single-trial engine *)

(** The inputs [run] resolves before the loops start. [userOrder] is the
    shuffled [Object.keys(preferences)], [allUsernames] is
    [Object.keys(users)], [sizes] is [getGroupSizes(groupSizesArgument)]. *)
Record Inputs : Type := {
  in_preferences : Preferences;
  in_users : UserDetails;
  in_antiPreferences : list string;
  in_userOrder : list Username;
  in_allUsernames : list Username;
  in_sizes : list number;
  in_oneGenderGroups : bool;
  in_coin : nat -> bool;
}.

(** [groupSizes[j]] as the callers use it: past the end the read is
    [undefined], which division and comparison turn into [NaN]. *)
Definition sizeAt (sizes : list number) (j : nat) : number :=
  default NaN (sizes !! j).

(** The variables the ranked placement loop mutates. *)
Record LoopState : Type := {
  ls_groups : list Group;
  placedUsers : list Username;
  hasUpdatedThisLoop : bool;
  currentLoopAmounts : nat;
  ls_cursor : nat;
}.

(** [_.remove(placedUsers, placedUser => placedUser === removedUser)] *)
Definition removePlaced (placed : list Username) (removedUser : Username)
    : list Username :=
  filter (fun placedUser => placedUser ≠ removedUser) placed.

(** How the eviction loop leaves the labelled [ugRankLoop]. *)
Inductive Exit : Type :=
| ContinueRank   (* continue ugRankLoop *)
| BreakRank.     (* hasUpdatedThisLoop = true; break ugRankLoop *)

(** The eviction loop [for (k = guRanked.length - 1; k >= 0; k--)], entered
    with [k1 = k + 1].  Running off the front of the array reaches the
    statements after the [if], which also break out of the walk. *)
Fixpoint evictLoop (users : UserDetails) (userIsMale : bool)
    (username : Username) (k1 : nat) (guRanked : Group)
    (placed : list Username) (currentRemovedUsers : Z)
    : result (Group * list Username * Exit) :=
  match k1 with
  | O => Ok (guRanked, placed, BreakRank)
  | S k =>
      candidate ← deref (guRanked !! k);
      detail ← deref (users !! candidate);
      if Bool.eqb (isMale detail) userIsMale then
        let removedUser := candidate in
        let guRanked' := delete k guRanked in
        let currentRemovedUsers' := currentRemovedUsers + getMultiplier removedUser in
        let placed' := removePlaced placed removedUser in
        if getMultiplier username <=? currentRemovedUsers' then
          if String.eqb username removedUser
          then Ok (guRanked', placed', ContinueRank)
          else Ok (guRanked', placed', BreakRank)
        else evictLoop users userIsMale username k guRanked' placed'
                       currentRemovedUsers'
      else evictLoop users userIsMale username k guRanked placed
                     currentRemovedUsers
  end.

(** The labelled loop [ugRankLoop] over the ranked group ids. *)
Fixpoint ugRankLoop (inp : Inputs) (username : Username) (ugRanked : list nat)
    (st : LoopState) : result LoopState :=
  match ugRanked with
  | [] => Ok st
  | groupID :: rest =>
      group ← deref (ls_groups st !! groupID);
      if negb (canTryJoiningGroup (in_antiPreferences inp) group username)
      then ugRankLoop inp username rest st
      else
        guRanked ← getGURanking (in_preferences inp) (groupWithNew group username);
        let placed := placedUsers st ++ [username] in
        user ← deref (in_users inp !! username);
        let size := sizeAt (in_sizes inp) groupID in
        atMaximum ← hasMaximum guRanked (isMale user) size (Num.floorHalf size)
                               (in_oneGenderGroups inp) (in_users inp);
        '(guRanked', placed', exit) ←
          (if atMaximum : bool
           then evictLoop (in_users inp) (isMale user) username
                          (length guRanked) guRanked placed 0
           else Ok (guRanked, placed, BreakRank));
        match exit with
        | ContinueRank =>
            ugRankLoop inp username rest
              {| ls_groups := <[groupID := guRanked']> (ls_groups st);
                 placedUsers := placed';
                 hasUpdatedThisLoop := hasUpdatedThisLoop st;
                 currentLoopAmounts := currentLoopAmounts st;
                 ls_cursor := ls_cursor st |}
        | BreakRank =>
            Ok {| ls_groups := <[groupID := guRanked']> (ls_groups st);
                  placedUsers := placed';
                  hasUpdatedThisLoop := true;
                  currentLoopAmounts := currentLoopAmounts st;
                  ls_cursor := ls_cursor st |}
        end
  end.

(** The condition under which the pass is started again. *)
Definition restartCondition (userOrder : list Username) (i : nat)
    (st : LoopState) : bool :=
  (S i =? length userOrder)%nat
  && (length (placedUsers st) <? length userOrder)%nat
  && hasUpdatedThisLoop st
  && (currentLoopAmounts st <? MOVE_ON_COUNT)%nat.

(** One iteration of the outer [for] at index [i]: the next index and
    state. *)
Definition iteration (inp : Inputs) (i : nat) (username : Username)
    (st : LoopState) : result (nat * LoopState) :=
  if includes (placedUsers st) username then Ok (S i, st)
  else
    '(ugRanked, cursor') ← getUGRanking (in_coin inp) (in_preferences inp)
                                        (ls_groups st) username (ls_cursor st);
    st' ← ugRankLoop inp username ugRanked
            {| ls_groups := ls_groups st;
               placedUsers := placedUsers st;
               hasUpdatedThisLoop := hasUpdatedThisLoop st;
               currentLoopAmounts := currentLoopAmounts st;
               ls_cursor := cursor' |};
    if restartCondition (in_userOrder inp) i st'
    then Ok (O, {| ls_groups := ls_groups st';
                   placedUsers := placedUsers st';
                   hasUpdatedThisLoop := false;
                   currentLoopAmounts := S (currentLoopAmounts st');
                   ls_cursor := ls_cursor st' |})
    else Ok (S i, st').

(** The outer [for (i = 0; i < userOrder.length; i++)], one iteration per
    unit of fuel; [None] only when the fuel runs out. *)
Fixpoint forLoop (inp : Inputs) (fuel : nat) (i : nat) (st : LoopState)
    : option (result LoopState) :=
  match in_userOrder inp !! i with
  | None => Some (Ok st)
  | Some username =>
      match fuel with
      | O => None
      | S fuel' =>
          match iteration inp i username st with
          | TypeError => Some TypeError
          | Ok (i', st') => forLoop inp fuel' i' st'
          end
      end
  end.

Definition initialState (inp : Inputs) : LoopState :=
  {| ls_groups := replicate (length (in_sizes inp)) [];
     placedUsers := [];
     hasUpdatedThisLoop := false;
     currentLoopAmounts := 0;
     ls_cursor := 0 |}.

(** Iterations that always suffice: at most [MOVE_ON_COUNT + 1] passes. *)
Definition phaseAFuel (inp : Inputs) : nat :=
  (S MOVE_ON_COUNT * length (in_userOrder inp))%nat.

Definition phaseA (inp : Inputs) : option (result LoopState) :=
  forLoop inp (phaseAFuel inp) 0 (initialState inp).

(** *** Fallback placement *)

Fixpoint mapResult {A B} (f : A -> result B) (l : list A) : result (list B) :=
  match l with
  | [] => Ok []
  | x :: l' =>
      y ← f x;
      ys ← mapResult f l';
      Ok (y :: ys)
  end.

(** [_.zip(groups, groupSizes)]; a group is carried by its index in
    [groups], since the sorted list shares the arrays it sorts. *)
Definition zipGroups (groups : list Group) (sizes : list number)
    : list (nat * Group * number) :=
  imap (fun groupID group => (groupID, group, sizeAt sizes groupID)) groups.

(** The two iteratees given to [_.sortBy]: the second receives the zipped
    pair and hands that pair to [getUGScore]. *)
Definition fallbackCriteria (preferences : Preferences) (username : Username)
    (groupZip : nat * Group * number) : result (list number * nat) :=
  let '(groupID, group, size) := groupZip in
  let fullness := Num.sub (Num.ofZ (getAllMultiplier group)) size in
  friends ← match preferences !! username with
            | None => Ok 0
            | Some _ => getUGScoreArr preferences [EGroup group; ENum size] username
            end;
  Ok ([fullness; Num.ofZ friends], groupID).

Definition sizeSortedGroups (preferences : Preferences) (username : Username)
    (groups : list Group) (sizes : list number) : result (list nat) :=
  entries ← mapResult (fallbackCriteria preferences username)
                      (zipGroups groups sizes);
  Ok (Lodash.sortByCriteria entries).

(** The caps in force at step [j] of the three passes. *)
Definition effectiveGenderSize (sizes : list number) (n j : nat) : number :=
  if (j <? n)%nat then Num.floorHalf (sizeAt sizes j) else PosInf.

Definition effectiveGroupSize (sizes : list number) (n j : nat) : number :=
  if (j <? n * 2)%nat then sizeAt sizes j else PosInf.

(** The body of the loop over [j]: [Some] of the new groups when the user
    is pushed, [None] when the step ends in [continue]. *)
Definition fallbackTry (inp : Inputs) (username : Username)
    (sorted : list nat) (groups : list Group) (j : nat)
    : result (option (list Group)) :=
  let n := length sorted in
  groupID ← deref (sorted !! (j mod n)%nat);
  group ← deref (groups !! groupID);
  if negb (canTryJoiningGroup (in_antiPreferences inp) group username)
  then Ok None
  else
    user ← deref (in_users inp !! username);
    atMaximum ← hasMaximum group (isMale user)
                           (effectiveGroupSize (in_sizes inp) n j)
                           (effectiveGenderSize (in_sizes inp) n j)
                           (in_oneGenderGroups inp) (in_users inp);
    if atMaximum : bool then Ok None
    else Ok (Some (<[groupID := group ++ [username]]> groups)).

(** [for (j = 0; j < sizeSortedGroups.length * 3; j++)] with [remaining]
    steps to go. *)
Fixpoint fallbackLoop (inp : Inputs) (username : Username)
    (sorted : list nat) (groups : list Group) (remaining j : nat)
    : result (list Group) :=
  match remaining with
  | O => Ok groups
  | S remaining' =>
      attempt ← fallbackTry inp username sorted groups j;
      match attempt with
      | Some groups' => Ok groups'
      | None => fallbackLoop inp username sorted groups remaining' (S j)
      end
  end.

(** The labelled loop [allUsernamesLoop]. *)
Fixpoint allUsernamesLoop (inp : Inputs) (placed : list Username)
    (rest : list Username) (groups : list Group) : result (list Group) :=
  match rest with
  | [] => Ok groups
  | username :: rest' =>
      if includes placed username
      then allUsernamesLoop inp placed rest' groups
      else
        sorted ← sizeSortedGroups (in_preferences inp) username groups
                                  (in_sizes inp);
        groups' ← fallbackLoop inp username sorted groups
                               (length sorted * 3) 0;
        allUsernamesLoop inp placed rest' groups'
  end.

Definition phaseB (inp : Inputs) (st : LoopState) : result (list Group) :=
  allUsernamesLoop inp (placedUsers st) (in_allUsernames inp) (ls_groups st).

Definition run (inp : Inputs) : option (result RunResult) :=
  match phaseA inp with
  | None => None
  | Some TypeError => Some TypeError
  | Some (Ok st) =>
      Some (groups ← phaseB inp st;
            Ok {| groups := groups;
                  preferences := in_preferences inp;
                  users := in_users inp;
                  details := {| groupSizes := in_sizes inp;
                                groupAmount := length (in_sizes inp) |} |})
  end.

(** ** Best of many trials *)

Definition byMinFriends (result : RunResult) : number :=
  minFriends (getMinFriends (groups result) (preferences result)).

Definition byMinFriendsUsers (result : RunResult) : number :=
  Num.ofZ (Z.of_nat (length (usernames (getMinFriends (groups result)
                                                       (preferences result))))).

Definition byWorstFavorability (result : RunResult) : number :=
  negate (Lodash.min ((fun group => getPercentFavorability group (preferences result))
                        <$> groups result)).

(** The result [runMany] hands to [output]; [undefined] without trials. *)
Definition bestResult (results : list RunResult) : option RunResult :=
  head (Lodash.sortBy [byMinFriends; byMinFriendsUsers; byWorstFavorability]
                      results).

(** [Promise.all] over the trials: the first failure fails them all. *)
Fixpoint runAll (trials : list Inputs) : option (result (list RunResult)) :=
  match trials with
  | [] => Some (Ok [])
  | inp :: rest =>
      match run inp, runAll rest with
      | Some (Ok r), Some (Ok rs) => Some (Ok (r :: rs))
      | None, _ | _, None => None
      | _, _ => Some TypeError
      end
  end.

(** [runMany], one [Inputs] per trial (they differ in the shuffled order
    and in the coin flips); reading [bestResult.groups] raises when there
    was no trial at all. *)
Definition runMany (trials : list Inputs) : option (result RunResult) :=
  match runAll trials with
  | Some (Ok results) => Some (deref (bestResult results))
  | Some TypeError => Some TypeError
  | None => None
  end.

(** ** Reference definitions and sample data *)

(** The score as the specification words it: the sum of the multipliers
    of the group members listed in the candidate's preference list. *)
Definition listedWeight (friends : list string) (group : Group) : Z :=
  foldr Z.add 0 (getMultiplier <$> filter (fun member => member ∈ friends) group).

(** The first sort key of the fallback pass: weighted size minus target. *)
Definition fullness (groups : list Group) (sizes : list number) (groupID : nat)
    : number :=
  Num.sub (Num.ofZ (getAllMultiplier (groups !!! groupID))) (sizeAt sizes groupID).

(** The invariant of the ranked placement loop: no identity sits in the
    groups twice, and whoever sits in a group is in the placed list. *)
Definition consistent (groups : list Group) (placed : list Username) : Prop :=
  NoDup (concat groups) /\ forall u, u ∈ concat groups -> u ∈ placed.

(** No identity in two groups, none twice in one group. *)
Definition partitioned (groups : list Group) : Prop :=
  (forall i j gi gj u,
     groups !! i = Some gi -> groups !! j = Some gj ->
     u ∈ gi -> u ∈ gj -> i = j)
  /\ (forall g, g ∈ groups -> NoDup g).

(** The groups of a finished trial, and of a finished placement loop. *)
Definition groupsOfRun (outcome : option (result RunResult)) : option (list Group) :=
  match outcome with
  | Some (Ok r) => Some (groups r)
  | _ => None
  end.

Definition groupsOfLoop (outcome : option (result LoopState)) : option (list Group) :=
  match outcome with
  | Some (Ok st) => Some (ls_groups st)
  | _ => None
  end.

(** *** Sample data *)

Definition male : UserDetail :=
  {| isMale := true; grade := "2021"; isGoing := None; preferencesOf := None |}.

Definition female : UserDetail :=
  {| isMale := false; grade := "2021"; isGoing := None; preferencesOf := None |}.

(** Four boys, two of whom name each other; groups of two. *)
Definition pairInputs : Inputs :=
  {| in_preferences := {[ "a" := ["b"]; "b" := ["a"] ]};
     in_users := {[ "a" := male; "b" := male; "c" := male; "d" := male ]};
     in_antiPreferences := [];
     in_userOrder := ["a"; "b"];
     in_allUsernames := ["a"; "b"; "c"; "d"];
     in_sizes := getGroupSizes "2-2";
     in_oneGenderGroups := false;
     in_coin := fun _ => false |}.

(** [pairInputs] when "a" sits in the first group and "b" comes next. *)
Definition pairState : LoopState :=
  {| ls_groups := [["a"]; []];
     placedUsers := ["a"];
     hasUpdatedThisLoop := true;
     currentLoopAmounts := 0;
     ls_cursor := 1 |}.

(** Three boys and one group of size one, nobody with preferences. *)
Definition crowdInputs : Inputs :=
  {| in_preferences := ∅;
     in_users := {[ "a" := male; "b" := male; "c" := male ]};
     in_antiPreferences := [];
     in_userOrder := [];
     in_allUsernames := ["a"; "b"; "c"];
     in_sizes := getGroupSizes "1";
     in_oneGenderGroups := false;
     in_coin := fun _ => false |}.

(** Joint entries of weight five and four, groups of ten and six, nobody
    with preferences. *)
Definition jointInputs : Inputs :=
  {| in_preferences := ∅;
     in_users := {[ "f--x5" := female; "m--x4" := male;
                    "g--x4" := female; "u" := male ]};
     in_antiPreferences := [];
     in_userOrder := [];
     in_allUsernames := ["f--x5"; "m--x4"; "g--x4"; "u"];
     in_sizes := getGroupSizes "10-6";
     in_oneGenderGroups := false;
     in_coin := fun _ => false |}.

(** Three boys with preference entries, "c" naming "b"; groups of two. *)
Definition tieInputs : Inputs :=
  {| in_preferences := {[ "a" := []; "b" := []; "c" := ["b"] ]};
     in_users := {[ "a" := male; "b" := male; "c" := male ]};
     in_antiPreferences := [];
     in_userOrder := ["a"; "b"; "c"];
     in_allUsernames := ["a"; "b"; "c"];
     in_sizes := getGroupSizes "2-2";
     in_oneGenderGroups := false;
     in_coin := fun _ => false |}.

(** Two canned trial results over the same groups: in the first everybody
    among "a".."d" names two of the others, in the second all three. *)
Definition cannedUsers : UserDetails :=
  {[ "a" := male; "b" := male; "c" := male; "d" := male;
     "x" := female; "y" := female ]}.

Definition cannedDetails : Details :=
  {| groupSizes := [Num.ofZ 4; Num.ofZ 2]; groupAmount := 2 |}.

Definition resultTwo : RunResult :=
  {| groups := [["a"; "b"; "c"; "d"]; ["x"; "y"]];
     preferences := {[ "a" := ["b"; "c"]; "b" := ["c"; "d"];
                       "c" := ["d"; "a"]; "d" := ["a"; "b"] ]};
     users := cannedUsers;
     details := cannedDetails |}.

Definition resultThree : RunResult :=
  {| groups := [["a"; "b"; "c"; "d"]; ["x"; "y"]];
     preferences := {[ "a" := ["b"; "c"; "d"]; "b" := ["a"; "c"; "d"];
                       "c" := ["a"; "b"; "d"]; "d" := ["a"; "b"; "c"] ]};
     users := cannedUsers;
     details := cannedDetails |}.

(** ** Vocabulary of the further properties *)

(** [users[member].isMale === isMale], for a member the map knows. *)
Definition sameGender (users : UserDetails) (isMale_ : bool)
    (member : Username) : bool :=
  match users !! member with
  | Some detail => Bool.eqb (isMale detail) isMale_
  | None => false
  end.

(** [preferences[groupMember].includes(member)], for a member with an
    entry. *)
Definition likedBy (preferences : Preferences) (member groupMember : Username)
    : bool :=
  match preferences !! groupMember with
  | Some friends => includes friends member
  | None => false
  end.

(** No two different members of the group form an excluded pair. *)
Definition conflictFree (antiPreferences : list string) (group : Group) : Prop :=
  forall u v, u ∈ group -> v ∈ group -> u ≠ v ->
              join2 u v ∉ antiPreferences.

(** The acceptability of a member as [getGUScore] computes it when every
    member has an entry: own multiplier times the weight of those who
    list the member. *)
Definition acceptability (preferences : Preferences) (group : Group)
    (member : Username) : Z :=
  getMultiplier member
  * getAllMultiplier (filter (fun gm => likedBy preferences member gm) group).

(** The (group, member) pairs [getMinFriends] visits, in order. *)
Definition visits (groups : list Group) : list (Group * Username) :=
  concat ((fun group : Group =>
             (fun username : Username => (group, username)) <$> group) <$> groups).

(** What [getMinFriends] has established after visiting [seen]. *)
Definition minimumOver (preferences : Preferences)
    (seen : list (Group * Username)) (acc : MinFriends) : Prop :=
  (minFriends acc = PosInf \/ exists z, minFriends acc = Num.ofZ z)
  /\ (forall group username friends,
        (group, username) ∈ seen -> preferences !! username = Some friends ->
        Num.ltb (Num.ofZ (currentFriendsCount friends group)) (minFriends acc)
        = false)
  /\ (forall username,
        username ∈ usernames acc ->
        exists group friends,
          (group, username) ∈ seen /\ preferences !! username = Some friends
          /\ minFriends acc = Num.ofZ (currentFriendsCount friends group))
  /\ (minFriends acc = PosInf ->
      forall group username, (group, username) ∈ seen ->
                             preferences !! username = None)
  /\ (minFriends acc <> PosInf -> usernames acc <> []).

(** A token of a schedule: a string without a hyphen. *)
Fixpoint noHyphen (s : string) : bool :=
  match s with
  | EmptyString => true
  | String c s' => negb (Ascii.eqb c "-") && noHyphen s'
  end.

(** The only way the engine changes a group: a user without a conflict is
    appended, the group is reordered, and some members may be dropped. *)
Definition joins (antiPreferences : list string) (username : Username)
    (group group' : Group) : Prop :=
  canTryJoiningGroup antiPreferences group username = true
  /\ exists ranked, ranked ≡ₚ group ++ [username] /\ group' `sublist_of` ranked.

(** One such change to one group, for a user taken from [known]. *)
Definition groupsStep (antiPreferences : list string) (known : Username -> Prop)
    (groups groups' : list Group) : Prop :=
  exists groupID group group' username,
    known username
    /\ groups !! groupID = Some group
    /\ joins antiPreferences username group group'
    /\ groups' = <[groupID := group']> groups.

(** The users a trial may place. *)
Definition knownTo (inp : Inputs) (username : Username) : Prop :=
  username ∈ in_userOrder inp \/ username ∈ in_allUsernames inp.

(** Three boys in groups of two; "a" and "b" name each other but are listed
    as a pair to keep apart. *)
Definition feudInputs : Inputs :=
  {| in_preferences := {[ "a" := ["b"]; "b" := ["a"]; "c" := [] ]};
     in_users := {[ "a" := male; "b" := male; "c" := male ]};
     in_antiPreferences := [join2 "a" "b"];
     in_userOrder := ["a"; "b"; "c"];
     in_allUsernames := ["a"; "b"; "c"];
     in_sizes := getGroupSizes "2-2";
     in_oneGenderGroups := false;
     in_coin := fun _ => false |}.

(** ** Further functions of the program *)

(** [preferencesPromise]: the preference lists are read off the user
    records; a record without a list gives no entry. *)
Definition preferencesPromise (users : UserDetails) : Preferences :=
  omap preferencesOf users.

(** The loop of [getGenderRadio]. *)
Fixpoint currentMalesLoop (users : UserDetails) (group : Group)
    (currentMales : Z) : result Z :=
  match group with
  | [] => Ok currentMales
  | member :: rest =>
      detail ← deref (users !! member);
      currentMalesLoop users rest
        (if isMale detail then currentMales + 1 else currentMales)
  end.

Definition getGenderRadio (group : Group) (users : UserDetails) : result number :=
  currentMales ← currentMalesLoop users group 0;
  Ok (Num.divZ currentMales (Z.of_nat (length group))).

(** Three users who handed in their lists with their records, and one who
    did not. *)
Definition formUsers : UserDetails :=
  {[ "a" := {| isMale := true; grade := "2021"; isGoing := None;
               preferencesOf := Some ["b"] |};
     "b" := {| isMale := false; grade := "2021"; isGoing := None;
               preferencesOf := Some ["a"; "c"] |};
     "c" := {| isMale := true; grade := "2021"; isGoing := None;
               preferencesOf := Some [] |};
     "d" := female ]}.

Definition formInputs : Inputs :=
  {| in_preferences := preferencesPromise formUsers;
     in_users := formUsers;
     in_antiPreferences := [];
     in_userOrder := ["c"; "a"; "b"];
     in_allUsernames := ["a"; "b"; "c"; "d"];
     in_sizes := getGroupSizes "2-2";
     in_oneGenderGroups := false;
     in_coin := fun _ => true |}.

(** "z" handed in a list but has no record. *)
Definition strangerInputs : Inputs :=
  {| in_preferences := {[ "a" := ["b"]; "z" := [] ]};
     in_users := {[ "a" := male; "b" := male ]};
     in_antiPreferences := [];
     in_userOrder := ["a"; "z"];
     in_allUsernames := ["a"; "b"];
     in_sizes := getGroupSizes "2";
     in_oneGenderGroups := false;
     in_coin := fun _ => false |}.

(** The caps of [hasMaximum] as they hold for a group at rest: the weight
    of the group against its size and, unless gender is ignored, the weight
    of the members of either gender against half the size. *)
Definition withinCaps (users : UserDetails) (oneGender : bool) (size : number)
    (group : Group) : Prop :=
  Num.gtb (Num.ofZ (getAllMultiplier group)) size = false
  /\ (oneGender = false ->
      forall isMale_,
        Num.gtb (Num.ofZ (getAllMultiplier
                            (filter (fun m => sameGender users isMale_ m) group)))
                (Num.floorHalf size) = false).

(** * Properties *)

(** ** Arrays *)

Lemma includes_true (l : list string) (x : string) :
  includes l x = true <-> x ∈ l.
Proof.
  induction l as [|y l IH]; simpl.
  - split; [discriminate | intros H; inversion H].
  - rewrite orb_true_iff, IH, elem_of_cons, String.eqb_eq.
    split; intros [H|H]; auto.
Qed.

Lemma includes_false (l : list string) (x : string) :
  includes l x = false <-> x ∉ l.
Proof.
  rewrite <- includes_true. destruct (includes l x); split; congruence.
Qed.

Lemma getMultiplier_range (username : Username) :
  1 <= getMultiplier username <= 5.
Proof.
  unfold getMultiplier.
  repeat match goal with |- context [if ?b then _ else _] => destruct b end; lia.
Qed.

(** ** Scores *)

Lemma ugStep_fold (friends : list string) (group : Group) (score : Z) :
  fold_left (ugStep friends) (EStr <$> group) score
  = score + listedWeight friends group.
Proof.
  revert score. induction group as [|m group IH]; intros score; simpl.
  - unfold listedWeight. simpl. lia.
  - rewrite IH. unfold listedWeight. rewrite filter_cons.
    destruct (decide (m ∈ friends)) as [Hin|Hout].
    + apply includes_true in Hin. rewrite Hin, fmap_cons. simpl. lia.
    + apply includes_false in Hout. rewrite Hout. lia.
Qed.

(** C5, as the code has it: with a preference entry the score is the sum
    of the multipliers of the listed group members; without one the call
    returns zero only for an empty group and raises a TypeError as soon as
    the group has a member. *)
Theorem getUGScore_cases (preferences : Preferences) (group : Group)
    (candidate : Username) :
  getUGScore preferences group candidate
  = match preferences !! candidate with
    | Some friends => Ok (listedWeight friends group)
    | None => match group with [] => Ok 0 | _ :: _ => TypeError end
    end.
Proof.
  unfold getUGScore, getUGScoreArr.
  destruct group as [|m group].
  - simpl. destruct (preferences !! candidate); reflexivity.
  - rewrite fmap_cons. destruct (preferences !! candidate) as [friends|]; simpl.
    + f_equal. apply (ugStep_fold friends (m :: group) 0).
    + reflexivity.
Qed.

(** C5 fails as stated: a candidate without a preference entry makes the
    score of a one-member group raise instead of returning zero. *)
Lemma getUGScore_absent_entry_raises :
  ~ (forall (preferences : Preferences) (group : Group) (candidate : Username),
       preferences !! candidate = None ->
       getUGScore preferences group candidate = Ok 0).
Proof.
  intros H. specialize (H ∅ ["a"] "b" (lookup_empty _)). discriminate H.
Qed.

(** ** Sorting returns a permutation *)

Section Sorting.
Context {A : Type}.

Lemma insertSorted_Permutation (cmp : A -> A -> Z) (x : A) (l : list A) :
  insertSorted cmp x l ≡ₚ x :: l.
Proof.
  induction l as [|y l IH]; simpl; [reflexivity|].
  destruct (0 <? cmp x y); [|reflexivity].
  rewrite IH. apply Permutation_swap.
Qed.

Lemma arraySort_Permutation (cmp : A -> A -> Z) (l : list A) :
  arraySort cmp l ≡ₚ l.
Proof.
  induction l as [|x l IH]; simpl; [reflexivity|].
  rewrite insertSorted_Permutation. by constructor.
Qed.

Lemma insertSortedR_Permutation (cmp : A -> A -> nat -> Z * nat) (x : A)
    (l : list A) (cursor : nat) :
  (insertSortedR cmp x l cursor).1 ≡ₚ x :: l.
Proof.
  revert cursor. induction l as [|y l IH]; intros cursor; simpl; [reflexivity|].
  destruct (cmp x y cursor) as [c cursor'].
  destruct (0 <? c); [|reflexivity].
  specialize (IH cursor').
  destruct (insertSortedR cmp x l cursor') as [l'' cursor'']; simpl in *.
  rewrite IH. apply Permutation_swap.
Qed.

Lemma arraySortR_Permutation (cmp : A -> A -> nat -> Z * nat) (l : list A)
    (cursor : nat) :
  (arraySortR cmp l cursor).1 ≡ₚ l.
Proof.
  revert cursor. induction l as [|x l IH]; intros cursor; simpl; [reflexivity|].
  specialize (IH cursor).
  destruct (arraySortR cmp l cursor) as [sorted cursor']; simpl in *.
  rewrite insertSortedR_Permutation. by constructor.
Qed.

End Sorting.

(** ** The ranking of a group's members *)

Lemma bind_Ok {A B} (r : result A) (k : A -> result B) (b : B) :
  r ≫= k = Ok b -> exists a, r = Ok a /\ k a = Ok b.
Proof. destruct r as [a|]; simpl; [eauto | discriminate]. Qed.

Ltac bind_inv H :=
  let a := fresh "a" in
  let E := fresh "E" in
  apply bind_Ok in H; destruct H as (a & E & H).

Lemma getGUScoreLoop_defined (preferences : Preferences) (group : Group)
    (member : Username) (score : Z) :
  (forall m, m ∈ group -> is_Some (preferences !! m)) ->
  exists total, getGUScoreLoop preferences group member score = Ok total.
Proof.
  revert score. induction group as [|m group IH]; intros score Hall; simpl.
  - eauto.
  - destruct (Hall m) as [friends ->]; [left|]. simpl.
    apply IH. intros m' Hm'. apply Hall. by right.
Qed.

Lemma guScores_usernames (preferences : Preferences) (group rest : Group)
    (i : nat) (scores : list GUEntry) :
  guScores preferences group rest i = Ok scores ->
  gu_username <$> scores = rest.
Proof.
  revert i scores. induction rest as [|m rest IH]; intros i scores H; simpl in H.
  - by inversion H.
  - bind_inv H. bind_inv H. inversion H; subst; clear H.
    simpl. f_equal. eauto.
Qed.

Lemma guScores_defined (preferences : Preferences) (group rest : Group) (i : nat) :
  (forall m, m ∈ group -> is_Some (preferences !! m)) ->
  exists scores, guScores preferences group rest i = Ok scores.
Proof.
  intros Hall. revert i. induction rest as [|m rest IH]; intros i; simpl.
  - eauto.
  - destruct (getGUScoreLoop_defined preferences group m 0 Hall) as [score Hs].
    unfold getGUScore. rewrite Hs. simpl.
    destruct (IH (S i)) as [scores ->]. simpl. eauto.
Qed.

Lemma getGURanking_Permutation (preferences : Preferences) (group ranked : Group) :
  getGURanking preferences group = Ok ranked -> ranked ≡ₚ group.
Proof.
  unfold getGURanking. intros H. bind_inv H. inversion H; subst; clear H.
  rewrite arraySort_Permutation. by rewrite (guScores_usernames _ _ _ _ _ E).
Qed.

Lemma getGURanking_defined (preferences : Preferences) (group : Group) :
  (forall m, m ∈ group -> is_Some (preferences !! m)) ->
  exists ranked, getGURanking preferences group = Ok ranked.
Proof.
  intros Hall. unfold getGURanking.
  destruct (guScores_defined preferences group group 0 Hall) as [scores ->].
  simpl. eauto.
Qed.

(** C10: when every member of the group has a preference entry,
    [getGURanking] returns a permutation of the group: the same length and
    the same identities with the same multiplicities. *)
Theorem getGURanking_permutes (preferences : Preferences) (group : Group) :
  (forall m, m ∈ group -> is_Some (preferences !! m)) ->
  exists ranked,
    getGURanking preferences group = Ok ranked
    /\ ranked ≡ₚ group
    /\ length ranked = length group
    /\ (forall m, m ∈ ranked <-> m ∈ group).
Proof.
  intros Hall.
  destruct (getGURanking_defined preferences group Hall) as [ranked Hr].
  exists ranked. pose proof (getGURanking_Permutation _ _ _ Hr) as Hp.
  repeat split; auto.
  - by rewrite Hp.
  - by rewrite Hp.
  - by rewrite Hp.
Qed.

(** ** Eviction *)

Lemma elem_of_removePlaced (placed : list Username) (removedUser x : Username) :
  x ∈ removePlaced placed removedUser <-> x ∈ placed /\ x ≠ removedUser.
Proof. unfold removePlaced. rewrite list_elem_of_filter. tauto. Qed.

(** The new identity can only leave the placed list through the branch
    that continues the walk: its own weight always reaches the threshold. *)
Lemma evictLoop_self_evicted (users : UserDetails) (userIsMale : bool)
    (username : Username) (k1 : nat) (guRanked : Group)
    (placed : list Username) (removed : Z)
    (guRanked' : Group) (placed' : list Username) (exit : Exit) :
  0 <= removed ->
  evictLoop users userIsMale username k1 guRanked placed removed
  = Ok (guRanked', placed', exit) ->
  username ∈ placed ->
  username ∉ placed' ->
  exit = ContinueRank.
Proof.
  revert guRanked placed removed.
  induction k1 as [|k IH]; intros guRanked placed removed Hpos Hev Hin Hout;
    simpl in Hev.
  - inversion Hev; subst. contradiction.
  - bind_inv Hev. rename a into candidate. bind_inv Hev. rename a into detail.
    destruct (Bool.eqb (isMale detail) userIsMale).
    + pose proof (getMultiplier_range candidate) as Hc.
      destruct (getMultiplier username <=? removed + getMultiplier candidate) eqn:Hth.
      * destruct (String.eqb username candidate) eqn:Heq.
        -- by inversion Hev.
        -- inversion Hev; subst. exfalso. apply Hout.
           apply elem_of_removePlaced. split; [done|].
           by apply String.eqb_neq.
      * eapply IH; [| exact Hev | | done]; [lia|].
        apply elem_of_removePlaced. split; [done|].
        intros ->. apply Z.leb_gt in Hth. lia.
    + eapply IH; [exact Hpos | exact Hev | done | done].
Qed.

Lemma elem_of_delete_other (l : list Username) (k : nat) (c x : Username) :
  l !! k = Some c -> x ∈ l -> x ≠ c -> x ∈ delete k l.
Proof.
  intros Hk Hx Hne. rewrite delete_take_drop.
  rewrite <- (take_drop_middle _ _ _ Hk) in Hx.
  rewrite elem_of_app, elem_of_cons in Hx. rewrite elem_of_app.
  destruct Hx as [Hx|[->|Hx]]; auto. done.
Qed.

(** The same seen from the group: the new identity cannot vanish from the
    ranked list on a branch that breaks out of the walk. *)
Lemma evictLoop_self_evicted_group (users : UserDetails) (userIsMale : bool)
    (username : Username) (k1 : nat) (guRanked : Group)
    (placed : list Username) (removed : Z)
    (guRanked' : Group) (placed' : list Username) (exit : Exit) :
  0 <= removed ->
  evictLoop users userIsMale username k1 guRanked placed removed
  = Ok (guRanked', placed', exit) ->
  username ∈ guRanked ->
  username ∉ guRanked' ->
  exit = ContinueRank.
Proof.
  revert guRanked placed removed.
  induction k1 as [|k IH]; intros guRanked placed removed Hpos Hev Hin Hout;
    simpl in Hev.
  - inversion Hev; subst. contradiction.
  - bind_inv Hev. rename a into candidate. bind_inv Hev. rename a into detail.
    destruct (guRanked !! k) as [c0|] eqn:Hk; [|discriminate].
    simpl in E. inversion E; subst c0; clear E.
    destruct (Bool.eqb (isMale detail) userIsMale).
    + pose proof (getMultiplier_range candidate) as Hc.
      destruct (getMultiplier username <=? removed + getMultiplier candidate) eqn:Hth.
      * destruct (String.eqb username candidate) eqn:Heq.
        -- by inversion Hev.
        -- inversion Hev; subst. exfalso. apply Hout.
           apply (elem_of_delete_other _ _ candidate); [done..|].
           by apply String.eqb_neq.
      * eapply IH; [| exact Hev | | done]; [lia|].
        apply (elem_of_delete_other _ _ candidate); [done..|].
        intros ->. apply Z.leb_gt in Hth. lia.
    + eapply IH; [exact Hpos | exact Hev | done | done].
Qed.


(** ** Termination of the ranked placement loop *)

Lemma ugRankLoop_currentLoopAmounts (inp : Inputs) (username : Username)
    (ugRanked : list nat) (st st' : LoopState) :
  ugRankLoop inp username ugRanked st = Ok st' ->
  currentLoopAmounts st' = currentLoopAmounts st.
Proof.
  revert st. induction ugRanked as [|groupID rest IH]; intros st H; simpl in H.
  - by inversion H.
  - bind_inv H. rename a into group.
    destruct (negb (canTryJoiningGroup _ group username)); [by apply IH|].
    bind_inv H. rename a into guRanked. bind_inv H. rename a into user.
    bind_inv H. rename a into atMaximum. bind_inv H.
    destruct a as [[guRanked' placed'] exit]. destruct exit.
    + apply IH in H. exact H.
    + by inversion H.
Qed.

Lemma restartCondition_true (userOrder : list Username) (i : nat) (st : LoopState) :
  restartCondition userOrder i st = true <->
  S i = length userOrder
  /\ (length (placedUsers st) < length userOrder)%nat
  /\ hasUpdatedThisLoop st = true
  /\ (currentLoopAmounts st < MOVE_ON_COUNT)%nat.
Proof.
  unfold restartCondition.
  rewrite !andb_true_iff, Nat.eqb_eq, !Nat.ltb_lt. tauto.
Qed.

(** What one iteration does to the index and the restart counter. *)
Lemma iteration_next (inp : Inputs) (i : nat) (username : Username)
    (st : LoopState) (i' : nat) (st' : LoopState) :
  iteration inp i username st = Ok (i', st') ->
  (i' = S i /\ currentLoopAmounts st' = currentLoopAmounts st)
  \/ (i' = O /\ S i = length (in_userOrder inp)
      /\ (currentLoopAmounts st < MOVE_ON_COUNT)%nat
      /\ currentLoopAmounts st' = S (currentLoopAmounts st)).
Proof.
  unfold iteration. intros H.
  destruct (includes (placedUsers st) username).
  - inversion H; subst. by left.
  - bind_inv H. destruct a as [ugRanked cursor']. bind_inv H. rename a into mid.
    pose proof (ugRankLoop_currentLoopAmounts _ _ _ _ _ E0) as Hc. simpl in Hc.
    destruct (restartCondition (in_userOrder inp) i mid) eqn:Hr.
    + apply restartCondition_true in Hr as (Hi & _ & _ & Hlt).
      inversion H; subst; simpl. right. rewrite <- Hc. auto.
    + inversion H; subst. by left.
Qed.

Lemma forLoop_enough_fuel (inp : Inputs) (fuel i : nat) (st : LoopState) :
  ((MOVE_ON_COUNT - currentLoopAmounts st) * length (in_userOrder inp)
   + (length (in_userOrder inp) - i) <= fuel)%nat ->
  exists outcome,
    forLoop inp fuel i st = Some outcome
    /\ forall st', outcome = Ok st' ->
         (currentLoopAmounts st' <= Nat.max MOVE_ON_COUNT (currentLoopAmounts st))%nat.
Proof.
  revert i st. induction fuel as [|fuel IH]; intros i st Hfuel.
  - simpl. destruct (in_userOrder inp !! i) as [username|] eqn:Hi.
    + apply lookup_lt_Some in Hi. exfalso.
      remember ((MOVE_ON_COUNT - currentLoopAmounts st) * length (in_userOrder inp))%nat.
      lia.
    + eexists. split; [reflexivity|]. intros st' [= <-]. lia.
  - simpl. destruct (in_userOrder inp !! i) as [username|] eqn:Hi.
    + apply lookup_lt_Some in Hi.
      destruct (iteration inp i username st) as [[i' st']|] eqn:Hit.
      * apply iteration_next in Hit as [[-> Hc]|(-> & Hlast & Hlt & Hc)].
        -- destruct (IH (S i) st') as (outcome & Hrun & Hbound).
           { rewrite Hc.
             remember ((MOVE_ON_COUNT - currentLoopAmounts st) * length (in_userOrder inp))%nat.
             lia. }
           exists outcome. split; [done|]. intros st'' Hst''.
           specialize (Hbound st'' Hst''). lia.
        -- destruct (IH O st') as (outcome & Hrun & Hbound).
           { rewrite Hc. unfold MOVE_ON_COUNT in *. nia. }
           exists outcome. split; [done|]. intros st'' Hst''.
           specialize (Hbound st'' Hst''). lia.
      * eexists. split; [reflexivity|]. intros st' [=].
    + eexists. split; [reflexivity|]. intros st' [= <-]. lia.
Qed.

(** A list shorter than a duplicate-free list misses one of its elements. *)
Lemma shorter_misses_one (order placed : list Username) :
  NoDup order -> (length placed < length order)%nat ->
  exists u, u ∈ order /\ u ∉ placed.
Proof.
  intros Hnd Hlen.
  destruct (decide (Forall (fun u => u ∈ placed) order)) as [Hall|Hnot].
  - rewrite Forall_forall in Hall.
    pose proof (submseteq_length _ _ (NoDup_submseteq _ _ Hnd Hall)). lia.
  - apply not_Forall_Exists in Hnot; [|intros u; apply _].
    apply Exists_exists in Hnot as (u & Hu & Hmiss). eauto.
Qed.


(** ** Groups stay disjoint *)

Lemma concat_insert_split (groups : list Group) (groupID : nat) (g g' : Group) :
  groups !! groupID = Some g ->
  exists before after,
    concat groups = before ++ g ++ after
    /\ concat (<[groupID := g']> groups) = before ++ g' ++ after.
Proof.
  intros Hg.
  exists (concat (take groupID groups)), (concat (drop (S groupID) groups)).
  split.
  - rewrite <- (take_drop_middle _ _ _ Hg) at 1.
    by rewrite concat_app, concat_cons.
  - rewrite insert_take_drop by (by eapply lookup_lt_Some).
    by rewrite concat_app, concat_cons.
Qed.

Lemma delete_NoDup_elem_of (l : list Username) (k : nat) (c x : Username) :
  NoDup l -> l !! k = Some c ->
  (x ∈ delete k l <-> x ∈ l /\ x ≠ c).
Proof.
  intros Hnd Hk. rewrite delete_take_drop.
  pose proof (take_drop_middle _ _ _ Hk) as Hsplit.
  assert (Hl : x ∈ l <-> x ∈ take k l ++ c :: drop (S k) l) by (by rewrite Hsplit).
  rewrite <- Hsplit in Hnd.
  apply NoDup_app in Hnd as (_ & Hdisj & Hnd).
  apply NoDup_cons in Hnd as [Hc _].
  rewrite Hl, !elem_of_app, elem_of_cons. split.
  - intros [Hx|Hx].
    + split; [auto|]. intros ->. apply (Hdisj c Hx). by left.
    + split; [auto|]. by intros ->.
  - intros [[Hx|[->|Hx]] Hne]; auto. done.
Qed.

(** What the eviction leaves: a sublist of the ranked group, and in the
    placed list exactly those who were not taken out of the group. *)
Lemma evictLoop_effect (users : UserDetails) (userIsMale : bool)
    (username : Username) (k1 : nat) (guRanked : Group)
    (placed : list Username) (removed : Z)
    (guRanked' : Group) (placed' : list Username) (exit : Exit) :
  NoDup guRanked ->
  evictLoop users userIsMale username k1 guRanked placed removed
  = Ok (guRanked', placed', exit) ->
  guRanked' `sublist_of` guRanked
  /\ (forall x, x ∈ placed' <-> x ∈ placed /\ (x ∈ guRanked -> x ∈ guRanked'))
  /\ (exit = ContinueRank -> username ∉ placed').
Proof.
  revert guRanked placed removed.
  induction k1 as [|k IH]; intros guRanked placed removed Hnd Hev; simpl in Hev.
  - inversion Hev; subst. split; [reflexivity|]. split; [|discriminate].
    intros x. tauto.
  - bind_inv Hev. rename a into c. bind_inv Hev. rename a into detail.
    destruct (guRanked !! k) as [c0|] eqn:Hk; [|discriminate].
    simpl in E. inversion E; subst c0; clear E.
    assert (Hdel : forall x, x ∈ delete k guRanked <-> x ∈ guRanked /\ x ≠ c)
      by (intros x; by apply delete_NoDup_elem_of).
    assert (Hstop : delete k guRanked `sublist_of` guRanked
              /\ (forall x, x ∈ removePlaced placed c
                     <-> x ∈ placed /\ (x ∈ guRanked -> x ∈ delete k guRanked))).
    { split; [apply sublist_delete|]. intros x.
      rewrite elem_of_removePlaced, Hdel. split.
      - intros [Hx Hne]. auto.
      - intros [Hx Himp]. split; [done|]. intros ->.
        destruct Himp as [_ Hne]; [by eapply list_elem_of_lookup_2|done]. }
    destruct (Bool.eqb (isMale detail) userIsMale).
    + destruct (getMultiplier username <=? removed + getMultiplier c).
      * destruct (String.eqb username c) eqn:Heq; inversion Hev; subst.
        -- destruct Hstop as [Hsub Hpl]. split; [done|]. split; [done|].
           intros _. apply String.eqb_eq in Heq as ->.
           rewrite elem_of_removePlaced. tauto.
        -- destruct Hstop as [Hsub Hpl]. split; [done|]. split; [done|].
           discriminate.
      * apply IH in Hev as (Hsub & Hpl & Hexit);
          [|by eapply sublist_NoDup; [|apply sublist_delete]].
        split; [etrans; [exact Hsub|apply sublist_delete]|]. split; [|done].
        intros x. rewrite Hpl, elem_of_removePlaced, Hdel. split.
        -- intros [[Hx Hne] Himp]. auto.
        -- intros [Hx Himp]. destruct (decide (x = c)) as [->|Hne].
           ++ exfalso. assert (c ∈ guRanked) as Hc by (by eapply list_elem_of_lookup_2).
              specialize (Himp Hc). apply (sublist_subseteq _ _ Hsub) in Himp.
              apply Hdel in Himp. tauto.
           ++ split; [done|]. tauto.
    + by apply IH in Hev.
Qed.

Lemma insert_consistent (groups : list Group) (placed placed' : list Username)
    (groupID : nat) (group guRanked guRanked' : Group) (username : Username) :
  consistent groups placed ->
  username ∉ placed ->
  groups !! groupID = Some group ->
  guRanked ≡ₚ group ++ [username] ->
  guRanked' `sublist_of` guRanked ->
  (forall x, x ∈ placed' <->
             x ∈ placed ++ [username] /\ (x ∈ guRanked -> x ∈ guRanked')) ->
  consistent (<[groupID := guRanked']> groups) placed'.
Proof.
  intros [Hnd Hin] Hnew Hg Hperm Hsub Hpl. unfold consistent.
  destruct (concat_insert_split groups groupID group guRanked' Hg)
    as (before & after & Hold & ->).
  rewrite Hold in Hnd, Hin.
  assert (Hfresh : username ∉ before ++ group ++ after) by (intros H; auto).
  assert (Hnd' : NoDup (before ++ guRanked ++ after)).
  { assert (before ++ guRanked ++ after ≡ₚ username :: before ++ group ++ after)
      as ->.
    { rewrite Hperm, <- (assoc_L (++) group). simpl.
      by rewrite <- !Permutation_middle. }
    by apply NoDup_cons. }
  split.
  - eapply sublist_NoDup; [exact Hnd'|].
    apply sublist_app; [reflexivity|]. apply sublist_app; [done|reflexivity].
  - intros u Hu. apply Hpl.
    apply NoDup_app in Hnd' as (_ & Hdisj1 & Hnd').
    apply NoDup_app in Hnd' as (_ & Hdisj2 & _).
    rewrite !elem_of_app in Hu. rewrite elem_of_app.
    destruct Hu as [Hu|[Hu|Hu]].
    + split.
      * left. apply Hin. rewrite !elem_of_app. auto.
      * intros Hr. exfalso. apply (Hdisj1 u Hu). rewrite elem_of_app. auto.
    + split; [|done].
      apply (sublist_subseteq _ _ Hsub) in Hu. rewrite Hperm in Hu.
      apply elem_of_app in Hu as [Hu|Hu]; [left|by right].
      apply Hin. rewrite !elem_of_app. auto.
    + split.
      * left. apply Hin. rewrite !elem_of_app. auto.
      * intros Hr. exfalso. by apply (Hdisj2 u Hr).
Qed.

Lemma ugRankLoop_consistent (inp : Inputs) (username : Username)
    (ugRanked : list nat) (st st' : LoopState) :
  consistent (ls_groups st) (placedUsers st) ->
  username ∉ placedUsers st ->
  ugRankLoop inp username ugRanked st = Ok st' ->
  consistent (ls_groups st') (placedUsers st').
Proof.
  revert st. induction ugRanked as [|groupID rest IH]; intros st Hinv Hnew H;
    simpl in H.
  - by inversion H; subst.
  - bind_inv H. rename a into group.
    destruct (ls_groups st !! groupID) as [g|] eqn:Hg; [|discriminate].
    simpl in E. inversion E; subst g; clear E.
    destruct (negb (canTryJoiningGroup _ group username)); [by eapply IH|].
    bind_inv H. rename a into guRanked. bind_inv H. rename a into user.
    bind_inv H. rename a into atMaximum. bind_inv H.
    destruct a as [[guRanked' placed'] exit].
    apply getGURanking_Permutation in E. unfold groupWithNew in E.
    assert (Heff : guRanked' `sublist_of` guRanked
              /\ (forall x, x ∈ placed' <->
                            x ∈ placedUsers st ++ [username]
                            /\ (x ∈ guRanked -> x ∈ guRanked'))
              /\ (exit = ContinueRank -> username ∉ placed')).
    { destruct atMaximum.
      - eapply evictLoop_effect; [|exact E2].
        rewrite E. destruct Hinv as [Hnd Hin].
        destruct (concat_insert_split (ls_groups st) groupID group [] Hg)
          as (before & after & Hold & _).
        rewrite Hold in Hnd, Hin.
        apply NoDup_app in Hnd as (_ & _ & Hnd).
        apply NoDup_app in Hnd as (Hnd & _ & _).
        apply NoDup_app. split; [done|]. split; [|apply NoDup_singleton].
        intros x Hx ->%list_elem_of_singleton. apply Hnew, Hin.
        rewrite !elem_of_app. auto.
      - inversion E2; subst. split; [reflexivity|]. split; [|discriminate].
        intros x. tauto. }
    destruct Heff as (Hsub & Hpl & Hexit).
    pose proof (insert_consistent _ _ _ _ _ _ _ _ Hinv Hnew Hg E Hsub Hpl) as Hinv'.
    destruct exit.
    + eapply IH; [| |exact H]; simpl; auto.
    + by inversion H; subst.
Qed.

Lemma iteration_consistent (inp : Inputs) (i : nat) (username : Username)
    (st : LoopState) (i' : nat) (st' : LoopState) :
  consistent (ls_groups st) (placedUsers st) ->
  iteration inp i username st = Ok (i', st') ->
  consistent (ls_groups st') (placedUsers st').
Proof.
  intros Hinv H. unfold iteration in H.
  destruct (includes (placedUsers st) username) eqn:Hplaced.
  - by inversion H; subst.
  - apply includes_false in Hplaced.
    bind_inv H. destruct a as [ugRanked cursor']. bind_inv H. rename a into mid.
    apply ugRankLoop_consistent in E0; [|done..].
    destruct (restartCondition _ i mid); by inversion H; subst.
Qed.

Lemma forLoop_consistent (inp : Inputs) (fuel i : nat) (st st' : LoopState) :
  consistent (ls_groups st) (placedUsers st) ->
  forLoop inp fuel i st = Some (Ok st') ->
  consistent (ls_groups st') (placedUsers st').
Proof.
  revert i st. induction fuel as [|fuel IH]; intros i st Hinv H; simpl in H;
    destruct (in_userOrder inp !! i) as [username|]; try discriminate;
    try (by inversion H; subst).
  destruct (iteration inp i username st) as [[i' mid]|] eqn:Hit; [|discriminate].
  eapply IH; [|exact H]. by eapply iteration_consistent.
Qed.

Lemma initialState_consistent (inp : Inputs) :
  consistent (ls_groups (initialState inp)) (placedUsers (initialState inp)).
Proof.
  simpl. assert (concat (replicate (length (in_sizes inp)) ([] : Group)) = []) as Hnil.
  { induction (length (in_sizes inp)); simpl; auto. }
  split; rewrite Hnil; [constructor|]. intros u Hu. inversion Hu.
Qed.

(** *** The fallback pass *)

Lemma fallbackTry_effect (inp : Inputs) (username : Username)
    (sorted : list nat) (groups groups' : list Group) (j : nat) :
  fallbackTry inp username sorted groups j = Ok (Some groups') ->
  exists groupID group,
    groups !! groupID = Some group
    /\ canTryJoiningGroup (in_antiPreferences inp) group username = true
    /\ groups' = <[groupID := group ++ [username]]> groups.
Proof.
  unfold fallbackTry. intros H.
  bind_inv H. rename a into groupID. bind_inv H. rename a into group.
  destruct (groups !! groupID) as [g|] eqn:Hg; [|discriminate].
  simpl in E0. inversion E0; subst g; clear E0.
  destruct (canTryJoiningGroup _ group username) eqn:Hcan; [|discriminate].
  simpl in H. bind_inv H. bind_inv H. destruct a0; [discriminate|].
  inversion H; subst. eauto.
Qed.

Lemma fallbackLoop_effect (inp : Inputs) (username : Username)
    (sorted : list nat) (groups groups' : list Group) (remaining j : nat) :
  fallbackLoop inp username sorted groups remaining j = Ok groups' ->
  groups' = groups
  \/ exists groupID group,
       groups !! groupID = Some group
       /\ canTryJoiningGroup (in_antiPreferences inp) group username = true
       /\ groups' = <[groupID := group ++ [username]]> groups.
Proof.
  revert j. induction remaining as [|remaining IH]; intros j H; simpl in H.
  - inversion H. by left.
  - bind_inv H. destruct a as [pushed|].
    + inversion H; subst. right. by eapply fallbackTry_effect.
    + by eapply IH.
Qed.

Lemma push_NoDup (groups : list Group) (groupID : nat) (group : Group)
    (username : Username) :
  NoDup (concat groups) ->
  username ∉ concat groups ->
  groups !! groupID = Some group ->
  NoDup (concat (<[groupID := group ++ [username]]> groups))
  /\ forall x, x ∈ concat (<[groupID := group ++ [username]]> groups)
               <-> x = username \/ x ∈ concat groups.
Proof.
  intros Hnd Hnew Hg.
  destruct (concat_insert_split groups groupID group (group ++ [username]) Hg)
    as (before & after & Hold & ->).
  rewrite Hold in Hnd, Hnew |- *.
  assert (before ++ (group ++ [username]) ++ after
          ≡ₚ username :: before ++ group ++ after) as Hperm.
  { rewrite <- (assoc_L (++) group). simpl. by rewrite <- !Permutation_middle. }
  split.
  - rewrite Hperm. by apply NoDup_cons.
  - intros x. by rewrite Hperm, elem_of_cons.
Qed.

Lemma allUsernamesLoop_NoDup (inp : Inputs) (placed rest : list Username)
    (groups groups' : list Group) :
  NoDup rest ->
  NoDup (concat groups) ->
  (forall u, u ∈ concat groups -> u ∈ rest -> u ∈ placed) ->
  allUsernamesLoop inp placed rest groups = Ok groups' ->
  NoDup (concat groups').
Proof.
  revert groups. induction rest as [|username rest IH];
    intros groups Hrest Hnd Hin H; simpl in H.
  - by inversion H; subst.
  - apply NoDup_cons in Hrest as [Hfirst Hrest].
    destruct (includes placed username) eqn:Hplaced.
    + eapply IH; [done|exact Hnd| |exact H].
      intros u Hu Hr. apply Hin; [done|by right].
    + apply includes_false in Hplaced.
      bind_inv H. rename a into sorted. bind_inv H. rename a into pushed.
      assert (Hnew : username ∉ concat groups).
      { intros Hu. apply Hplaced, Hin; [done|by left]. }
      apply fallbackLoop_effect in E0 as [->|(groupID & group & Hg & _ & ->)].
      * eapply IH; [done|exact Hnd| |exact H].
        intros u Hu Hr. apply Hin; [done|by right].
      * destruct (push_NoDup groups groupID group username Hnd Hnew Hg)
          as [Hnd' Hmem].
        eapply IH; [done|exact Hnd'| |exact H].
        intros u Hu Hr. apply Hmem in Hu as [->|Hu]; [done|].
        apply Hin; [done|by right].
Qed.

Lemma NoDup_concat_partitioned (groups : list Group) :
  NoDup (concat groups) -> partitioned groups.
Proof.
  assert (Hmem : forall (l : list Group) j g u,
             l !! j = Some g -> u ∈ g -> u ∈ concat l).
  { intros l j g u Hj Hu. apply list_elem_of_In, in_concat.
    exists g. split; apply list_elem_of_In; [|done].
    by eapply list_elem_of_lookup_2. }
  induction groups as [|g0 groups IH]; intros Hnd.
  - split; [intros i j gi gj u Hi; by rewrite lookup_nil in Hi|].
    intros g Hg. inversion Hg.
  - simpl in Hnd. apply NoDup_app in Hnd as (Hg0 & Hdisj & Hrest).
    destruct (IH Hrest) as [Hone Hin]. split.
    + intros [|i] [|j] gi gj u Hi Hj Hui Huj; simpl in Hi, Hj.
      * done.
      * inversion Hi; subst. exfalso. apply (Hdisj u Hui). by eapply Hmem.
      * inversion Hj; subst. exfalso. apply (Hdisj u Huj). by eapply Hmem.
      * f_equal. by eapply Hone.
    + intros g [->|Hg]%elem_of_cons; auto.
Qed.

(** [run] always comes to an end, with a result or with a TypeError. *)
Lemma run_total (inp : Inputs) : is_Some (run inp).
Proof.
  unfold run, phaseA.
  destruct (forLoop_enough_fuel inp (phaseAFuel inp) 0 (initialState inp))
    as (outcome & -> & _).
  { unfold phaseAFuel, initialState. cbn [currentLoopAmounts].
    rewrite !Nat.sub_0_r. lia. }
  destruct outcome; eauto.
Qed.

(** C4: in every result of a trial (ranked placement followed by the
    fallback pass, the keys of the user map being distinct) no identity
    appears in two groups and none appears twice within a group. *)
Theorem run_groups_disjoint (inp : Inputs) (result : RunResult) :
  NoDup (in_allUsernames inp) ->
  run inp = Some (Ok result) ->
  NoDup (concat (groups result)) /\ partitioned (groups result).
Proof.
  intros Hkeys Hrun. unfold run in Hrun.
  destruct (phaseA inp) as [[st|]|] eqn:HA; try discriminate.
  inversion Hrun as [Hres]; clear Hrun. bind_inv Hres. rename a into final.
  inversion Hres; subst; clear Hres. simpl.
  assert (Hnd : NoDup (concat final)).
  { unfold phaseA in HA.
    apply forLoop_consistent in HA as [Hnd Hin]; [|apply initialState_consistent].
    unfold phaseB in E. eapply allUsernamesLoop_NoDup; [exact Hkeys|exact Hnd| |exact E].
    auto. }
  split; [done|]. by apply NoDup_concat_partitioned.
Qed.

(** The four-boy trial ends with two disjoint pairs. *)
Lemma run_groups_disjoint_witness :
  NoDup (in_allUsernames pairInputs)
  /\ exists result,
       run pairInputs = Some (Ok result)
       /\ groups result = [["a"; "c"]; ["b"; "d"]]
       /\ NoDup (concat (groups result)) /\ partitioned (groups result).
Proof.
  assert (Hkeys : NoDup (in_allUsernames pairInputs)).
  { apply (bool_decide_unpack _). vm_compute. exact I. }
  split; [exact Hkeys|].
  destruct (run pairInputs) as [[result|]|] eqn:Hrun;
    [|vm_compute in Hrun; discriminate Hrun..].
  exists result. split; [reflexivity|]. split.
  - vm_compute in Hrun. inversion Hrun. reflexivity.
  - exact (run_groups_disjoint pairInputs result Hkeys Hrun).
Defined.


(** A group of three users who all have preference entries. *)
Lemma getGURanking_permutes_witness :
  exists ranked,
    getGURanking (in_preferences tieInputs) ["a"; "b"; "c"] = Ok ranked
    /\ ranked ≡ₚ ["a"; "b"; "c"]
    /\ length ranked = length ["a"; "b"; "c"]
    /\ (forall m, m ∈ ranked <-> m ∈ ["a"; "b"; "c"]).
Proof.
  apply (getGURanking_permutes (in_preferences tieInputs) ["a"; "b"; "c"]).
  intros m Hm.
  repeat (apply elem_of_cons in Hm as [->|Hm]; [vm_compute; eauto|]).
  inversion Hm.
Defined.

(** ** The fallback pass: order and caps *)

(** The second sort criterion is the score of the zipped pair, which has
    no string in it: it is zero whatever the user's friends are. *)
Lemma fallbackCriteria_second_zero (preferences : Preferences)
    (username : Username) (groupID : nat) (group : Group) (size : number) :
  fallbackCriteria preferences username (groupID, group, size)
  = Ok ([Num.sub (Num.ofZ (getAllMultiplier group)) size; Num.ofZ 0], groupID).
Proof.
  unfold fallbackCriteria, getUGScoreArr.
  destruct (preferences !! username); reflexivity.
Qed.

(** From the second pass on no capacity check can succeed: the total cap is
    read past the end of the schedule and the same-gender cap is infinite. *)
Lemma fallback_second_pass_uncapped (sizes : list number) (j : nat)
    (group : Group) (isMale_ oneGender : bool) (users : UserDetails)
    (atMaximum : bool) :
  (length sizes <= j)%nat ->
  hasMaximum group isMale_ (effectiveGroupSize sizes (length sizes) j)
             (effectiveGenderSize sizes (length sizes) j) oneGender users
  = Ok atMaximum ->
  atMaximum = false.
Proof.
  intros Hj. unfold effectiveGroupSize, effectiveGenderSize, sizeAt.
  rewrite (proj2 (Nat.ltb_ge j (length sizes)) Hj).
  rewrite (lookup_ge_None_2 sizes j Hj). simpl.
  unfold hasMaximum. intros H. bind_inv H. destruct a as [same amount].
  destruct (j <? length sizes * 2)%nat, oneGender; by inversion H.
Qed.

(** C2, on the code: the second pass places "c" into a group that already
    exceeds its total-size cap, because the cap is read at index [j] past
    the end of the schedule; and the first pass checks the group standing
    first in the sorted list against the caps of the first schedule entry,
    not against its own, so "u" joins a group that is at its own
    same-gender cap. *)
Theorem fallback_caps_misapplied :
  (in_sizes crowdInputs = [Num.ofZ 1]
   /\ fallbackTry crowdInputs "c" [0%nat] [["a"; "b"]] 0 = Ok None
   /\ effectiveGroupSize (in_sizes crowdInputs) 1 1 = NaN
   /\ hasMaximum ["a"; "b"] true (sizeAt (in_sizes crowdInputs) 0) PosInf false
                 (in_users crowdInputs) = Ok true
   /\ fallbackTry crowdInputs "c" [0%nat] [["a"; "b"]] 1
      = Ok (Some [["a"; "b"; "c"]])
   /\ groupsOfRun (run crowdInputs) = Some [["a"; "b"; "c"]])
  /\ (in_sizes jointInputs = [Num.ofZ 10; Num.ofZ 6]
      /\ sizeSortedGroups (in_preferences jointInputs) "u"
           [["f--x5"; "g--x4"]; ["m--x4"]] (in_sizes jointInputs)
         = Ok [1%nat; 0%nat]
      /\ hasMaximum ["m--x4"] true (sizeAt (in_sizes jointInputs) 1)
                    (Num.floorHalf (sizeAt (in_sizes jointInputs) 1)) false
                    (in_users jointInputs) = Ok true
      /\ hasMaximum ["f--x5"; "g--x4"] true (sizeAt (in_sizes jointInputs) 0)
                    (Num.floorHalf (sizeAt (in_sizes jointInputs) 0)) false
                    (in_users jointInputs) = Ok false
      /\ fallbackTry jointInputs "u" [1%nat; 0%nat]
           [["f--x5"; "g--x4"]; ["m--x4"]] 0
         = Ok (Some [["f--x5"; "g--x4"]; ["m--x4"; "u"]])
      /\ groupsOfRun (run jointInputs)
         = Some [["f--x5"; "g--x4"]; ["m--x4"; "u"]]).
Proof. repeat split; vm_compute; reflexivity. Qed.

(** C3, on the code: "c" names "b", the two groups are equally full, and
    the sorted list still starts with the group of "a": ties keep the
    index order, and "c" ends up beside "a". *)
Theorem sizeSortedGroups_ignores_friends :
  groupsOfLoop (phaseA tieInputs) = Some [["a"]; ["b"]]
  /\ Num.sub (Num.ofZ (getAllMultiplier ["a"])) (sizeAt (in_sizes tieInputs) 0)
     = Num.sub (Num.ofZ (getAllMultiplier ["b"])) (sizeAt (in_sizes tieInputs) 1)
  /\ getUGScore (in_preferences tieInputs) ["a"] "c" = Ok 0
  /\ getUGScore (in_preferences tieInputs) ["b"] "c" = Ok 1
  /\ sizeSortedGroups (in_preferences tieInputs) "c" [["a"]; ["b"]]
                      (in_sizes tieInputs) = Ok [0%nat; 1%nat]
  /\ groupsOfRun (run tieInputs) = Some [["a"; "c"]; ["b"]].
Proof. repeat split; vm_compute; reflexivity. Qed.

(** ** Favorability *)

(** A lone member of weight one who does not name itself has no possible
    friendship: the quotient is [0 / 0]. *)
Lemma favorability_singleton (preferences : Preferences) (member : Username) :
  getMultiplier member = 1 ->
  (forall friends, preferences !! member = Some friends -> member ∉ friends) ->
  getPercentFavorability [member] preferences = NaN.
Proof.
  intros Hw Hself. unfold getPercentFavorability, getAllMultiplier.
  simpl. rewrite Hw. simpl.
  assert (currentFriendsSum preferences [member] = 0) as ->; [|reflexivity].
  unfold currentFriendsSum, friendsSumRow. simpl.
  destruct (preferences !! member) as [friends|] eqn:Hf; [|reflexivity].
  simpl. specialize (Hself friends eq_refl).
  apply includes_false in Hself. by rewrite Hself.
Qed.

(** C6, on the code: an empty group scores exactly one, but a group of one
    identity of weight one, whose preference entry names somebody else,
    scores [NaN], which is not in the closed unit interval. *)
Theorem favorability_singleton_is_NaN :
  (forall preferences, getPercentFavorability [] preferences = Num.ofZ 1)
  /\ in_preferences pairInputs !! "a" = Some ["b"]
  /\ getPercentFavorability ["a"] (in_preferences pairInputs) = NaN
  /\ Num.inUnit (getPercentFavorability ["a"] (in_preferences pairInputs)) = false.
Proof. repeat split; vm_compute; reflexivity. Qed.

(** ** The group-size schedule *)

Lemma getGroupSizes_Permutation (argument : string) :
  getGroupSizes argument ≡ₚ ParseInt.parseInt <$> split argument.
Proof. apply arraySort_Permutation. Qed.

(** A token that starts with a character which is neither white space, a
    sign nor a decimal digit has no number for [parseInt] to find. *)
Lemma parseInt_no_number (c : ascii) (rest : string) :
  ParseInt.isWhiteSpace c = false ->
  c ≠ "-"%char -> c ≠ "+"%char ->
  (forall d, ParseInt.digitValue c = Some d -> 10 <= d) ->
  ParseInt.parseInt (String c rest) = NaN.
Proof.
  intros Hws Hminus Hplus Hdigit. unfold ParseInt.parseInt.
  cbn [ParseInt.trimStart]. rewrite Hws.
  assert (Hzero : c ≠ "0"%char).
  { intros ->. specialize (Hdigit 0 eq_refl). lia. }
  assert (Hnone : ParseInt.digits 10 (String c rest) None = None).
  { cbn [ParseInt.digits]. destruct (ParseInt.digitValue c) as [d|]; [|done].
    specialize (Hdigit d eq_refl).
    by rewrite (proj2 (Z.ltb_ge d 10) Hdigit). }
  destruct c as [b0 b1 b2 b3 b4 b5 b6 b7].
  destruct b0, b1, b2, b3, b4, b5, b6, b7;
    try (exfalso; by (apply Hminus || apply Hplus || apply Hzero));
    by rewrite Hnone.
Qed.

(** C9 fails as stated: a schedule with a non-numeric token is parsed
    without any error, and the token becomes a [NaN] capacity. *)
Lemma getGroupSizes_keeps_NaN :
  "abc" ∈ split "30-abc-20"
  /\ ParseInt.parseInt "abc" = NaN
  /\ getGroupSizes "30-abc-20" = [Num.ofZ 30; NaN; Num.ofZ 20]
  /\ NaN ∈ getGroupSizes "30-abc-20".
Proof.
  split; [|split; [|split]]; try (vm_compute; reflexivity).
  - vm_compute. right. left.
  - vm_compute. right. left.
Qed.

(** A [map] followed by a [filter] on the image. *)
Lemma filter_fmap_length {A B} (f : A -> B) (P : B -> bool) (l : list A) :
  length (filter (fun y => P y) (f <$> l))
  = length (filter (fun x => P (f x)) l).
Proof.
  induction l as [|x l IH]; [done|]. rewrite fmap_cons, !filter_cons.
  destruct (P (f x)); simpl; by rewrite IH.
Qed.

(** C9, as the code has it: parsing never fails, whatever the schedule
    string.  The size sequence holds exactly the values [parseInt] gives
    for the hyphen-separated tokens, one capacity per token; it has one
    [NaN] per token in which [parseInt] finds no number, so every such
    token yields a [NaN] capacity in it. *)
Theorem getGroupSizes_never_fails (argument : string) :
  getGroupSizes argument ≡ₚ ParseInt.parseInt <$> split argument
  /\ length (getGroupSizes argument) = length (split argument)
  /\ length (filter (fun size => Num.isNaN size) (getGroupSizes argument))
     = length (filter (fun token => Num.isNaN (ParseInt.parseInt token))
                      (split argument))
  /\ (forall token,
        token ∈ split argument -> ParseInt.parseInt token = NaN ->
        NaN ∈ getGroupSizes argument).
Proof.
  split; [apply getGroupSizes_Permutation|]. split; [|split].
  - by rewrite getGroupSizes_Permutation, length_fmap.
  - rewrite getGroupSizes_Permutation. apply filter_fmap_length.
  - intros token Htoken Hnan. rewrite getGroupSizes_Permutation, <- Hnan.
    by apply list_elem_of_fmap_2.
Qed.

(** The schedule ["30-12abc-20"], whose middle token is read as twelve,
    and the schedule ["30-abc-20"], whose middle token is not read. *)
Lemma getGroupSizes_never_fails_witness :
  (getGroupSizes "30-12abc-20" ≡ₚ ParseInt.parseInt <$> split "30-12abc-20"
   /\ length (getGroupSizes "30-12abc-20") = length (split "30-12abc-20")
   /\ length (filter (fun size => Num.isNaN size) (getGroupSizes "30-12abc-20"))
      = length (filter (fun token => Num.isNaN (ParseInt.parseInt token))
                       (split "30-12abc-20"))
   /\ (forall token,
         token ∈ split "30-12abc-20" -> ParseInt.parseInt token = NaN ->
         NaN ∈ getGroupSizes "30-12abc-20"))
  /\ "abc" ∈ split "30-abc-20"
  /\ ParseInt.parseInt "abc" = NaN
  /\ NaN ∈ getGroupSizes "30-abc-20".
Proof.
  split; [exact (getGroupSizes_never_fails "30-12abc-20")|].
  assert (Htoken : "abc" ∈ split "30-abc-20") by (vm_compute; right; left).
  split; [exact Htoken|]. split; [reflexivity|].
  exact (proj2 (proj2 (proj2 (getGroupSizes_never_fails "30-abc-20")))
           "abc" Htoken eq_refl).
Defined.

(** ** Best of many trials *)

(** C1, on the code: of two canned results that differ only in the
    minimum friend count, two against three, the one with the lower
    minimum wins, in whichever order the trials finished. *)
Theorem bestResult_prefers_fewer_friends :
  byMinFriends resultTwo = Num.ofZ 2
  /\ byMinFriends resultThree = Num.ofZ 3
  /\ byMinFriendsUsers resultTwo = byMinFriendsUsers resultThree
  /\ byWorstFavorability resultTwo = byWorstFavorability resultThree
  /\ bestResult [resultTwo; resultThree] = Some resultTwo
  /\ bestResult [resultThree; resultTwo] = Some resultTwo.
Proof. repeat split; vm_compute; reflexivity. Qed.

(** *** The selection minimises the first key *)

Lemma ltb_irrefl (a : number) : Num.ltb a a = false.
Proof.
  destruct a as [q| | |]; simpl; auto.
  destruct (Qlt_le_dec q q) as [H|H]; [|done]. by apply Qlt_irrefl in H.
Qed.

Lemma ltb_asym (a b : number) : Num.ltb a b = true -> Num.ltb b a = false.
Proof.
  destruct a as [x| | |], b as [y| | |]; simpl; auto; try discriminate.
  destruct (Qlt_le_dec x y) as [H|H]; [|discriminate].
  destruct (Qlt_le_dec y x) as [H'|H']; [|done].
  intros _. exfalso. apply (Qlt_irrefl x). by eapply Qlt_trans.
Qed.

Lemma eqb_not_ltb (a b : number) : Num.eqb a b = true -> Num.ltb b a = false.
Proof.
  destruct a as [x| | |], b as [y| | |]; simpl; auto; try discriminate.
  intros H%Qeq_bool_iff. destruct (Qlt_le_dec y x) as [H'|H']; [|done].
  exfalso. rewrite H in H'. by apply Qlt_irrefl in H'.
Qed.

(** Not-greater is transitive away from [NaN]. *)
Lemma not_ltb_trans (a b c : number) :
  Num.isNaN b = false ->
  Num.ltb b a = false -> Num.ltb c b = false -> Num.ltb c a = false.
Proof.
  destruct a as [x| | |], b as [y| | |], c as [z| | |]; simpl; auto;
    try discriminate.
  intros _.
  destruct (Qlt_le_dec y x) as [|Hxy]; [discriminate|].
  destruct (Qlt_le_dec z y) as [|Hyz]; [discriminate|].
  destruct (Qlt_le_dec z x) as [Hzx|]; [|done].
  intros _ _. exfalso. apply (Qlt_irrefl z).
  eapply Qlt_le_trans; [exact Hzx|]. by eapply Qle_trans.
Qed.

Lemma compareAscending_cases (value other : number) :
  ((0 <? Lodash.compareAscending value other) = true ->
   Num.isNaN value = false -> Num.ltb value other = false)
  /\ (Lodash.compareAscending value other = 0 ->
      Num.isNaN value = false -> Num.isNaN other = false ->
      Num.ltb value other = false /\ Num.ltb other value = false)
  /\ (Lodash.compareAscending value other < 0 -> Num.ltb other value = false).
Proof.
  unfold Lodash.compareAscending, Num.gtb.
  destruct (Num.eqb value other) eqn:Heq.
  - pose proof (eqb_not_ltb _ _ Heq) as H1.
    assert (Num.eqb other value = true) as Heq'.
    { destruct value as [x| | |], other as [y| | |]; simpl in *; auto.
      apply Qeq_bool_iff. symmetry. by apply Qeq_bool_iff. }
    pose proof (eqb_not_ltb _ _ Heq') as H2.
    repeat split; auto; lia.
  - destruct (Num.ltb other value) eqn:Hgt; simpl.
    { repeat split; intros; try lia. by apply ltb_asym. }
    destruct (Num.isNaN value) eqn:Hnan; simpl.
    { repeat split; intros; try lia; congruence. }
    destruct (Num.ltb value other) eqn:Hlt; simpl.
    { repeat split; intros; try lia; try discriminate; auto. }
    destruct (Num.isNaN other) eqn:Hnan'; simpl;
      repeat split; intros; try lia; try discriminate; try congruence; auto.
Qed.

Lemma compareMultiple_first {A} (c d : number) (cs ds : list number)
    (i j : nat) (x y : A) :
  Num.isNaN c = false -> Num.isNaN d = false ->
  if 0 <? Lodash.compareMultiple (c :: cs, i, x) (d :: ds, j, y)
  then Num.ltb c d = false
  else Num.ltb d c = false.
Proof.
  intros Hc Hd. unfold Lodash.compareMultiple. simpl.
  destruct (compareAscending_cases c d) as (Hpos & Hzero & Hneg).
  destruct (Lodash.compareAscending c d =? 0) eqn:Hr.
  - apply Z.eqb_eq in Hr. destruct (Hzero Hr Hc Hd) as [H1 H2].
    match goal with |- if ?b then _ else _ => by destruct b end.
  - rewrite Hr. apply Z.eqb_neq in Hr.
    destruct (0 <? Lodash.compareAscending c d) eqn:Hs.
    + by apply Hpos.
    + apply Hneg. apply Z.ltb_ge in Hs. lia.
Qed.

Lemma arraySort_head_least {A} (cmp : A -> A -> Z) (le : A -> A -> Prop)
    (l : list A) (h : A) :
  (forall x, x ∈ l -> le x x) ->
  (forall x y z, x ∈ l -> y ∈ l -> z ∈ l -> le x y -> le y z -> le x z) ->
  (forall x y, x ∈ l -> y ∈ l ->
               if 0 <? cmp x y then le y x else le x y) ->
  head (arraySort cmp l) = Some h ->
  h ∈ l /\ forall x, x ∈ l -> le h x.
Proof.
  revert h. induction l as [|x l IH]; intros h Hrefl Htrans Hcmp Hhead;
    simpl in Hhead; [discriminate|].
  assert (Hperm := arraySort_Permutation cmp l).
  destruct (arraySort cmp l) as [|y sorted] eqn:Hsorted.
  - apply Permutation_nil_l in Hperm as <-.
    simpl in Hhead. inversion Hhead; subst. split; [left|].
    intros z ->%list_elem_of_singleton. apply Hrefl. left.
  - destruct (IH y) as [Hy Hleast]; auto.
    { intros z Hz. apply Hrefl. by right. }
    { intros a b c Ha Hb Hc. apply Htrans; by right. }
    { intros a b Ha Hb. apply Hcmp; by right. }
    simpl in Hhead. specialize (Hcmp x y (list_elem_of_here _ _)
                                       (list_elem_of_further _ _ _ Hy)).
    destruct (0 <? cmp x y); inversion Hhead; subst; clear Hhead.
    + split; [by right|]. intros z [->|Hz]%elem_of_cons; auto.
    + split; [left|]. intros z [->|Hz]%elem_of_cons.
      * apply Hrefl. left.
      * apply (Htrans h y z); [left|by right|by right|done|by apply Hleast].
Qed.

Lemma minFriendsUser_not_NaN (preferences : Preferences) (group : Group)
    (acc : MinFriends) (username : Username) :
  Num.isNaN (minFriends acc) = false ->
  Num.isNaN (minFriends (minFriendsUser preferences group acc username)) = false.
Proof.
  intros Hacc. unfold minFriendsUser.
  destruct (preferences !! username) as [friends|]; [|done].
  destruct (Num.eqb _ (minFriends acc)); simpl;
    match goal with |- context [if ?b then _ else _] => destruct b end; done.
Qed.

Lemma byMinFriends_not_NaN (result : RunResult) :
  Num.isNaN (byMinFriends result) = false.
Proof.
  unfold byMinFriends, getMinFriends.
  generalize (groups result). intros gs.
  assert (Hinit : Num.isNaN (minFriends {| minFriends := PosInf; usernames := [] |})
                  = false) by done.
  revert Hinit. generalize {| minFriends := PosInf; usernames := [] |}.
  induction gs as [|g gs IH]; intros acc Hacc; simpl; [done|].
  apply IH. generalize g at 1. intros g0.
  revert acc Hacc. induction g as [|u g IHg]; intros acc Hacc; simpl; [done|].
  apply IHg. by apply minFriendsUser_not_NaN.
Qed.

(** Whatever the trials returned, the result handed on is one of them and
    no other result has a strictly lower minimum friend count: the
    selection minimises the first key. *)
Lemma bestResult_least_minFriends (results : list RunResult) (best : RunResult) :
  bestResult results = Some best ->
  best ∈ results
  /\ forall r, r ∈ results ->
               Num.ltb (byMinFriends r) (byMinFriends best) = false.
Proof.
  unfold bestResult, Lodash.sortBy, Lodash.sortByCriteria.
  set (entries := imap _ _). intros Hhead.
  assert (Hshape : forall e, e ∈ entries ->
             exists i r, r ∈ results
               /\ e = ([byMinFriends r; byMinFriendsUsers r; byWorstFavorability r],
                       i, r)).
  { intros e He. apply elem_of_lookup_imap in He as (i & x & -> & Hx).
    apply list_lookup_fmap_Some in Hx as (r & -> & Hr). simpl.
    exists i, r. split; [by eapply list_elem_of_lookup_2|done]. }
  destruct (arraySort Lodash.compareMultiple entries) as [|e sorted] eqn:Hsorted;
    [discriminate|].
  simpl in Hhead. inversion Hhead; subst best; clear Hhead.
  destruct (arraySort_head_least Lodash.compareMultiple
              (fun e1 e2 => Num.ltb (byMinFriends e2.2) (byMinFriends e1.2) = false)
              entries e) as [He Hleast].
  - intros x _. apply ltb_irrefl.
  - intros x y z _ _ _ Hxy Hyz. simpl in *.
    eapply not_ltb_trans; [apply byMinFriends_not_NaN|exact Hxy|exact Hyz].
  - intros x y (i & r & _ & ->)%Hshape (j & r' & _ & ->)%Hshape.
    apply compareMultiple_first; apply byMinFriends_not_NaN.
  - by rewrite Hsorted.
  - destruct (Hshape e He) as (i & r & Hr & ->). simpl. split; [done|].
    intros r' Hr'.
    assert (exists j, ([byMinFriends r'; byMinFriendsUsers r'; byWorstFavorability r'],
                       j, r') ∈ entries) as [j Hj].
    { apply list_elem_of_lookup_1 in Hr' as [j Hj]. exists j.
      subst entries.
      apply (elem_of_lookup_imap_2
               (fun index entry => (entry.1, index, entry.2)) _
               ([byMinFriends r'; byMinFriendsUsers r'; byWorstFavorability r'], r')).
      by rewrite list_lookup_fmap, Hj. }
    apply (Hleast _ Hj).
Qed.

(** *** Favorability away from the degenerate group *)

Lemma fold_left_add_shift {A} (g : A -> Z) (l : list A) (a : Z) :
  fold_left (fun sum x => sum + g x) l a
  = a + fold_left (fun sum x => sum + g x) l 0.
Proof.
  revert a. induction l as [|x l IH]; intros a; simpl; [lia|].
  rewrite (IH (a + g x)), (IH (0 + g x)). lia.
Qed.

Lemma getAllMultiplier_cons (u : Username) (l : list Username) :
  getAllMultiplier (u :: l) = getMultiplier u + getAllMultiplier l.
Proof. unfold getAllMultiplier. simpl. apply fold_left_add_shift. Qed.

Lemma getAllMultiplier_nonneg (l : list Username) : 0 <= getAllMultiplier l.
Proof.
  induction l as [|u l IH]; [done|].
  rewrite getAllMultiplier_cons. pose proof (getMultiplier_range u). lia.
Qed.

Lemma friendsRow_shift (friends : list string) (c : Z) (l : Group) (a : Z) :
  fold_left (fun sum other =>
               if includes friends other then sum + c * getMultiplier other
               else sum) l a
  = a + fold_left (fun sum other =>
                     if includes friends other then sum + c * getMultiplier other
                     else sum) l 0.
Proof.
  revert a. induction l as [|x l IH]; intros a; simpl; [lia|].
  destruct (includes friends x); [|apply IH].
  rewrite (IH (a + _)), (IH (0 + _)). lia.
Qed.

Lemma friendsRow_bound (friends : list string) (c : Z) (l : Group) :
  0 <= c ->
  0 <= fold_left (fun sum other =>
                    if includes friends other then sum + c * getMultiplier other
                    else sum) l 0
    <= c * getAllMultiplier l.
Proof.
  intros Hc. induction l as [|x l IH]; simpl; [unfold getAllMultiplier; simpl; lia|].
  rewrite getAllMultiplier_cons. pose proof (getMultiplier_range x).
  destruct (includes friends x).
  - rewrite friendsRow_shift. nia.
  - nia.
Qed.

Lemma friendsRow_bound_self (friends : list string) (c : Z) (l : Group)
    (member : Username) :
  0 <= c -> member ∈ l -> includes friends member = false ->
  fold_left (fun sum other =>
               if includes friends other then sum + c * getMultiplier other
               else sum) l 0
  <= c * (getAllMultiplier l - getMultiplier member).
Proof.
  intros Hc Hin Hself. induction l as [|x l IH]; [inversion Hin|].
  simpl. rewrite getAllMultiplier_cons. pose proof (getMultiplier_range x).
  pose proof (friendsRow_bound friends c l Hc) as Hrow.
  destruct (decide (x = member)) as [->|Hne].
  - rewrite Hself. nia.
  - apply elem_of_cons in Hin as [->|Hin]; [done|]. specialize (IH Hin).
    destruct (includes friends x); [rewrite friendsRow_shift|]; nia.
Qed.

Lemma elem_of_getAllMultiplier (l : Group) (member : Username) :
  member ∈ l -> getMultiplier member <= getAllMultiplier l.
Proof.
  induction l as [|x l IH]; [by inversion 1|].
  rewrite getAllMultiplier_cons. pose proof (getAllMultiplier_nonneg l).
  pose proof (getMultiplier_range x).
  intros [->|Hin]%elem_of_cons; [lia|]. specialize (IH Hin). lia.
Qed.

Lemma friendsSumRow_bound (preferences : Preferences) (group : Group)
    (member : Username) :
  member ∈ group ->
  (forall friends, preferences !! member = Some friends -> member ∉ friends) ->
  0 <= friendsSumRow preferences group member
    <= getMultiplier member * (getAllMultiplier group - 1).
Proof.
  intros Hin Hself. unfold friendsSumRow.
  pose proof (getMultiplier_range member) as Hm.
  pose proof (elem_of_getAllMultiplier group member Hin) as Hw.
  destruct (preferences !! member) as [friends|]; [|nia].
  specialize (Hself friends eq_refl). apply includes_false in Hself.
  pose proof (friendsRow_bound friends (getMultiplier member) group ltac:(lia)).
  pose proof (friendsRow_bound_self friends (getMultiplier member) group member
                ltac:(lia) Hin Hself).
  nia.
Qed.

Lemma currentFriendsSum_bound (preferences : Preferences) (group : Group) :
  (forall member friends,
     member ∈ group -> preferences !! member = Some friends -> member ∉ friends) ->
  0 <= currentFriendsSum preferences group
    <= getAllMultiplier group * (getAllMultiplier group - 1).
Proof.
  intros Hself. unfold currentFriendsSum.
  assert (Hpart : forall l, (forall member, member ∈ l -> member ∈ group) ->
            0 <= fold_left (fun sum member =>
                              sum + friendsSumRow preferences group member) l 0
              <= getAllMultiplier l * (getAllMultiplier group - 1)).
  { induction l as [|x l IH]; intros Hsub; simpl;
      [unfold getAllMultiplier; simpl; lia|].
    rewrite fold_left_add_shift, getAllMultiplier_cons.
    assert (x ∈ group) as Hx by (apply Hsub; left).
    pose proof (friendsSumRow_bound preferences group x Hx
                  (fun friends => Hself x friends Hx)).
    assert (forall member, member ∈ l -> member ∈ group) as Hsub'
      by (intros m Hm; apply Hsub; by right).
    specialize (IH Hsub'). nia. }
  apply Hpart. auto.
Qed.


(** *** The order of the groups in the fallback pass *)

Lemma insertSorted_StronglySorted {A} (cmp : A -> A -> Z) (le : A -> A -> Prop)
    (x : A) (l : list A) :
  (forall a b c, a ∈ x :: l -> b ∈ x :: l -> c ∈ x :: l ->
                 le a b -> le b c -> le a c) ->
  (forall a b, a ∈ x :: l -> b ∈ x :: l ->
               if 0 <? cmp a b then le b a else le a b) ->
  StronglySorted le l ->
  StronglySorted le (insertSorted cmp x l).
Proof.
  induction l as [|y l IH]; intros Htrans Hcmp Hsorted; simpl.
  - repeat constructor.
  - apply StronglySorted_cons in Hsorted as [Hy Hsorted].
    rewrite Forall_forall in Hy.
    pose proof (Hcmp x y ltac:(left) ltac:(right; left)) as Hxy.
    destruct (0 <? cmp x y).
    + apply StronglySorted_cons. split.
      * apply Forall_forall. intros z Hz.
        rewrite insertSorted_Permutation in Hz.
        apply elem_of_cons in Hz as [->|Hz]; auto.
      * apply IH; [| |done].
        -- intros a b c Ha Hb Hc. apply Htrans.
           ++ apply elem_of_cons in Ha as [->|Ha]; [left|by do 2 right].
           ++ apply elem_of_cons in Hb as [->|Hb]; [left|by do 2 right].
           ++ apply elem_of_cons in Hc as [->|Hc]; [left|by do 2 right].
        -- intros a b Ha Hb. apply Hcmp.
           ++ apply elem_of_cons in Ha as [->|Ha]; [left|by do 2 right].
           ++ apply elem_of_cons in Hb as [->|Hb]; [left|by do 2 right].
    + apply StronglySorted_cons. split.
      * apply Forall_forall. intros z [->|Hz]%elem_of_cons; [done|].
        apply (Htrans x y z); [left|right; left|by do 2 right|done|auto].
      * apply StronglySorted_cons. by rewrite Forall_forall.
Qed.

Lemma arraySort_StronglySorted {A} (cmp : A -> A -> Z) (le : A -> A -> Prop)
    (l : list A) :
  (forall a b c, a ∈ l -> b ∈ l -> c ∈ l -> le a b -> le b c -> le a c) ->
  (forall a b, a ∈ l -> b ∈ l -> if 0 <? cmp a b then le b a else le a b) ->
  StronglySorted le (arraySort cmp l).
Proof.
  induction l as [|x l IH]; intros Htrans Hcmp; simpl; [constructor|].
  apply insertSorted_StronglySorted.
  - intros a b c Ha Hb Hc. rewrite arraySort_Permutation in Ha, Hb, Hc.
    by apply Htrans.
  - intros a b Ha Hb. rewrite arraySort_Permutation in Ha, Hb. by apply Hcmp.
  - apply IH.
    + intros a b c Ha Hb Hc. apply Htrans; by right.
    + intros a b Ha Hb. apply Hcmp; by right.
Qed.

Lemma StronglySorted_fmap_2 {A B} (f : A -> B) (R : B -> B -> Prop) (l : list A) :
  StronglySorted (fun a b => R (f a) (f b)) l -> StronglySorted R (f <$> l).
Proof.
  induction 1 as [|x l Hl IH Hx]; simpl; constructor; [done|].
  rewrite Forall_forall in Hx. apply Forall_forall.
  intros y (z & -> & Hz)%list_elem_of_fmap. auto.
Qed.

Lemma mapResult_Ok {A B} (f : A -> result B) (g : A -> B) (l : list A) :
  (forall x, f x = Ok (g x)) -> mapResult f l = Ok (g <$> l).
Proof.
  intros Hf. induction l as [|x l IH]; simpl; [done|].
  by rewrite Hf, IH.
Qed.

Lemma imap_imap {A B C} (f : nat -> B -> C) (h : nat -> A -> B) (l : list A) :
  imap f (imap h l) = imap (fun i x => f i (h i x)) l.
Proof.
  revert f h. induction l as [|x l IH]; intros f h; [done|].
  rewrite !imap_cons. f_equal. apply IH.
Qed.


(** * Further properties of the code *)

(** ** Multipliers and weights *)

Lemma append_cons (a : ascii) (s1 s2 : string) :
  (String a s1 +:+ s2 = String a (s1 +:+ s2))%string.
Proof. reflexivity. Qed.

Lemma append_assoc (s1 s2 s3 : string) :
  ((s1 +:+ s2) +:+ s3 = s1 +:+ (s2 +:+ s3))%string.
Proof.
  induction s1 as [|a s1 IH]; [reflexivity|].
  rewrite !append_cons. by f_equal.
Qed.

Lemma append_nil_r (s : string) : (s +:+ "" = s)%string.
Proof.
  induction s as [|a s IH]; [reflexivity|]. rewrite append_cons. by f_equal.
Qed.

Lemma rev_app_append (s1 s2 : string) :
  String.rev_app s1 s2 = (String.rev s1 +:+ s2)%string.
Proof.
  unfold String.rev. revert s2.
  induction s1 as [|a s1 IH]; intros s2; [reflexivity|]. simpl.
  rewrite (IH (String a s2)), (IH (String a "")).
  by rewrite append_assoc.
Qed.

Lemma rev_append (s1 s2 : string) :
  String.rev (s1 +:+ s2) = (String.rev s2 +:+ String.rev s1)%string.
Proof.
  induction s1 as [|a s1 IH].
  - by rewrite append_nil_r.
  - rewrite append_cons. unfold String.rev at 1 3. simpl.
    rewrite !rev_app_append, IH. by rewrite append_assoc.
Qed.

Lemma prefix_append (p t : string) : String.prefix p (p +:+ t) = true.
Proof.
  induction p as [|a p IH]; [by destruct t|]. rewrite append_cons. simpl.
  destruct (ascii_dec a a); [exact IH|done].
Qed.

Lemma endsWith_append (s suffix : string) :
  endsWith (s +:+ suffix) suffix = true.
Proof. unfold endsWith. rewrite rev_append. apply prefix_append. Qed.

(** The multiplier is read off the end of the username alone: whatever
    stands in front, a username ending in [--x2] .. [--x5] counts for two
    to five people, and every username counts for one to five. *)
Theorem getMultiplier_suffix (name : string) :
  getMultiplier (name +:+ "--x2") = 2
  /\ getMultiplier (name +:+ "--x3") = 3
  /\ getMultiplier (name +:+ "--x4") = 4
  /\ getMultiplier (name +:+ "--x5") = 5
  /\ 1 <= getMultiplier name <= 5.
Proof.
  unfold getMultiplier at 1 2 3 4, endsWith. rewrite !rev_append.
  repeat split; rewrite ?prefix_append; try reflexivity;
    apply getMultiplier_range.
Qed.

Lemma getAllMultiplier_app (l1 l2 : list Username) :
  getAllMultiplier (l1 ++ l2) = getAllMultiplier l1 + getAllMultiplier l2.
Proof.
  induction l1 as [|u l1 IH]; [reflexivity|].
  rewrite <- app_comm_cons, !getAllMultiplier_cons, IH. lia.
Qed.

Lemma getAllMultiplier_Permutation (l1 l2 : list Username) :
  l1 ≡ₚ l2 -> getAllMultiplier l1 = getAllMultiplier l2.
Proof.
  induction 1 as [|x l l' _ IH|x y l|l l' l'' _ IH1 _ IH2];
    rewrite ?getAllMultiplier_cons; lia.
Qed.

(** The weight of a list of usernames adds up over concatenation, does
    not depend on the order, and lies between the head count and five
    times the head count. *)
Theorem getAllMultiplier_weight (l1 l2 : list Username) :
  getAllMultiplier (l1 ++ l2) = getAllMultiplier l1 + getAllMultiplier l2
  /\ (l1 ≡ₚ l2 -> getAllMultiplier l1 = getAllMultiplier l2)
  /\ Z.of_nat (length l1) <= getAllMultiplier l1 <= 5 * Z.of_nat (length l1).
Proof.
  split; [apply getAllMultiplier_app|]. split; [apply getAllMultiplier_Permutation|].
  induction l1 as [|u l1 IH]; [done|].
  rewrite getAllMultiplier_cons. pose proof (getMultiplier_range u).
  cbn [length]. lia.
Qed.

(** ** Exclusions *)

Lemma canTry_true (antiPreferences : list string) (group : Group)
    (username : Username) :
  canTryJoiningGroup antiPreferences group username = true <->
  forall member, member ∈ group ->
                 (join2 member username ∉ antiPreferences)
                 /\ (join2 username member ∉ antiPreferences).
Proof.
  induction group as [|m group IH]; simpl.
  - split; [|done]. intros _ member Hm. inversion Hm.
  - destruct (includes antiPreferences (join2 m username)) eqn:H1.
    { split; [done|]. intros H. apply includes_true in H1.
      destruct (H m) as [Hno _]; [left|]. done. }
    destruct (includes antiPreferences (join2 username m)) eqn:H2.
    { split; [done|]. intros H. apply includes_true in H2.
      destruct (H m) as [_ Hno]; [left|]. done. }
    apply includes_false in H1, H2. rewrite IH. split.
    + intros H member [->|Hm]%elem_of_cons; auto.
    + intros H member Hm. apply H. by right.
Qed.

(** A user may try a group exactly when no member of the group forms an
    excluded pair with the user, in either order of the two names; so the
    answer does not depend on the order of the members, and a user who may
    try a group may try every part of it. *)
Theorem canTryJoiningGroup_spec (antiPreferences : list string) (group : Group)
    (username : Username) :
  (canTryJoiningGroup antiPreferences group username = true <->
   forall member, member ∈ group ->
                  (join2 member username ∉ antiPreferences)
                  /\ (join2 username member ∉ antiPreferences))
  /\ (forall group', group' ≡ₚ group ->
        canTryJoiningGroup antiPreferences group' username
        = canTryJoiningGroup antiPreferences group username)
  /\ (forall group', group' `sublist_of` group ->
        canTryJoiningGroup antiPreferences group username = true ->
        canTryJoiningGroup antiPreferences group' username = true).
Proof.
  split; [apply canTry_true|]. split.
  - intros group' Hperm.
    destruct (canTryJoiningGroup antiPreferences group username) eqn:Hcan.
    + apply canTry_true. intros m Hm. rewrite Hperm in Hm.
      by apply (proj1 (canTry_true _ _ _) Hcan).
    + apply not_true_is_false. intros Hcan'.
      assert (canTryJoiningGroup antiPreferences group username = true);
        [|congruence].
      apply canTry_true. intros m Hm. rewrite <- Hperm in Hm.
      by apply (proj1 (canTry_true _ _ _) Hcan').
  - intros group' Hsub Hcan. apply canTry_true. intros m Hm.
    apply (proj1 (canTry_true _ _ _) Hcan). by eapply sublist_subseteq.
Qed.

(** One entry ["a__b"] in the exclusion list keeps the two apart in both
    directions: "b" may not try a group with "a" in it, nor "a" a group
    with "b" in it. *)
Theorem exclusion_blocks_both_ways (antiPreferences : list string)
    (a b : Username) (group : Group) :
  join2 a b ∈ antiPreferences ->
  (a ∈ group -> canTryJoiningGroup antiPreferences group b = false)
  /\ (b ∈ group -> canTryJoiningGroup antiPreferences group a = false).
Proof.
  intros Hpair. split; intros Hin; apply not_true_is_false;
    intros Hcan; rewrite canTry_true in Hcan;
    destruct (Hcan _ Hin) as [H1 H2]; contradiction.
Qed.

(** The pair ["a__b"] against the groups of "a" and of "b". *)
Lemma exclusion_blocks_both_ways_witness :
  canTryJoiningGroup ["a__b"] ["c"; "a"] "b" = false
  /\ canTryJoiningGroup ["a__b"] ["b"; "d"] "a" = false.
Proof.
  assert (Hpair : join2 "a" "b" ∈ ["a__b"]) by (vm_compute; left).
  split.
  - apply (proj1 (exclusion_blocks_both_ways ["a__b"] "a" "b" ["c"; "a"] Hpair)).
    right. left.
  - apply (proj2 (exclusion_blocks_both_ways ["a__b"] "a" "b" ["b"; "d"] Hpair)).
    left.
Defined.

(** ** Capacity *)

Lemma hasMaximumLoop_known (users : UserDetails) (isMale_ : bool)
    (group : Group) (acc : Z * Z) :
  (forall m, m ∈ group -> is_Some (users !! m)) ->
  hasMaximumLoop users isMale_ group acc
  = Ok (acc.1 + getAllMultiplier (filter (fun m => sameGender users isMale_ m) group),
        acc.2 + getAllMultiplier group).
Proof.
  revert acc. induction group as [|m group IH]; intros [same amount] Hall; simpl.
  - unfold getAllMultiplier. simpl. f_equal. f_equal; lia.
  - destruct (Hall m) as [detail Hm]; [left|]. rewrite Hm. simpl.
    rewrite IH by (intros m' Hm'; apply Hall; by right).
    assert (Hs : sameGender users isMale_ m = Bool.eqb (isMale detail) isMale_)
      by (unfold sameGender; by rewrite Hm).
    rewrite filter_cons, (getAllMultiplier_cons m group).
    destruct (Bool.eqb (isMale detail) isMale_); simpl.
    + rewrite decide_True by (by apply Is_true_true).
      rewrite getAllMultiplier_cons. f_equal. f_equal; lia.
    + rewrite decide_False by (by apply Is_true_false). f_equal. f_equal; lia.
Qed.

Lemma hasMaximumLoop_unknown (users : UserDetails) (isMale_ : bool)
    (group : Group) (acc : Z * Z) (member : Username) :
  member ∈ group -> users !! member = None ->
  hasMaximumLoop users isMale_ group acc = TypeError.
Proof.
  revert acc. induction group as [|m group IH]; intros acc Hin Hnone;
    [inversion Hin|]. simpl.
  destruct (users !! m) as [detail|] eqn:Hm; [|reflexivity]. simpl.
  apply IH; [|done]. apply elem_of_cons in Hin as [->|Hin]; [congruence|done].
Qed.

(** When every member of the group is in the user map, [hasMaximum]
    compares weights, not head counts: in one-gender mode the weight of
    the group against the total cap, otherwise also the weight of the
    members of the given gender against the same-gender cap.  The group
    is measured as it stands, so a group exactly at its cap is not yet at
    the maximum. *)
Theorem hasMaximum_weights (group : Group) (isMale_ : bool)
    (maxAmount maxAmountSame : number) (oneGender : bool) (users : UserDetails) :
  (forall m, m ∈ group -> is_Some (users !! m)) ->
  hasMaximum group isMale_ maxAmount maxAmountSame oneGender users
  = Ok (if oneGender
        then Num.gtb (Num.ofZ (getAllMultiplier group)) maxAmount
        else Num.gtb (Num.ofZ (getAllMultiplier
                                 (filter (fun m => sameGender users isMale_ m) group)))
                     maxAmountSame
             || Num.gtb (Num.ofZ (getAllMultiplier group)) maxAmount).
Proof.
  intros Hall. unfold hasMaximum.
  rewrite (hasMaximumLoop_known users isMale_ group (0, 0) Hall). simpl.
  by destruct oneGender.
Qed.


(** ** Acceptability scores *)

Lemma getGUScoreLoop_known (preferences : Preferences) (group : Group)
    (member : Username) (score : Z) :
  (forall m, m ∈ group -> is_Some (preferences !! m)) ->
  getGUScoreLoop preferences group member score
  = Ok (score + getMultiplier member
                * getAllMultiplier (filter (fun gm => likedBy preferences member gm)
                                           group)).
Proof.
  revert score. induction group as [|gm group IH]; intros score Hall; simpl.
  - unfold getAllMultiplier. simpl. f_equal. lia.
  - destruct (Hall gm) as [friends Hgm]; [left|]. rewrite Hgm. simpl.
    rewrite IH by (intros m' Hm'; apply Hall; by right).
    assert (Hs : likedBy preferences member gm = includes friends member)
      by (unfold likedBy; by rewrite Hgm).
    rewrite filter_cons.
    destruct (includes friends member); simpl.
    + rewrite decide_True by (by apply Is_true_true).
      rewrite getAllMultiplier_cons. f_equal. lia.
    + by rewrite decide_False by (by apply Is_true_false).
Qed.

Lemma getGUScoreLoop_unknown (preferences : Preferences) (group : Group)
    (member : Username) (score : Z) (groupMember : Username) :
  groupMember ∈ group -> preferences !! groupMember = None ->
  getGUScoreLoop preferences group member score = TypeError.
Proof.
  revert score. induction group as [|gm group IH]; intros score Hin Hnone;
    [inversion Hin|]. simpl.
  destruct (preferences !! gm) as [friends|] eqn:Hgm; [|reflexivity]. simpl.
  apply IH; [|done]. apply elem_of_cons in Hin as [->|Hin]; [congruence|done].
Qed.

(** When every member of the group has a preference entry, the
    acceptability score of a user is the user's own multiplier times the
    weight of the members who list the user; it lies between zero and the
    user's multiplier times the weight of the group. *)
Theorem getGUScore_weights (preferences : Preferences) (group : Group)
    (member : Username) :
  (forall m, m ∈ group -> is_Some (preferences !! m)) ->
  exists score,
    getGUScore preferences group member = Ok score
    /\ score = getMultiplier member
               * getAllMultiplier (filter (fun gm => likedBy preferences member gm)
                                          group)
    /\ 0 <= score <= getMultiplier member * getAllMultiplier group.
Proof.
  intros Hall. unfold getGUScore. rewrite getGUScoreLoop_known by done.
  eexists. split; [reflexivity|]. split; [lia|].
  pose proof (getMultiplier_range member).
  set (liked := filter _ group).
  assert (Hsub : liked `sublist_of` group) by apply sublist_filter.
  pose proof (getAllMultiplier_nonneg liked).
  assert (getAllMultiplier liked <= getAllMultiplier group); [|nia].
  clear -Hsub. induction Hsub as [|x l1 l2 _ IH|x l1 l2 _ IH];
    rewrite ?getAllMultiplier_cons; [lia|lia|].
  pose proof (getMultiplier_range x). lia.
Qed.

(** [getGUScore] raises a TypeError when some member of the group has no
    preference entry, even if that member is the scored user itself. *)
Theorem getGUScore_unknown_member (preferences : Preferences) (group : Group)
    (member groupMember : Username) :
  groupMember ∈ group -> preferences !! groupMember = None ->
  getGUScore preferences group member = TypeError.
Proof. intros Hin Hnone. by eapply getGUScoreLoop_unknown. Qed.

Ltac known_members :=
  let m := fresh "m" in
  let Hm := fresh "Hm" in
  intros m Hm;
  repeat (apply elem_of_cons in Hm as [->|Hm]; [vm_compute; eauto|]);
  inversion Hm.

(** Two joint entries of weight five and four against caps ten and five. *)
Lemma hasMaximum_weights_witness :
  exists atMaximum,
    hasMaximum ["f--x5"; "g--x4"] false (Num.ofZ 10) (Num.ofZ 5) false
               (in_users jointInputs) = Ok atMaximum.
Proof.
  eexists.
  apply (hasMaximum_weights ["f--x5"; "g--x4"] false (Num.ofZ 10) (Num.ofZ 5)
                            false (in_users jointInputs)).
  known_members.
Defined.


(** "b" in the group of "a", "b" and "c", where only "c" lists "b". *)
Lemma getGUScore_weights_witness :
  exists score,
    getGUScore (in_preferences tieInputs) ["a"; "b"; "c"] "b" = Ok score
    /\ score = getMultiplier "b"
               * getAllMultiplier
                   (filter (fun gm => likedBy (in_preferences tieInputs) "b" gm)
                           ["a"; "b"; "c"])
    /\ 0 <= score <= getMultiplier "b" * getAllMultiplier ["a"; "b"; "c"].
Proof.
  apply (getGUScore_weights (in_preferences tieInputs) ["a"; "b"; "c"] "b").
  known_members.
Defined.

(** "d" has no preference entry in [tieInputs]. *)
Lemma getGUScore_unknown_member_witness :
  getGUScore (in_preferences tieInputs) ["a"; "d"] "a" = TypeError.
Proof.
  apply (getGUScore_unknown_member (in_preferences tieInputs) ["a"; "d"] "a" "d").
  - right. left.
  - reflexivity.
Defined.

(** ** Rankings *)

Section SortingWithCoins.
Context {A : Type} (cmp : A -> A -> nat -> Z * nat) (le : A -> A -> Prop).

Lemma insertSortedR_StronglySorted (x : A) (l : list A) (cursor : nat) :
  (forall a b c, a ∈ x :: l -> b ∈ x :: l -> c ∈ x :: l ->
                 le a b -> le b c -> le a c) ->
  (forall a b cur, a ∈ x :: l -> b ∈ x :: l ->
                   if 0 <? (cmp a b cur).1 then le b a else le a b) ->
  StronglySorted le l ->
  StronglySorted le (insertSortedR cmp x l cursor).1.
Proof.
  revert cursor. induction l as [|y l IH]; intros cursor Htrans Hcmp Hsorted; simpl.
  - repeat constructor.
  - apply StronglySorted_cons in Hsorted as [Hy Hsorted].
    rewrite Forall_forall in Hy.
    pose proof (Hcmp x y cursor ltac:(left) ltac:(right; left)) as Hxy.
    destruct (cmp x y cursor) as [c cursor']. simpl in Hxy.
    destruct (0 <? c).
    + pose proof (insertSortedR_Permutation cmp x l cursor') as Hperm.
      assert (Hrec : StronglySorted le (insertSortedR cmp x l cursor').1).
      { apply IH; [| |done].
        - intros a b d Ha Hb Hd. apply Htrans.
          + apply elem_of_cons in Ha as [->|Ha]; [left|by do 2 right].
          + apply elem_of_cons in Hb as [->|Hb]; [left|by do 2 right].
          + apply elem_of_cons in Hd as [->|Hd]; [left|by do 2 right].
        - intros a b cur Ha Hb. apply Hcmp.
          + apply elem_of_cons in Ha as [->|Ha]; [left|by do 2 right].
          + apply elem_of_cons in Hb as [->|Hb]; [left|by do 2 right]. }
      destruct (insertSortedR cmp x l cursor') as [l'' cursor'']. simpl in *.
      apply StronglySorted_cons. split; [|done].
      apply Forall_forall. intros z Hz. rewrite Hperm in Hz.
      apply elem_of_cons in Hz as [->|Hz]; auto.
    + simpl. apply StronglySorted_cons. split.
      * apply Forall_forall. intros z [->|Hz]%elem_of_cons; [done|].
        apply (Htrans x y z); [left|right; left|by do 2 right|done|auto].
      * apply StronglySorted_cons. by rewrite Forall_forall.
Qed.

Lemma arraySortR_StronglySorted (l : list A) (cursor : nat) :
  (forall a b c, a ∈ l -> b ∈ l -> c ∈ l -> le a b -> le b c -> le a c) ->
  (forall a b cur, a ∈ l -> b ∈ l ->
                   if 0 <? (cmp a b cur).1 then le b a else le a b) ->
  StronglySorted le (arraySortR cmp l cursor).1.
Proof.
  revert cursor. induction l as [|x l IH]; intros cursor Htrans Hcmp; simpl;
    [constructor|].
  pose proof (arraySortR_Permutation cmp l cursor) as Hperm.
  assert (Hrec : StronglySorted le (arraySortR cmp l cursor).1).
  { apply IH.
    - intros a b c Ha Hb Hc. apply Htrans; by right.
    - intros a b cur Ha Hb. apply Hcmp; by right. }
  destruct (arraySortR cmp l cursor) as [sorted cursor']. simpl in *.
  apply insertSortedR_StronglySorted; [| |done].
  - intros a b c Ha Hb Hc. rewrite Hperm in Ha, Hb, Hc. by apply Htrans.
  - intros a b cur Ha Hb. rewrite Hperm in Ha, Hb. by apply Hcmp.
Qed.

Hypothesis cursor_forward : forall a b cur, (cur <= (cmp a b cur).2)%nat.

Lemma insertSortedR_cursor (x : A) (l : list A) (cursor : nat) :
  (cursor <= (insertSortedR cmp x l cursor).2)%nat.
Proof.
  revert cursor. induction l as [|y l IH]; intros cursor; simpl; [done|].
  pose proof (cursor_forward x y cursor) as Hc.
  destruct (cmp x y cursor) as [c cursor']. simpl in Hc.
  destruct (0 <? c); [|done].
  specialize (IH cursor').
  destruct (insertSortedR cmp x l cursor') as [l'' cursor'']. simpl in *. lia.
Qed.

Lemma arraySortR_cursor (l : list A) (cursor : nat) :
  (cursor <= (arraySortR cmp l cursor).2)%nat.
Proof.
  revert cursor. induction l as [|x l IH]; intros cursor; simpl; [done|].
  specialize (IH cursor).
  destruct (arraySortR cmp l cursor) as [sorted cursor']. simpl in IH.
  pose proof (insertSortedR_cursor x sorted cursor'). lia.
Qed.

End SortingWithCoins.

Lemma StronglySorted_weaken {A} (R R' : A -> A -> Prop) (l : list A) :
  (forall a b, a ∈ l -> b ∈ l -> R a b -> R' a b) ->
  StronglySorted R l -> StronglySorted R' l.
Proof.
  intros Himp Hsorted. induction Hsorted as [|x l Hl IH Hx]; constructor.
  - apply IH. intros a b Ha Hb. apply Himp; by right.
  - rewrite Forall_forall in Hx. apply Forall_forall. intros y Hy.
    apply Himp; [left|by right|auto].
Qed.

Lemma getUGScore_known (preferences : Preferences) (group : Group)
    (member : Username) (friends : list string) :
  preferences !! member = Some friends ->
  getUGScore preferences group member = Ok (listedWeight friends group).
Proof.
  intros Hf. unfold getUGScore, getUGScoreArr.
  destruct group as [|m group]; [reflexivity|].
  rewrite fmap_cons, Hf. simpl. f_equal.
  apply (ugStep_fold friends (m :: group) 0).
Qed.

Lemma ugScores_known (preferences : Preferences) (rest : list Group)
    (newMember : Username) (friends : list string) (i : nat) :
  preferences !! newMember = Some friends ->
  ugScores preferences rest newMember i
  = Ok (imap (fun k group => {| ug_groupID := i + k;
                               ug_score := listedWeight friends group |}) rest).
Proof.
  intros Hf. revert i. induction rest as [|group rest IH]; intros i; simpl;
    [done|].
  rewrite (getUGScore_known _ _ _ _ Hf). simpl. rewrite IH. simpl.
  rewrite Nat.add_0_r. do 2 f_equal. apply imap_ext. intros k g _. simpl.
  f_equal. lia.
Qed.

Lemma ugCompare_forward (coin : nat -> bool) (groups : list Group)
    (a b : UGEntry) (cur : nat) :
  (cur <= (ugCompare coin groups a b cur).2)%nat.
Proof.
  unfold ugCompare, sample.
  destruct (ug_score a =? ug_score b); [|simpl; lia].
  match goal with |- context [if ?c then _ else _] => destruct c end; simpl; lia.
Qed.

Lemma ugCompare_by_score (coin : nat -> bool) (groups : list Group)
    (a b : UGEntry) (cur : nat) :
  if 0 <? (ugCompare coin groups a b cur).1
  then ug_score a <= ug_score b
  else ug_score b <= ug_score a.
Proof.
  unfold ugCompare.
  destruct (ug_score a =? ug_score b) eqn:Heq.
  - apply Z.eqb_eq in Heq. rewrite Heq.
    match goal with |- if ?c then _ else _ => destruct c end; lia.
  - apply Z.eqb_neq in Heq. simpl.
    destruct (0 <? ug_score b - ug_score a) eqn:Hs;
      [apply Z.ltb_lt in Hs|apply Z.ltb_ge in Hs]; lia.
Qed.

(** For a user with a preference entry the ranking of the groups never
    fails and, whatever the coin flips, lists every group index exactly
    once in descending order of the user's score against the group; the
    cursor of the coin tape only moves forward. *)
Theorem getUGRanking_ranks (coin : nat -> bool) (preferences : Preferences)
    (groups : list Group) (newMember : Username) (friends : list string)
    (cursor : nat) :
  preferences !! newMember = Some friends ->
  exists ranked cursor',
    getUGRanking coin preferences groups newMember cursor = Ok (ranked, cursor')
    /\ ranked ≡ₚ seq 0 (length groups)
    /\ (cursor <= cursor')%nat
    /\ StronglySorted
         (fun i j => listedWeight friends (groups !!! j)
                     <= listedWeight friends (groups !!! i)) ranked.
Proof.
  intros Hf. unfold getUGRanking.
  rewrite (ugScores_known _ _ _ _ 0 Hf). simpl.
  set (entries := imap _ groups).
  pose proof (arraySortR_Permutation (ugCompare coin groups) entries cursor) as Hperm.
  pose proof (arraySortR_cursor (ugCompare coin groups)
                (ugCompare_forward coin groups) entries cursor) as Hcur.
  assert (Hshape : forall e, e ∈ entries ->
            ug_score e = listedWeight friends (groups !!! ug_groupID e)).
  { intros e (k & g & -> & Hg)%elem_of_lookup_imap. simpl.
    by rewrite (list_lookup_total_correct _ _ _ Hg). }
  pose proof (arraySortR_StronglySorted (ugCompare coin groups)
                (fun a b => ug_score b <= ug_score a) entries cursor) as Hsorted.
  destruct (arraySortR (ugCompare coin groups) entries cursor) as [sorted cursor'].
  simpl in *. exists (ug_groupID <$> sorted), cursor'.
  split; [done|]. split; [|split; [done|]].
  - rewrite Hperm. subst entries. rewrite fmap_imap.
    rewrite <- (list_fmap_id (seq 0 (length groups))), <- (imap_seq_0 groups id).
    reflexivity.
  - apply StronglySorted_fmap_2.
    eapply StronglySorted_weaken; [|apply Hsorted].
    + intros a b Ha Hb Hab. rewrite Hperm in Ha, Hb.
      by rewrite <- (Hshape a Ha), <- (Hshape b Hb).
    + intros a b c _ _ _. lia.
    + intros a b cur _ _. pose proof (ugCompare_by_score coin groups a b cur).
      by destruct (0 <? _).
Qed.

(** The tie of "c"'s friend "b" in the second group against "a" in the
    first. *)
Lemma getUGRanking_ranks_witness :
  exists ranked cursor',
    getUGRanking (fun _ => false) (in_preferences tieInputs) [["a"]; ["b"]] "c" 1
    = Ok (ranked, cursor')
    /\ ranked ≡ₚ seq 0 (length [["a"]; ["b"]])
    /\ (1 <= cursor')%nat
    /\ StronglySorted
         (fun i j => listedWeight ["b"] ([["a"]; ["b"]] !!! j)
                     <= listedWeight ["b"] ([["a"]; ["b"]] !!! i)) ranked.
Proof.
  apply (getUGRanking_ranks (fun _ => false) (in_preferences tieInputs)
                            [["a"]; ["b"]] "c" ["b"] 1).
  reflexivity.
Defined.

Lemma guScores_known (preferences : Preferences) (group rest : Group) (i : nat) :
  (forall m, m ∈ group -> is_Some (preferences !! m)) ->
  guScores preferences group rest i
  = Ok (imap (fun k member => {| gu_username := member;
                                gu_score := acceptability preferences group member;
                                gu_index := i + k |}) rest).
Proof.
  intros Hall. revert i. induction rest as [|member rest IH]; intros i; simpl;
    [done|].
  unfold getGUScore. rewrite (getGUScoreLoop_known _ _ _ _ Hall). simpl.
  rewrite IH. simpl. rewrite Nat.add_0_r. do 2 f_equal.
  apply imap_ext. intros k m _. simpl. f_equal. lia.
Qed.

Lemma guCompare_by_score (a b : GUEntry) :
  if 0 <? guCompare a b
  then gu_score a <= gu_score b
  else gu_score b <= gu_score a.
Proof.
  unfold guCompare. destruct (gu_score a =? gu_score b) eqn:Heq.
  - apply Z.eqb_eq in Heq. rewrite Heq. destruct (0 <? _); lia.
  - destruct (0 <? gu_score b - gu_score a) eqn:Hs;
      [apply Z.ltb_lt in Hs|apply Z.ltb_ge in Hs]; lia.
Qed.

(** When every member has a preference entry, the ranking of a group
    comes out in descending order of acceptability: the members nobody
    lists stand at the tail, where eviction starts. *)
Theorem getGURanking_descending (preferences : Preferences) (group : Group) :
  (forall m, m ∈ group -> is_Some (preferences !! m)) ->
  exists ranked,
    getGURanking preferences group = Ok ranked
    /\ StronglySorted
         (fun a b => acceptability preferences group b
                     <= acceptability preferences group a) ranked.
Proof.
  intros Hall. unfold getGURanking. rewrite (guScores_known _ _ _ 0 Hall). simpl.
  eexists. split; [reflexivity|].
  set (entries := imap _ group).
  assert (Hshape : forall e, e ∈ entries ->
            gu_score e = acceptability preferences group (gu_username e)).
  { by intros e (k & m & -> & Hm)%elem_of_lookup_imap. }
  apply StronglySorted_fmap_2.
  eapply (StronglySorted_weaken (fun a b => gu_score b <= gu_score a)).
  - intros a b Ha Hb Hab. rewrite arraySort_Permutation in Ha, Hb.
    by rewrite <- (Hshape a Ha), <- (Hshape b Hb).
  - apply arraySort_StronglySorted.
    + intros a b c _ _ _. lia.
    + intros a b _ _. pose proof (guCompare_by_score a b).
      by destruct (0 <? _).
Qed.

(** The three boys of [tieInputs] in one group. *)
Lemma getGURanking_descending_witness :
  exists ranked,
    getGURanking (in_preferences tieInputs) ["a"; "b"; "c"] = Ok ranked
    /\ StronglySorted
         (fun a b => acceptability (in_preferences tieInputs) ["a"; "b"; "c"] b
                     <= acceptability (in_preferences tieInputs) ["a"; "b"; "c"] a)
         ranked.
Proof.
  apply (getGURanking_descending (in_preferences tieInputs) ["a"; "b"; "c"]).
  known_members.
Defined.

Lemma insertSorted_last {A} (cmp : A -> A -> Z) (y x : A) (l : list A) :
  (0 <? cmp y x) = false ->
  insertSorted cmp y (l ++ [x]) = insertSorted cmp y l ++ [x].
Proof.
  intros Hyx. induction l as [|z l IH]; simpl; [by rewrite Hyx|].
  destruct (0 <? cmp y z); [|done]. by rewrite IH.
Qed.

Lemma arraySort_last {A} (cmp : A -> A -> Z) (x : A) (l : list A) :
  (forall y, y ∈ l -> (0 <? cmp y x) = false) ->
  arraySort cmp (l ++ [x]) = arraySort cmp l ++ [x].
Proof.
  induction l as [|y l IH]; intros Hall; simpl; [done|].
  rewrite IH by (intros z Hz; apply Hall; by right).
  apply insertSorted_last, Hall. left.
Qed.

(** A newcomer who is no more acceptable to the enlarged group than any
    of its members is ranked last, behind everybody it ties with: it is
    the first the eviction loop looks at. *)
Theorem getGURanking_newcomer_last (preferences : Preferences) (group : Group)
    (username : Username) :
  (forall m, m ∈ groupWithNew group username -> is_Some (preferences !! m)) ->
  (forall m, m ∈ group ->
             acceptability preferences (groupWithNew group username) username
             <= acceptability preferences (groupWithNew group username) m) ->
  exists front,
    getGURanking preferences (groupWithNew group username) = Ok (front ++ [username])
    /\ front ≡ₚ group.
Proof.
  intros Hall Hlow. unfold getGURanking.
  rewrite (guScores_known _ _ _ 0 Hall). simpl. unfold groupWithNew at 2.
  rewrite imap_app. simpl. rewrite arraySort_last.
  - rewrite fmap_app. simpl. eexists. split; [reflexivity|].
    rewrite arraySort_Permutation, fmap_imap.
    rewrite (imap_ext _ (fun _ m => m)) by done.
    clear. induction group as [|m group IH]; [done|].
    rewrite imap_cons. by rewrite IH at 1.
  - intros e (k & m & -> & Hm)%elem_of_lookup_imap.
    apply lookup_lt_Some in Hm as Hk.
    apply list_elem_of_lookup_2 in Hm. specialize (Hlow m Hm).
    unfold guCompare. simpl. apply Z.ltb_ge.
    match goal with |- context [if ?c then _ else _] => destruct c end; lia.
Qed.

(** "a" joins the group of "b" and "c"; nobody lists "a". *)
Lemma getGURanking_newcomer_last_witness :
  exists front,
    getGURanking (in_preferences tieInputs) (groupWithNew ["c"; "b"] "a")
    = Ok (front ++ ["a"])
    /\ front ≡ₚ ["c"; "b"].
Proof.
  apply (getGURanking_newcomer_last (in_preferences tieInputs) ["c"; "b"] "a").
  - unfold groupWithNew. simpl. known_members.
  - intros m Hm.
    repeat (apply elem_of_cons in Hm as [->|Hm]; [vm_compute; discriminate|]).
    inversion Hm.
Defined.

(** ** The minimum friend count *)

Lemma ltb_ofZ (a b : Z) : Num.ltb (Num.ofZ a) (Num.ofZ b) = (a <? b).
Proof.
  unfold Num.ltb, Num.ofZ. destruct (Qlt_le_dec (inject_Z a) (inject_Z b)) as [H|H].
  - rewrite <- Zlt_Qlt in H. symmetry. by apply Z.ltb_lt.
  - rewrite <- Zle_Qle in H. symmetry. apply Z.ltb_ge. lia.
Qed.

Lemma eqb_ofZ (a b : Z) : Num.eqb (Num.ofZ a) (Num.ofZ b) = (a =? b).
Proof.
  unfold Num.eqb, Num.ofZ. destruct (a =? b) eqn:Hab.
  - apply Z.eqb_eq in Hab as ->. apply Qeq_bool_iff. reflexivity.
  - apply not_true_is_false. intros H%Qeq_bool_iff.
    apply Z.eqb_neq in Hab. apply Hab. unfold Qeq in H. simpl in H. lia.
Qed.

Lemma ofZ_inj (a b : Z) : Num.ofZ a = Num.ofZ b -> a = b.
Proof. unfold Num.ofZ, inject_Z. by intros [=]. Qed.

Ltac five_parts := split; [|split; [|split; [|split]]].

Lemma minFriendsUser_step (preferences : Preferences)
    (seen : list (Group * Username)) (acc : MinFriends)
    (group : Group) (username : Username) :
  minimumOver preferences seen acc ->
  minimumOver preferences (seen ++ [(group, username)])
              (minFriendsUser preferences group acc username).
Proof.
  intros (Hshape & Hlow & Hhit & Hinf & Hne). unfold minFriendsUser.
  destruct (preferences !! username) as [friends|] eqn:Hf.
  2: { five_parts; [done| | | |done].
       - intros g u f [Hs|Hs%list_elem_of_singleton]%elem_of_app Hu; [eauto|].
         inversion Hs; subst. congruence.
       - intros u Hu. destruct (Hhit u Hu) as (g & f & Hs & Hrest).
         exists g, f. split; [apply elem_of_app; by left|done].
       - intros Hm g u [Hs|Hs%list_elem_of_singleton]%elem_of_app; [eauto|].
         by inversion Hs; subst. }
  cbv zeta. set (k := currentFriendsCount friends group).
  assert (Hfresh : forall m,
            (forall g u f, (g, u) ∈ seen -> preferences !! u = Some f ->
                           Num.ltb (Num.ofZ (currentFriendsCount f g)) m = false) ->
            Num.ltb (Num.ofZ k) m = false \/ m = Num.ofZ k ->
            forall g u f, (g, u) ∈ seen ++ [(group, username)] ->
                          preferences !! u = Some f ->
                          Num.ltb (Num.ofZ (currentFriendsCount f g)) m = false).
  { intros m Hold Hk g u f [Hs|Hs%list_elem_of_singleton]%elem_of_app Hu; [eauto|].
    inversion Hs; subst g u. rewrite Hf in Hu. inversion Hu; subst f. fold k.
    destruct Hk as [Hk| ->]; [done|apply ltb_irrefl]. }
  assert (Hself : (group, username) ∈ seen ++ [(group, username)])
    by (apply elem_of_app; right; left).
  destruct Hshape as [Hm|[z Hm]].
  - assert (E1 : Num.eqb (Num.ofZ k) PosInf = false) by reflexivity.
    assert (E2 : Num.ltb (Num.ofZ k) PosInf = true) by reflexivity.
    rewrite Hm, E1. cbn [minFriends]. rewrite Hm, E2. five_parts; cbn [minFriends usernames].
    + right. eauto.
    + apply Hfresh; [|by right]. intros g u f Hs Hu.
      rewrite (Hinf Hm g u Hs) in Hu. discriminate.
    + intros u ->%list_elem_of_singleton. by exists group, friends.
    + discriminate.
    + done.
  - rewrite Hm, eqb_ofZ. destruct (k =? z) eqn:Hkz; cbn [minFriends usernames].
    + apply Z.eqb_eq in Hkz. rewrite ltb_ofZ, (proj2 (Z.ltb_ge k z)) by lia.
      five_parts; cbn [minFriends usernames].
      * right. eauto.
      * apply Hfresh; [|right; by rewrite Hkz].
        intros g u f Hs Hu. rewrite <- Hm. eauto.
      * intros u [Hu| ->%list_elem_of_singleton]%elem_of_app.
        -- destruct (Hhit u Hu) as (g & f & Hs & Hp & Hv).
           exists g, f. split; [apply elem_of_app; by left|].
           split; [done|]. by rewrite <- Hm.
        -- exists group, friends. split; [done|]. split; [done|].
           fold k. by rewrite Hkz.
      * discriminate.
      * intros _. by destruct (usernames acc).
    + apply Z.eqb_neq in Hkz. rewrite Hm, ltb_ofZ.
      destruct (k <? z) eqn:Hlt; [apply Z.ltb_lt in Hlt|apply Z.ltb_ge in Hlt];
        five_parts; cbn [minFriends usernames].
      * right. eauto.
      * apply Hfresh; [|by right]. intros g u f Hs Hu.
        specialize (Hlow g u f Hs Hu). rewrite Hm, ltb_ofZ in Hlow.
        apply Z.ltb_ge in Hlow. rewrite ltb_ofZ. apply Z.ltb_ge. lia.
      * intros u ->%list_elem_of_singleton. by exists group, friends.
      * discriminate.
      * done.
      * right. eauto.
      * rewrite Hm. apply Hfresh.
        -- intros g u f Hs Hu. rewrite <- Hm. eauto.
        -- left. rewrite ltb_ofZ. apply Z.ltb_ge. lia.
      * intros u Hu. destruct (Hhit u Hu) as (g & f & Hs & Hp & Hv).
        exists g, f. split; [apply elem_of_app; by left|done].
      * rewrite Hm. discriminate.
      * done.
Qed.

Lemma minFriends_group (preferences : Preferences)
    (seen : list (Group * Username)) (acc : MinFriends)
    (group : Group) (members : list Username) :
  minimumOver preferences seen acc ->
  minimumOver preferences
    (seen ++ ((fun username : Username => (group, username)) <$> members))
    (fold_left (minFriendsUser preferences group) members acc).
Proof.
  revert seen acc. induction members as [|u members IH]; intros seen acc Hacc; simpl.
  - by rewrite app_nil_r.
  - rewrite (cons_middle _ seen), (assoc_L (++)). apply IH.
    by apply minFriendsUser_step.
Qed.

Lemma minFriends_groups (preferences : Preferences)
    (seen : list (Group * Username)) (acc : MinFriends) (groups : list Group) :
  minimumOver preferences seen acc ->
  minimumOver preferences (seen ++ visits groups)
    (fold_left (fun acc group => fold_left (minFriendsUser preferences group) group acc)
               groups acc).
Proof.
  revert seen acc. induction groups as [|g groups IH]; intros seen acc Hacc; simpl.
  - unfold visits. simpl. by rewrite app_nil_r.
  - unfold visits. rewrite fmap_cons. simpl. rewrite (assoc_L (++)).
    apply IH. by apply minFriends_group.
Qed.

Lemma elem_of_visits (groups : list Group) (group : Group) (username : Username) :
  (group, username) ∈ visits groups <-> group ∈ groups /\ username ∈ group.
Proof.
  unfold visits. rewrite list_elem_of_In, in_concat. split.
  - intros (l & Hl & Hin). apply list_elem_of_In in Hl, Hin.
    apply list_elem_of_fmap in Hl as (g & -> & Hg).
    apply list_elem_of_fmap in Hin as (u & [= -> ->] & Hu). done.
  - intros [Hg Hu].
    exists ((fun username : Username => (group, username)) <$> group).
    split; apply list_elem_of_In.
    + apply list_elem_of_fmap. by exists group.
    + apply list_elem_of_fmap. by exists username.
Qed.


(** ** Witnesses for properties proved above *)


(** The two canned results: the one with the lower minimum is handed on. *)
Lemma bestResult_least_minFriends_witness :
  resultTwo ∈ [resultThree; resultTwo]
  /\ forall r, r ∈ [resultThree; resultTwo] ->
                Num.ltb (byMinFriends r) (byMinFriends resultTwo) = false.
Proof.
  apply (bestResult_least_minFriends [resultThree; resultTwo] resultTwo).
  vm_compute. reflexivity.
Defined.


(** Step [j = 1] of the fallback pass of [crowdInputs], a schedule of one
    group. *)
Lemma fallback_second_pass_uncapped_witness :
  (length (in_sizes crowdInputs) <= 1)%nat
  /\ exists atMaximum,
       hasMaximum ["a"; "b"] true
                  (effectiveGroupSize (in_sizes crowdInputs)
                                      (length (in_sizes crowdInputs)) 1)
                  (effectiveGenderSize (in_sizes crowdInputs)
                                       (length (in_sizes crowdInputs)) 1)
                  false (in_users crowdInputs) = Ok atMaximum
       /\ atMaximum = false.
Proof.
  assert (Hlen : (length (in_sizes crowdInputs) <= 1)%nat) by (vm_compute; lia).
  split; [exact Hlen|].
  destruct (hasMaximum ["a"; "b"] true
              (effectiveGroupSize (in_sizes crowdInputs)
                                  (length (in_sizes crowdInputs)) 1)
              (effectiveGenderSize (in_sizes crowdInputs)
                                   (length (in_sizes crowdInputs)) 1)
              false (in_users crowdInputs)) as [atMaximum|] eqn:Hmax;
    [|vm_compute in Hmax; discriminate Hmax].
  exists atMaximum. split; [reflexivity|].
  exact (fallback_second_pass_uncapped (in_sizes crowdInputs) 1 ["a"; "b"]
           true false (in_users crowdInputs) atMaximum Hlen Hmax).
Defined.

(** The token ["abc"]. *)
Lemma parseInt_no_number_witness : ParseInt.parseInt "abc" = NaN.
Proof.
  apply (parseInt_no_number "a" "bc"); try reflexivity; try discriminate.
  intros d Hd. vm_compute in Hd. inversion Hd. lia.
Defined.

(** ** The schedule string *)

Lemma rev_cons (c : ascii) (s : string) :
  String.rev (String c s) = (String.rev s +:+ String c "")%string.
Proof. unfold String.rev at 1. simpl. apply rev_app_append. Qed.

Lemma splitGo_nonempty (s current : string) : splitGo s current <> [].
Proof.
  revert current. induction s as [|c s IH]; intros current; simpl; [done|].
  destruct (Ascii.eqb c "-"); [done|apply IH].
Qed.

Lemma concat_splitGo (s current : string) :
  String.concat "-" (splitGo s current) = (String.rev current +:+ s)%string.
Proof.
  revert current. induction s as [|c s IH]; intros current; simpl.
  - by rewrite append_nil_r.
  - destruct (Ascii.eqb c "-") eqn:Hc.
    + apply Ascii.eqb_eq in Hc as ->.
      pose proof (splitGo_nonempty s "") as Hne. specialize (IH ""%string).
      destruct (splitGo s "") as [|t ts]; [done|].
      cbn [String.concat]. cbn [String.concat] in IH. rewrite IH.
      reflexivity.
    + rewrite IH, rev_cons, append_assoc. reflexivity.
Qed.

Lemma splitGo_token (token current : string) :
  noHyphen token = true ->
  splitGo token current = [(String.rev current +:+ token)%string].
Proof.
  revert current. induction token as [|c token IH]; intros current Hno; simpl.
  - by rewrite append_nil_r.
  - simpl in Hno. apply andb_true_iff in Hno as [Hc Hno].
    apply negb_true_iff in Hc. rewrite Hc, IH by done.
    by rewrite rev_cons, append_assoc.
Qed.

Lemma splitGo_token_hyphen (token rest current : string) :
  noHyphen token = true ->
  splitGo (token +:+ String "-" rest) current
  = (String.rev current +:+ token)%string :: splitGo rest "".
Proof.
  revert current. induction token as [|c token IH]; intros current Hno.
  - simpl. by rewrite append_nil_r.
  - simpl in Hno. apply andb_true_iff in Hno as [Hc Hno].
    apply negb_true_iff in Hc. rewrite append_cons. simpl.
    rewrite Hc, IH by done. by rewrite rev_cons, append_assoc.
Qed.

Lemma concat_cons2 (t t' : string) (tokens : list string) :
  String.concat "-" (t :: t' :: tokens)
  = (t +:+ String "-" (String.concat "-" (t' :: tokens)))%string.
Proof. reflexivity. Qed.

Lemma split_concat_tokens (tokens : list string) :
  tokens <> [] ->
  (forall token, token ∈ tokens -> noHyphen token = true) ->
  split (String.concat "-" tokens) = tokens.
Proof.
  unfold split. induction tokens as [|t tokens IH]; intros Hne Hall; [done|].
  destruct tokens as [|t' tokens].
  - simpl. rewrite splitGo_token by (apply Hall; left). reflexivity.
  - rewrite concat_cons2.
    rewrite splitGo_token_hyphen by (apply Hall; left).
    rewrite IH; [done|done|]. intros token Htoken. apply Hall. by right.
Qed.

(** Splitting at the hyphens loses nothing: joining the pieces of any
    string with hyphens gives the string back, there is always at least
    one piece, and a non-empty list of hyphen-free tokens joined with
    hyphens splits into exactly those tokens. *)
Theorem split_round_trip (argument : string) (tokens : list string) :
  String.concat "-" (split argument) = argument
  /\ split argument <> []
  /\ (tokens <> [] ->
      (forall token, token ∈ tokens -> noHyphen token = true) ->
      split (String.concat "-" tokens) = tokens).
Proof.
  split; [apply (concat_splitGo argument "")|].
  split; [apply splitGo_nonempty|]. apply split_concat_tokens.
Qed.

(** ** Reading numbers *)

Lemma pretty_N_char_digit (x : N) :
  exists y, (y < 10)%N /\ pretty_N_char x = pretty_N_char y /\ ((x < 10)%N -> y = x).
Proof.
  assert (x < 10 \/ 10 <= x)%N as [Hx|Hx] by lia; [by exists x|].
  exists 9%N. split; [done|]. split; [|lia].
  destruct x as [|p]; [lia|]. unfold pretty_N_char.
  repeat (destruct p as [p|p|]; try lia; try reflexivity).
Qed.

Lemma pretty_N_char_cases (x : N) :
  exists d, 0 <= d <= 9
            /\ ParseInt.digitValue (pretty_N_char x) = Some d
            /\ ((x < 10)%N -> d = Z.of_N x)
            /\ ParseInt.isWhiteSpace (pretty_N_char x) = false
            /\ Ascii.eqb (pretty_N_char x) "-" = false
            /\ Ascii.eqb (pretty_N_char x) "+" = false.
Proof.
  destruct (pretty_N_char_digit x) as (y & Hy & -> & Hxy).
  exists (Z.of_N y). split; [lia|].
  assert (y = 0 \/ y = 1 \/ y = 2 \/ y = 3 \/ y = 4 \/ y = 5 \/ y = 6 \/ y = 7
          \/ y = 8 \/ y = 9)%N as Hcases by lia.
  split; [|split; [intros Hx; by rewrite (Hxy Hx)|]];
    repeat (destruct Hcases as [->|Hcases]); try subst y; done.
Qed.

Lemma pretty_N_go_append (x : N) (s : string) :
  pretty_N_go x s = (pretty_N_go x "" +:+ s)%string.
Proof.
  revert s. induction (N.lt_wf_0 x) as [x _ IH]; intros s.
  assert (x = 0 \/ 0 < x)%N as [->|Hx] by lia; [done|].
  rewrite !(pretty_N_go_step x) by done.
  rewrite (IH (x `div` 10)%N) by (by apply N.div_lt).
  rewrite (IH (x `div` 10)%N ltac:(by apply N.div_lt) (String _ "")).
  by rewrite append_assoc.
Qed.

Lemma digits_pretty_N_go (x : N) (s : string) (a : Z) :
  exists k, 0 <= k
            /\ ParseInt.digits 10 (pretty_N_go x s) (Some a)
               = ParseInt.digits 10 s (Some (a * 10 ^ k + Z.of_N x)).
Proof.
  revert s a. induction (N.lt_wf_0 x) as [x _ IH]; intros s a.
  assert (x = 0 \/ 0 < x)%N as [->|Hx] by lia.
  - exists 0. split; [done|]. rewrite pretty_N_go_0. do 2 f_equal. lia.
  - rewrite pretty_N_go_step by done.
    destruct (IH (x `div` 10)%N ltac:(by apply N.div_lt)
                 (String (pretty_N_char (x `mod` 10)) s) a) as (k & Hk & ->).
    exists (k + 1). split; [lia|]. cbn [ParseInt.digits].
    destruct (pretty_N_char_cases (x `mod` 10)) as (d & Hd & -> & Hval & _).
    rewrite (proj2 (Z.ltb_lt d 10)) by lia. cbn [default]. do 2 f_equal.
    rewrite Hval by (by apply N.mod_lt).
    rewrite Z.pow_add_r, Z.pow_1_r by lia.
    assert (Z.of_N x = 10 * Z.of_N (x `div` 10) + Z.of_N (x `mod` 10)) as ->.
    { rewrite (N.div_mod x 10) at 1 by done.
      by rewrite N2Z.inj_add, N2Z.inj_mul. }
    generalize (10 ^ k). intros pw. unfold id. lia.
Qed.

Lemma pretty_N_go_first (x : N) (s : string) :
  (0 < x)%N ->
  exists y rest, (0 < y < 10)%N
                 /\ pretty_N_go x s = String (pretty_N_char y) rest.
Proof.
  revert s. induction (N.lt_wf_0 x) as [x _ IH]; intros s Hx.
  rewrite pretty_N_go_step by done.
  assert (x < 10 \/ 10 <= x)%N as [Hsmall|Hbig] by lia.
  - rewrite N.div_small, N.mod_small, pretty_N_go_0 by done.
    exists x, s. split; [lia|done].
  - apply IH; [by apply N.div_lt|]. apply N.div_str_pos. lia.
Qed.

Lemma noHyphen_pretty_N_go (x : N) (s : string) :
  noHyphen (pretty_N_go x s) = noHyphen s.
Proof.
  revert s. induction (N.lt_wf_0 x) as [x _ IH]; intros s.
  assert (x = 0 \/ 0 < x)%N as [->|Hx] by lia; [done|].
  rewrite pretty_N_go_step, IH by (done || by apply N.div_lt). simpl.
  destruct (pretty_N_char_cases (x `mod` 10)) as (d & _ & _ & _ & _ & -> & _).
  reflexivity.
Qed.

Lemma noHyphen_pretty (n : N) : noHyphen (pretty n) = true.
Proof.
  unfold pretty, pretty_N. case_decide; [done|]. apply noHyphen_pretty_N_go.
Qed.

(** Integers up to [2^53] in magnitude are doubles. *)
Lemma toDouble_exact (z : Z) : Z.abs z <= 2 ^ 53 -> Num.toDouble z = Num.ofZ z.
Proof.
  intros Hz.
  destruct (decide (Z.abs z = 2 ^ 53)) as [Heq|Hne].
  - assert (z = 2 ^ 53 \/ z = - 2 ^ 53) as [->| ->] by lia;
      vm_compute; reflexivity.
  - unfold Num.toDouble. by rewrite (proj2 (Z.ltb_lt (Z.abs z) (2 ^ 53))) by lia.
Qed.

(** What may follow a number without being read as part of it. *)
Lemma parseInt_decimal_followed (n : N) (s : string) :
  (s = ""%string
   \/ exists c rest, s = String c rest
                     /\ (forall d, ParseInt.digitValue c = Some d -> 10 <= d)
                     /\ (n = 0%N -> c <> "x"%char /\ c <> "X"%char)) ->
  ParseInt.parseInt (pretty n +:+ s) = Num.toDouble (Z.of_N n).
Proof.
  intros Hs.
  assert (Hstop : forall a, ParseInt.digits 10 s (Some a) = Some a).
  { intros a. destruct Hs as [->|(c & rest & -> & Hc & _)]; [done|]. simpl.
    destruct (ParseInt.digitValue c) as [d|]; [|done].
    by rewrite (proj2 (Z.ltb_ge d 10)) by auto. }
  unfold pretty, pretty_N. case_decide as Hn.
  - subst n. destruct Hs as [->|(c & rest & -> & Hc & Hx)]; [reflexivity|].
    destruct (Hx eq_refl) as [Hx1 Hx2]. unfold ParseInt.parseInt.
    assert (Hnone : ParseInt.digits 10 (String "0" (String c rest)) None = Some 0).
    { cbn [ParseInt.digits]. simpl. destruct (ParseInt.digitValue c) as [d|]; [|done].
      by rewrite (proj2 (Z.ltb_ge d 10)) by auto. }
    change ("0" +:+ String c rest)%string with (String "0" (String c rest)).
    cbn [ParseInt.trimStart]. change (ParseInt.isWhiteSpace "0") with false.
    cbv iota.
    destruct c as [b0 b1 b2 b3 b4 b5 b6 b7].
    destruct b0, b1, b2, b3, b4, b5, b6, b7;
      try (exfalso; by (apply Hx1 || apply Hx2));
      by rewrite Hnone.
  - rewrite <- pretty_N_go_append.
    destruct (pretty_N_go_first n s) as (y & rest & Hy & Hfirst); [lia|].
    destruct (digits_pretty_N_go n s 0) as (k & _ & Hdigits).
    rewrite Hstop in Hdigits.
    replace (0 * 10 ^ k + Z.of_N n) with (Z.of_N n) in Hdigits by lia.
    destruct (pretty_N_char_cases y) as (d & Hd & Hdv & _ & Hws & Hminus & Hplus).
    assert (Hnone : ParseInt.digits 10 (pretty_N_go n s) None
                    = Some (Z.of_N n)).
    { rewrite <- Hdigits, Hfirst. cbn [ParseInt.digits]. rewrite Hdv.
      rewrite (proj2 (Z.ltb_lt d 10)) by lia. reflexivity. }
    unfold ParseInt.parseInt. rewrite Hfirst in Hnone |- *.
    cbn [ParseInt.trimStart]. rewrite Hws.
    assert (y = 1 \/ y = 2 \/ y = 3 \/ y = 4 \/ y = 5 \/ y = 6 \/ y = 7
            \/ y = 8 \/ y = 9)%N as Hcases by lia.
    repeat (destruct Hcases as [->|Hcases]); try subst y;
      cbn [pretty_N_char] in *; rewrite Hnone; f_equal; f_equal; lia.
Qed.

(** [parseInt] reads back the decimal writing of every natural number up
    to [2^53] (past it the result is a double, which need not be the
    number written); it reads the same number when the digits are followed
    by anything that does not start with a decimal digit (after a lone
    "0", not by "x" or "X" either), so trailing text is silently dropped;
    and it skips leading white space. *)
Theorem parseInt_reads_decimal (n : N) (c : ascii) (rest : string) :
  (n <= 2 ^ 53)%N ->
  ParseInt.parseInt (pretty n) = Num.ofZ (Z.of_N n)
  /\ ((forall d, ParseInt.digitValue c = Some d -> 10 <= d) ->
      (n = 0%N -> c <> "x"%char /\ c <> "X"%char) ->
      ParseInt.parseInt (pretty n +:+ String c rest) = Num.ofZ (Z.of_N n))
  /\ (ParseInt.isWhiteSpace c = true ->
      ParseInt.parseInt (String c rest) = ParseInt.parseInt rest).
Proof.
  intros Hn.
  assert (Hexact : Num.toDouble (Z.of_N n) = Num.ofZ (Z.of_N n)).
  { apply toDouble_exact. change (2 ^ 53) with (Z.of_N (2 ^ 53)). lia. }
  split; [|split].
  - rewrite <- Hexact, <- (append_nil_r (pretty n)).
    apply parseInt_decimal_followed. by left.
  - intros Hc Hx. rewrite <- Hexact.
    apply parseInt_decimal_followed. right. by exists c, rest.
  - intros Hws. unfold ParseInt.parseInt. cbn [ParseInt.trimStart]. by rewrite Hws.
Qed.

(** The token ["12abc"], read as twelve. *)
Lemma parseInt_reads_decimal_witness :
  ParseInt.parseInt (pretty 12%N) = Num.ofZ (Z.of_N 12)
  /\ ((forall d, ParseInt.digitValue "a" = Some d -> 10 <= d) ->
      (12%N = 0%N -> "a"%char <> "x"%char /\ "a"%char <> "X"%char) ->
      ParseInt.parseInt (pretty 12%N +:+ String "a" "bc") = Num.ofZ (Z.of_N 12))
  /\ (ParseInt.isWhiteSpace "a" = true ->
      ParseInt.parseInt (String "a" "bc") = ParseInt.parseInt "bc").
Proof. apply (parseInt_reads_decimal 12 "a" "bc"). vm_compute. discriminate. Defined.

(** ** The size sequence *)

(** Away from [NaN], the comparator [b - a] of [getGroupSizes] is positive
    exactly when [a < b]; the difference of two equal infinities is [NaN],
    which [sort] takes for zero. *)
Lemma comparator_ltb (a b : number) :
  Num.isNaN a = false -> Num.isNaN b = false ->
  (0 <? comparatorSign (Num.sub b a)) = Num.ltb a b.
Proof.
  destruct a as [x| | |], b as [y| | |]; try discriminate; intros _ _;
    try reflexivity.
  unfold comparatorSign, Num.sub, Num.ofZ, Num.gtb, Num.ltb.
  destruct (Qlt_le_dec x y) as [Hxy|Hxy].
  - destruct (Qlt_le_dec (inject_Z 0) (y - x)) as [|H]; [done|].
    exfalso. apply (Qle_not_lt _ _ H). by apply (Qlt_minus_iff x).
  - destruct (Qlt_le_dec (inject_Z 0) (y - x)) as [H|_].
    + exfalso. apply (Qle_not_lt _ _ Hxy). by apply Qlt_minus_iff.
    + by destruct (Qlt_le_dec _ _).
Qed.

Lemma getGroupSizes_sorted (argument : string) :
  (forall token, token ∈ split argument -> ParseInt.parseInt token <> NaN) ->
  StronglySorted (fun a b => Num.ltb a b = false) (getGroupSizes argument).
Proof.
  intros Hnum. unfold getGroupSizes.
  assert (Hshape : forall a, a ∈ ParseInt.parseInt <$> split argument ->
                             Num.isNaN a = false).
  { intros a (token & -> & Htoken)%list_elem_of_fmap.
    specialize (Hnum token Htoken). by destruct (ParseInt.parseInt token). }
  apply arraySort_StronglySorted.
  - intros a b c _ Hb%Hshape _ Hab Hbc.
    eapply not_ltb_trans; [exact Hb|exact Hbc|exact Hab].
  - intros a b Ha%Hshape Hb%Hshape. rewrite comparator_ltb by done.
    destruct (Num.ltb a b) eqn:Hab; [by apply ltb_asym|done].
Qed.

(** For a schedule in which [parseInt] finds a number in every token, the
    size sequence holds exactly the parsed numbers, no [NaN], in
    descending order. *)
Theorem getGroupSizes_descending (argument : string) :
  (forall token, token ∈ split argument -> ParseInt.parseInt token <> NaN) ->
  getGroupSizes argument ≡ₚ ParseInt.parseInt <$> split argument
  /\ (NaN ∉ getGroupSizes argument)
  /\ StronglySorted (fun a b => Num.ltb a b = false) (getGroupSizes argument).
Proof.
  intros Hnum. split; [apply getGroupSizes_Permutation|]. split.
  - rewrite getGroupSizes_Permutation.
    intros (token & Hnan & Htoken)%list_elem_of_fmap. by apply (Hnum token).
  - by apply getGroupSizes_sorted.
Qed.

(** The schedule ["3-10-7"]. *)
Lemma getGroupSizes_descending_witness :
  getGroupSizes "3-10-7" ≡ₚ ParseInt.parseInt <$> split "3-10-7"
  /\ (NaN ∉ getGroupSizes "3-10-7")
  /\ StronglySorted (fun a b => Num.ltb a b = false) (getGroupSizes "3-10-7").
Proof.
  apply (getGroupSizes_descending "3-10-7").
  intros token Htoken. vm_compute in Htoken.
  repeat (apply elem_of_cons in Htoken as [->|Htoken]; [vm_compute; discriminate|]).
  inversion Htoken.
Defined.

(** Writing natural numbers up to [2^53] in decimal and joining them with
    hyphens gives a schedule that [getGroupSizes] reads back in full: the
    size sequence is those numbers, each once, in descending order. *)
Theorem getGroupSizes_of_numbers (sizes : list N) :
  sizes <> [] ->
  (forall n, n ∈ sizes -> (n <= 2 ^ 53)%N) ->
  getGroupSizes (String.concat "-" (pretty <$> sizes))
    ≡ₚ (fun n => Num.ofZ (Z.of_N n)) <$> sizes
  /\ StronglySorted (fun a b => Num.ltb a b = false)
                    (getGroupSizes (String.concat "-" (pretty <$> sizes))).
Proof.
  intros Hne Hbound.
  assert (Hsplit : split (String.concat "-" (pretty <$> sizes)) = pretty <$> sizes).
  { apply split_concat_tokens.
    - by destruct sizes.
    - intros token (n & -> & _)%list_elem_of_fmap. apply noHyphen_pretty. }
  assert (Hparse : forall n : N,
            n ∈ sizes -> ParseInt.parseInt (pretty n) = Num.ofZ (Z.of_N n)).
  { intros n Hn. rewrite <- (append_nil_r (pretty n)).
    rewrite parseInt_decimal_followed by (by left).
    apply toDouble_exact. specialize (Hbound n Hn).
    change (2 ^ 53) with (Z.of_N (2 ^ 53)). lia. }
  split.
  - rewrite getGroupSizes_Permutation, Hsplit, <- list_fmap_compose.
    rewrite (list_fmap_ext (ParseInt.parseInt ∘ pretty)
                           (fun n => Num.ofZ (Z.of_N n)) sizes); [done|].
    intros i n Hin. apply Hparse. by eapply list_elem_of_lookup_2.
  - apply getGroupSizes_sorted. rewrite Hsplit.
    intros token (n & -> & Hn)%list_elem_of_fmap. by rewrite Hparse.
Qed.

(** The sizes thirty, twenty-five and twenty. *)
Lemma getGroupSizes_of_numbers_witness :
  getGroupSizes (String.concat "-" (pretty <$> [20; 30; 25]%N))
    ≡ₚ (fun n => Num.ofZ (Z.of_N n)) <$> [20; 30; 25]%N
  /\ StronglySorted (fun a b => Num.ltb a b = false)
                    (getGroupSizes (String.concat "-" (pretty <$> [20; 30; 25]%N))).
Proof.
  apply (getGroupSizes_of_numbers [20; 30; 25]%N); [discriminate|].
  intros n Hn.
  repeat (apply elem_of_cons in Hn as [->|Hn]; [vm_compute; discriminate|]).
  inversion Hn.
Defined.

(** ** How a trial builds its groups *)

Lemma evictLoop_sublist (users : UserDetails) (userIsMale : bool)
    (username : Username) (k1 : nat) (guRanked : Group)
    (placed : list Username) (removed : Z)
    (guRanked' : Group) (placed' : list Username) (exit : Exit) :
  evictLoop users userIsMale username k1 guRanked placed removed
  = Ok (guRanked', placed', exit) ->
  guRanked' `sublist_of` guRanked /\ placed' `sublist_of` placed.
Proof.
  revert guRanked placed removed.
  induction k1 as [|k IH]; intros guRanked placed removed Hev; simpl in Hev.
  - by inversion Hev; subst.
  - bind_inv Hev. rename a into c. bind_inv Hev. rename a into detail.
    assert (Hp : removePlaced placed c `sublist_of` placed)
      by apply sublist_filter.
    destruct (Bool.eqb (isMale detail) userIsMale); [|by apply IH in Hev].
    destruct (getMultiplier username <=? removed + getMultiplier c).
    + destruct (String.eqb username c); inversion Hev; subst;
        (split; [apply sublist_delete|done]).
    + apply IH in Hev as [Hg Hpl]. split.
      * etrans; [exact Hg|apply sublist_delete].
      * by etrans.
Qed.

Lemma ugRankLoop_steps (inp : Inputs) (username : Username)
    (ugRanked : list nat) (st st' : LoopState) :
  knownTo inp username ->
  ugRankLoop inp username ugRanked st = Ok st' ->
  rtc (groupsStep (in_antiPreferences inp) (knownTo inp))
      (ls_groups st) (ls_groups st').
Proof.
  intros Hknown. revert st.
  induction ugRanked as [|groupID rest IH]; intros st H; simpl in H.
  - inversion H; subst. reflexivity.
  - bind_inv H. rename a into group.
    destruct (ls_groups st !! groupID) as [g|] eqn:Hg; [|discriminate].
    simpl in E. inversion E; subst g; clear E.
    destruct (canTryJoiningGroup _ group username) eqn:Hcan; simpl in H;
      [|by apply IH].
    bind_inv H. rename a into guRanked. bind_inv H. rename a into user.
    bind_inv H. rename a into atMaximum. bind_inv H.
    destruct a as [[guRanked' placed'] exit].
    apply getGURanking_Permutation in E. unfold groupWithNew in E.
    assert (Hsub : guRanked' `sublist_of` guRanked).
    { destruct atMaximum; [by apply evictLoop_sublist in E2 as [? _]|].
      by inversion E2; subst. }
    assert (Hstep : groupsStep (in_antiPreferences inp) (knownTo inp)
                      (ls_groups st) (<[groupID := guRanked']> (ls_groups st))).
    { exists groupID, group, guRanked', username.
      split; [done|]. split; [done|]. split; [|done].
      split; [done|]. by exists guRanked. }
    destruct exit.
    + eapply rtc_l; [exact Hstep|]. by apply IH in H.
    + inversion H; subst; simpl. by apply rtc_once.
Qed.

Lemma iteration_steps (inp : Inputs) (i : nat) (username : Username)
    (st : LoopState) (i' : nat) (st' : LoopState) :
  knownTo inp username ->
  iteration inp i username st = Ok (i', st') ->
  rtc (groupsStep (in_antiPreferences inp) (knownTo inp))
      (ls_groups st) (ls_groups st').
Proof.
  intros Hknown H. unfold iteration in H.
  destruct (includes (placedUsers st) username).
  - inversion H; subst. reflexivity.
  - bind_inv H. destruct a as [ugRanked cursor']. bind_inv H. rename a into mid.
    apply ugRankLoop_steps in E0; [|done]. simpl in E0.
    destruct (restartCondition _ i mid); by inversion H; subst.
Qed.

Lemma forLoop_steps (inp : Inputs) (fuel i : nat) (st st' : LoopState) :
  forLoop inp fuel i st = Some (Ok st') ->
  rtc (groupsStep (in_antiPreferences inp) (knownTo inp))
      (ls_groups st) (ls_groups st').
Proof.
  revert i st. induction fuel as [|fuel IH]; intros i st H; simpl in H;
    destruct (in_userOrder inp !! i) as [username|] eqn:Hi; try discriminate;
    try (inversion H; subst; reflexivity).
  destruct (iteration inp i username st) as [[i' mid]|] eqn:Hit; [|discriminate].
  etrans; [|by eapply IH].
  eapply iteration_steps; [|exact Hit]. left. by eapply list_elem_of_lookup_2.
Qed.

Lemma allUsernamesLoop_steps (inp : Inputs) (placed rest : list Username)
    (groups groups' : list Group) :
  (forall u, u ∈ rest -> knownTo inp u) ->
  allUsernamesLoop inp placed rest groups = Ok groups' ->
  rtc (groupsStep (in_antiPreferences inp) (knownTo inp)) groups groups'.
Proof.
  revert groups. induction rest as [|username rest IH]; intros groups Hknown H;
    simpl in H.
  - inversion H; subst. reflexivity.
  - assert (Hrest : forall u, u ∈ rest -> knownTo inp u)
      by (intros u Hu; apply Hknown; by right).
    destruct (includes placed username); [by apply IH|].
    bind_inv H. rename a into sorted. bind_inv H. rename a into pushed.
    apply fallbackLoop_effect in E0 as [->|(groupID & group & Hg & Hcan & ->)];
      [by apply IH|].
    eapply rtc_l; [|by apply IH].
    exists groupID, group, (group ++ [username]), username.
    split; [apply Hknown; left|]. split; [done|]. split; [|done].
    split; [done|]. by exists (group ++ [username]).
Qed.

Lemma run_steps (inp : Inputs) (result : RunResult) :
  run inp = Some (Ok result) ->
  rtc (groupsStep (in_antiPreferences inp) (knownTo inp))
      (replicate (length (in_sizes inp)) []) (groups result).
Proof.
  intros Hrun. unfold run in Hrun.
  destruct (phaseA inp) as [[st|]|] eqn:HA; try discriminate.
  inversion Hrun as [Hres]; clear Hrun. bind_inv Hres. rename a into final.
  inversion Hres; subst; clear Hres. simpl.
  etrans; [by apply forLoop_steps in HA|].
  eapply allUsernamesLoop_steps; [|exact E]. intros u Hu. by right.
Qed.

Lemma elem_of_joins (antiPreferences : list string) (username : Username)
    (group group' : Group) (x : Username) :
  joins antiPreferences username group group' ->
  x ∈ group' -> x ∈ group \/ x = username.
Proof.
  intros (_ & ranked & Hperm & Hsub) Hx.
  apply (sublist_subseteq _ _ Hsub) in Hx. rewrite Hperm in Hx.
  apply elem_of_app in Hx as [Hx|Hx%list_elem_of_singleton]; auto.
Qed.

Lemma joins_conflictFree (antiPreferences : list string) (username : Username)
    (group group' : Group) :
  joins antiPreferences username group group' ->
  conflictFree antiPreferences group ->
  conflictFree antiPreferences group'.
Proof.
  intros Hjoin Hfree u v Hu Hv Hne.
  pose proof Hjoin as (Hcan & _). rewrite canTry_true in Hcan.
  destruct (elem_of_joins _ _ _ _ u Hjoin Hu) as [Hu'| ->],
           (elem_of_joins _ _ _ _ v Hjoin Hv) as [Hv'| ->].
  - by apply Hfree.
  - by apply Hcan.
  - by apply Hcan.
  - done.
Qed.

Lemma elem_of_concat_insert (groups : list Group) (groupID : nat)
    (group group' : Group) (x : Username) :
  groups !! groupID = Some group ->
  x ∈ concat (<[groupID := group']> groups) ->
  x ∈ group' \/ x ∈ concat groups.
Proof.
  intros Hg. destruct (concat_insert_split groups groupID group group' Hg)
    as (before & after & -> & ->).
  rewrite !elem_of_app. tauto.
Qed.

Section Steps.
Context (antiPreferences : list string) (known : Username -> Prop).

Lemma steps_length (groups groups' : list Group) :
  rtc (groupsStep antiPreferences known) groups groups' ->
  length groups' = length groups.
Proof.
  induction 1 as [|a b c (gid & g & g' & u & _ & _ & _ & ->) _ IH]; [done|].
  by rewrite IH, length_insert.
Qed.

Lemma steps_conflictFree (groups groups' : list Group) :
  rtc (groupsStep antiPreferences known) groups groups' ->
  Forall (conflictFree antiPreferences) groups ->
  Forall (conflictFree antiPreferences) groups'.
Proof.
  induction 1 as [|a b c (gid & g & g' & u & _ & Hg & Hjoin & ->) _ IH];
    intros Hall; [done|].
  apply IH. apply Forall_insert; [done|].
  eapply joins_conflictFree; [exact Hjoin|].
  rewrite Forall_forall in Hall. apply Hall. by eapply list_elem_of_lookup_2.
Qed.

Lemma steps_members (groups groups' : list Group) (x : Username) :
  rtc (groupsStep antiPreferences known) groups groups' ->
  x ∈ concat groups' -> x ∈ concat groups \/ known x.
Proof.
  induction 1 as [|a b c (gid & g & g' & u & Hu & Hg & Hjoin & ->) _ IH];
    intros Hx; [by left|].
  destruct (IH Hx) as [Hx'|Hx']; [|by right].
  apply (elem_of_concat_insert _ _ _ _ _ Hg) in Hx' as [Hx'|Hx']; [|by left].
  destruct (elem_of_joins _ _ _ _ _ Hjoin Hx') as [Hin| ->]; [|by right].
  left. apply list_elem_of_In, in_concat. exists g.
  split; apply list_elem_of_In; [by eapply list_elem_of_lookup_2|done].
Qed.

End Steps.

Lemma concat_replicate_nil (n : nat) : concat (replicate n ([] : Group)) = [].
Proof. induction n; simpl; auto. Qed.

(** Exclusions are never violated: in every result of a trial, no group
    holds two different users whose pair is listed in antiPreferences,
    whichever of the two joined first and whatever was evicted. *)
Theorem run_respects_exclusions (inp : Inputs) (result : RunResult) :
  run inp = Some (Ok result) ->
  forall group u v,
    group ∈ groups result -> u ∈ group -> v ∈ group -> u ≠ v ->
    join2 u v ∉ in_antiPreferences inp.
Proof.
  intros Hrun group u v Hgroup.
  assert (Forall (conflictFree (in_antiPreferences inp)) (groups result)) as Hfree.
  { apply (steps_conflictFree _ _ _ _ (run_steps inp result Hrun)).
    apply Forall_forall. intros g ->%elem_of_replicate_inv u' v' Hu'.
    inversion Hu'. }
  rewrite Forall_forall in Hfree. by apply Hfree.
Qed.

(** A trial returns one group per entry of the schedule, and reports the
    schedule and its length as the details of the result. *)
Theorem run_group_count (inp : Inputs) (result : RunResult) :
  run inp = Some (Ok result) ->
  length (groups result) = length (in_sizes inp)
  /\ groupAmount (details result) = length (groups result)
  /\ groupSizes (details result) = in_sizes inp.
Proof.
  intros Hrun.
  pose proof (steps_length _ _ _ _ (run_steps inp result Hrun)) as Hlen.
  rewrite length_replicate in Hlen. split; [done|].
  unfold run in Hrun. destruct (phaseA inp) as [[st|]|]; try discriminate.
  inversion Hrun as [Hres]. bind_inv Hres. inversion Hres; subst. simpl in *.
  by rewrite Hlen.
Qed.

(** A trial never invents a member: whoever sits in a group of the result
    comes from the processing order or from the keys of the user map. *)
Theorem run_members_known (inp : Inputs) (result : RunResult) (username : Username) :
  run inp = Some (Ok result) ->
  username ∈ concat (groups result) ->
  username ∈ in_userOrder inp \/ username ∈ in_allUsernames inp.
Proof.
  intros Hrun Hin.
  destruct (steps_members _ _ _ _ username (run_steps inp result Hrun) Hin)
    as [Hnil|Hknown]; [|done].
  rewrite concat_replicate_nil in Hnil. inversion Hnil.
Qed.

Lemma run_respects_exclusions_witness :
  exists result,
    run feudInputs = Some (Ok result)
    /\ ["a"; "c"] ∈ groups result
    /\ join2 "a" "c" ∉ in_antiPreferences feudInputs.
Proof.
  destruct (run feudInputs) as [[result|]|] eqn:Hrun;
    [|vm_compute in Hrun; discriminate Hrun..].
  exists result. split; [reflexivity|].
  assert (Hgroup : ["a"; "c"] ∈ groups result).
  { vm_compute in Hrun. injection Hrun as <-. simpl. apply list_elem_of_here. }
  split; [exact Hgroup|].
  apply (run_respects_exclusions feudInputs result Hrun ["a"; "c"] "a" "c" Hgroup).
  - apply list_elem_of_here.
  - apply list_elem_of_further, list_elem_of_here.
  - discriminate.
Defined.

Lemma run_group_count_witness :
  exists result,
    run feudInputs = Some (Ok result)
    /\ length (groups result) = length (in_sizes feudInputs)
    /\ groupAmount (details result) = length (groups result)
    /\ groupSizes (details result) = in_sizes feudInputs.
Proof.
  destruct (run feudInputs) as [[result|]|] eqn:Hrun;
    [|vm_compute in Hrun; discriminate Hrun..].
  exists result. split; [reflexivity|].
  exact (run_group_count feudInputs result Hrun).
Defined.

Lemma run_members_known_witness :
  exists result,
    run pairInputs = Some (Ok result)
    /\ "d" ∈ concat (groups result)
    /\ ("d" ∈ in_userOrder pairInputs \/ "d" ∈ in_allUsernames pairInputs).
Proof.
  destruct (run pairInputs) as [[result|]|] eqn:Hrun;
    [|vm_compute in Hrun; discriminate Hrun..].
  exists result. split; [reflexivity|].
  assert (Hin : "d" ∈ concat (groups result)).
  { vm_compute in Hrun. injection Hrun as <-. simpl.
    do 3 apply list_elem_of_further. apply list_elem_of_here. }
  split; [exact Hin|].
  exact (run_members_known pairInputs result "d" Hrun Hin).
Defined.

(** ** Trials without type errors *)

Lemma hasMaximum_defined (group : Group) (isMale_ : bool)
    (maxAmount maxAmountSame : number) (oneGender : bool) (users : UserDetails) :
  (forall m, m ∈ group -> is_Some (users !! m)) ->
  exists atMaximum,
    hasMaximum group isMale_ maxAmount maxAmountSame oneGender users = Ok atMaximum.
Proof.
  intros Hall. unfold hasMaximum. rewrite hasMaximumLoop_known by done.
  simpl. destruct oneGender; eauto.
Qed.

Lemma evictLoop_defined (users : UserDetails) (userIsMale : bool)
    (username : Username) (k1 : nat) (guRanked : Group)
    (placed : list Username) (removed : Z) :
  (k1 <= length guRanked)%nat ->
  (forall m, m ∈ guRanked -> is_Some (users !! m)) ->
  exists outcome,
    evictLoop users userIsMale username k1 guRanked placed removed = Ok outcome.
Proof.
  revert guRanked placed removed.
  induction k1 as [|k IH]; intros guRanked placed removed Hlen Hall; simpl.
  - eauto.
  - destruct (lookup_lt_is_Some_2 guRanked k) as [candidate Hk]; [lia|].
    rewrite Hk. simpl.
    destruct (Hall candidate) as [detail ->]; [by eapply list_elem_of_lookup_2|].
    simpl. destruct (Bool.eqb (isMale detail) userIsMale).
    + destruct (getMultiplier username <=? removed + getMultiplier candidate).
      * destruct (String.eqb username candidate); eauto.
      * apply IH.
        -- rewrite length_delete by eauto. lia.
        -- intros m Hm. apply Hall.
           eapply sublist_subseteq; [apply sublist_delete|exact Hm].
    + apply IH; [lia|done].
Qed.

Lemma getUGRanking_defined (coin : nat -> bool) (preferences : Preferences)
    (groups : list Group) (newMember : Username) (cursor : nat) :
  is_Some (preferences !! newMember) ->
  exists ugRanked cursor',
    getUGRanking coin preferences groups newMember cursor = Ok (ugRanked, cursor')
    /\ ugRanked ≡ₚ seq 0 (length groups).
Proof.
  intros [friends Hfriends]. unfold getUGRanking.
  rewrite (ugScores_known _ _ _ friends) by done. unfold mbind, result_bind.
  match goal with |- context [arraySortR ?cmp ?scores cursor] =>
    pose proof (arraySortR_Permutation cmp scores cursor) as Hperm;
    destruct (arraySortR cmp scores cursor) as [sorted cursor'] end.
  exists (ug_groupID <$> sorted), cursor'. split; [done|].
  simpl in Hperm. rewrite Hperm, fmap_imap. simpl.
  rewrite <- (list_fmap_id (seq 0 (length groups))), <- (imap_seq_0 groups id).
  reflexivity.
Qed.

Lemma insert_ordered (known : Username -> Prop) (groups : list Group)
    (groupID : nat) (group group' : Group) :
  groups !! groupID = Some group ->
  (forall m, m ∈ concat groups -> known m) ->
  (forall m, m ∈ group' -> known m) ->
  forall m, m ∈ concat (<[groupID := group']> groups) -> known m.
Proof.
  intros Hg Hall Hnew m Hm.
  apply (elem_of_concat_insert _ _ _ _ _ Hg) in Hm as [Hm|Hm]; auto.
Qed.

Section WellFormed.
Context (inp : Inputs).
Hypothesis Hpref :
  forall u, u ∈ in_userOrder inp -> is_Some (in_preferences inp !! u).
Hypothesis Husers :
  forall u, u ∈ in_userOrder inp -> is_Some (in_users inp !! u).



Lemma ugRankLoop_defined (username : Username) (ugRanked : list nat)
    (st : LoopState) :
  username ∈ in_userOrder inp ->
  Forall (fun groupID => (groupID < length (ls_groups st))%nat) ugRanked ->
  (forall m, m ∈ concat (ls_groups st) -> m ∈ in_userOrder inp) ->
  exists st',
    ugRankLoop inp username ugRanked st = Ok st'
    /\ forall m, m ∈ concat (ls_groups st') -> m ∈ in_userOrder inp.
Proof.
  intros Hu. revert st.
  induction ugRanked as [|groupID rest IH]; intros st Hids Hord; simpl.
  - eauto.
  - apply Forall_cons in Hids as [Hid Hids].
    destruct (lookup_lt_is_Some_2 _ _ Hid) as [group Hgroup].
    rewrite Hgroup. simpl.
    destruct (canTryJoiningGroup (in_antiPreferences inp) group username);
      simpl; [|by apply IH].
    assert (Hmembers : forall m, m ∈ groupWithNew group username ->
                                 m ∈ in_userOrder inp).
    { intros m [Hm| ->%list_elem_of_singleton]%elem_of_app; [|done].
      apply Hord, list_elem_of_In, in_concat. exists group.
      split; apply list_elem_of_In; [by eapply list_elem_of_lookup_2|done]. }
    destruct (getGURanking_defined (in_preferences inp) (groupWithNew group username))
      as [guRanked HguRanked]; [by intros m Hm; apply Hpref, Hmembers|].
    rewrite HguRanked. simpl.
    pose proof (getGURanking_Permutation _ _ _ HguRanked) as Hperm.
    destruct (Husers username Hu) as [user ->]. simpl.
    assert (Hranked : forall m, m ∈ guRanked -> m ∈ in_userOrder inp).
    { intros m Hm. apply Hmembers. by rewrite <- Hperm. }
    destruct (hasMaximum_defined guRanked (isMale user)
                (sizeAt (in_sizes inp) groupID)
                (Num.floorHalf (sizeAt (in_sizes inp) groupID))
                (in_oneGenderGroups inp) (in_users inp))
      as [atMaximum ->]; [by intros m Hm; apply Husers, Hranked|].
    simpl.
    assert (exists guRanked' placed' exit,
              (if atMaximum
               then evictLoop (in_users inp) (isMale user) username
                              (length guRanked) guRanked
                              (placedUsers st ++ [username]) 0
               else Ok (guRanked, placedUsers st ++ [username], BreakRank))
              = Ok (guRanked', placed', exit)
              /\ forall m, m ∈ guRanked' -> m ∈ in_userOrder inp)
      as (guRanked' & placed' & exit & -> & Hranked').
    { destruct atMaximum.
      - destruct (evictLoop_defined (in_users inp) (isMale user) username
                    (length guRanked) guRanked (placedUsers st ++ [username]) 0)
          as [[[guRanked' placed'] exit] Hevict];
          [lia|by intros m Hm; apply Husers, Hranked|].
        exists guRanked', placed', exit. split; [done|].
        apply evictLoop_sublist in Hevict as [Hsub _].
        intros m Hm. apply Hranked. by eapply sublist_subseteq.
      - eauto 6. }
    simpl.
    pose proof (insert_ordered (fun m => m ∈ in_userOrder inp) _ _ _ guRanked'
                  Hgroup Hord Hranked') as Hord'.
    destruct exit.
    + apply IH; simpl; [|done].
      by rewrite length_insert.
    + eexists. split; [reflexivity|]. done.
Qed.

Lemma iteration_defined (i : nat) (username : Username) (st : LoopState) :
  username ∈ in_userOrder inp ->
  (forall m, m ∈ concat (ls_groups st) -> m ∈ in_userOrder inp) ->
  exists i' st',
    iteration inp i username st = Ok (i', st')
    /\ forall m, m ∈ concat (ls_groups st') -> m ∈ in_userOrder inp.
Proof.
  intros Hu Hord. unfold iteration.
  destruct (includes (placedUsers st) username); [eauto|].
  destruct (getUGRanking_defined (in_coin inp) (in_preferences inp) (ls_groups st)
              username (ls_cursor st) (Hpref username Hu))
    as (ugRanked & cursor' & -> & Hperm). simpl.
  match goal with |- context [ugRankLoop inp username ugRanked ?st0] =>
    destruct (ugRankLoop_defined username ugRanked st0 Hu) as (st' & -> & Hord')
  end; simpl; [|done|].
  { apply Forall_forall. intros groupID Hid. rewrite Hperm in Hid.
    apply elem_of_seq in Hid. lia. }
  destruct (restartCondition (in_userOrder inp) i st'); eauto.
Qed.

Lemma forLoop_defined (fuel i : nat) (st : LoopState) (outcome : result LoopState) :
  (forall m, m ∈ concat (ls_groups st) -> m ∈ in_userOrder inp) ->
  forLoop inp fuel i st = Some outcome ->
  exists st',
    outcome = Ok st'
    /\ forall m, m ∈ concat (ls_groups st') -> m ∈ in_userOrder inp.
Proof.
  revert i st. induction fuel as [|fuel IH]; intros i st Hord; simpl;
    destruct (in_userOrder inp !! i) as [username|] eqn:Hi;
    try discriminate; try (intros [= <-]; eauto).
  destruct (iteration_defined i username st) as (i' & st' & -> & Hord');
    [by eapply list_elem_of_lookup_2|done|].
  by apply IH.
Qed.

End WellFormed.

Lemma sizeSortedGroups_defined (preferences : Preferences) (username : Username)
    (groups : list Group) (sizes : list number) :
  exists sorted,
    sizeSortedGroups preferences username groups sizes = Ok sorted
    /\ sorted ≡ₚ seq 0 (length groups).
Proof.
  unfold sizeSortedGroups.
  rewrite (mapResult_Ok _
             (fun groupZip : nat * Group * number =>
                ([Num.sub (Num.ofZ (getAllMultiplier groupZip.1.2)) groupZip.2;
                  Num.ofZ 0], groupZip.1.1))).
  2: { intros [[groupID group] size]. apply fallbackCriteria_second_zero. }
  unfold mbind, result_bind. eexists. split; [reflexivity|].
  unfold Lodash.sortByCriteria, zipGroups.
  rewrite arraySort_Permutation, imap_fmap, imap_imap, fmap_imap. simpl.
  rewrite <- (list_fmap_id (seq 0 (length groups))), <- (imap_seq_0 groups id).
  reflexivity.
Qed.

Lemma elem_of_concat_lookup (groups : list Group) (groupID : nat)
    (group : Group) (m : Username) :
  groups !! groupID = Some group -> m ∈ group -> m ∈ concat groups.
Proof.
  intros Hg Hm. apply list_elem_of_In, in_concat. exists group.
  split; apply list_elem_of_In; [by eapply list_elem_of_lookup_2|done].
Qed.

Lemma fallbackTry_defined (inp : Inputs) (username : Username)
    (sorted : list nat) (groups : list Group) (j : nat) :
  sorted ≡ₚ seq 0 (length groups) -> sorted ≠ [] ->
  is_Some (in_users inp !! username) ->
  (forall m, m ∈ concat groups -> is_Some (in_users inp !! m)) ->
  exists attempt, fallbackTry inp username sorted groups j = Ok attempt.
Proof.
  intros Hperm Hne [user Huser] Hall. unfold fallbackTry.
  destruct (lookup_lt_is_Some_2 sorted (j mod length sorted)%nat)
    as [groupID HgroupID].
  { apply Nat.mod_upper_bound. by destruct sorted. }
  rewrite HgroupID. simpl.
  destruct (lookup_lt_is_Some_2 groups groupID) as [group Hgroup].
  { apply list_elem_of_lookup_2 in HgroupID. rewrite Hperm in HgroupID.
    apply elem_of_seq in HgroupID. lia. }
  rewrite Hgroup. simpl.
  destruct (canTryJoiningGroup (in_antiPreferences inp) group username);
    simpl; [|eauto].
  rewrite Huser. simpl.
  destruct (hasMaximum_defined group (isMale user)
              (effectiveGroupSize (in_sizes inp) (length sorted) j)
              (effectiveGenderSize (in_sizes inp) (length sorted) j)
              (in_oneGenderGroups inp) (in_users inp)) as [atMaximum ->].
  { intros m Hm. apply Hall. by eapply elem_of_concat_lookup. }
  simpl. destruct atMaximum; eauto.
Qed.

Lemma fallbackLoop_defined (inp : Inputs) (username : Username)
    (sorted : list nat) (groups : list Group) (remaining j : nat) :
  sorted ≡ₚ seq 0 (length groups) -> sorted ≠ [] ->
  is_Some (in_users inp !! username) ->
  (forall m, m ∈ concat groups -> is_Some (in_users inp !! m)) ->
  exists groups', fallbackLoop inp username sorted groups remaining j = Ok groups'.
Proof.
  intros Hperm Hne Huser Hall. revert j.
  induction remaining as [|remaining IH]; intros j; simpl; [eauto|].
  destruct (fallbackTry_defined inp username sorted groups j)
    as [[groups'|] ->]; simpl; eauto.
Qed.

Lemma allUsernamesLoop_defined (inp : Inputs) (placed rest : list Username)
    (groups : list Group) :
  (forall u, u ∈ rest -> is_Some (in_users inp !! u)) ->
  (forall m, m ∈ concat groups -> is_Some (in_users inp !! m)) ->
  exists groups', allUsernamesLoop inp placed rest groups = Ok groups'.
Proof.
  revert groups. induction rest as [|username rest IH]; intros groups Hrest Hall;
    simpl; [eauto|].
  assert (Hrest' : forall u, u ∈ rest -> is_Some (in_users inp !! u)).
  { intros u Hu. apply Hrest. by right. }
  destruct (includes placed username); [by apply IH|].
  destruct (sizeSortedGroups_defined (in_preferences inp) username groups
              (in_sizes inp)) as (sorted & -> & Hperm). simpl.
  assert (exists groups',
            fallbackLoop inp username sorted groups (length sorted * 3) 0
            = Ok groups') as [groups' Hloop].
  { destruct (decide (sorted = [])) as [->|Hne]; [simpl; eauto|].
    apply fallbackLoop_defined; [done|done|apply Hrest; left|done]. }
  rewrite Hloop. simpl. apply IH; [done|].
  apply fallbackLoop_effect in Hloop
    as [->|(groupID & group & Hgroup & _ & ->)]; [done|].
  apply (insert_ordered (fun m => is_Some (in_users inp !! m)) _ _ _ _ Hgroup Hall).
  intros m [Hm| ->%list_elem_of_singleton]%elem_of_app.
  - apply Hall. by eapply elem_of_concat_lookup.
  - apply Hrest. left.
Qed.

Lemma run_defined (inp : Inputs) :
  (forall u, u ∈ in_userOrder inp -> is_Some (in_preferences inp !! u)) ->
  (forall u, knownTo inp u -> is_Some (in_users inp !! u)) ->
  exists result, run inp = Some (Ok result).
Proof.
  intros Hpref Husers. unfold run, phaseA.
  destruct (forLoop_enough_fuel inp (phaseAFuel inp) 0 (initialState inp))
    as (outcome & Hloop & _).
  { unfold phaseAFuel. simpl. lia. }
  rewrite Hloop.
  destruct (forLoop_defined inp Hpref (fun u Hu => Husers u (or_introl Hu))
              (phaseAFuel inp) 0%nat (initialState inp) outcome)
    as (st & -> & Hord); [|exact Hloop|].
  { simpl. rewrite concat_replicate_nil. intros m Hm. inversion Hm. }
  unfold phaseB.
  destruct (allUsernamesLoop_defined inp (placedUsers st) (in_allUsernames inp)
              (ls_groups st)) as [groups' ->]; simpl; eauto.
  - intros u Hu. apply Husers. by right.
  - intros m Hm. apply Husers. left. by apply Hord.
Qed.

(** ** Nobody is left out without a reason *)

Lemma evictLoop_keeps (users : UserDetails) (userIsMale : bool)
    (username : Username) (k1 : nat) (guRanked : Group)
    (placed : list Username) (removed : Z)
    (guRanked' : Group) (placed' : list Username) (exit : Exit) :
  evictLoop users userIsMale username k1 guRanked placed removed
  = Ok (guRanked', placed', exit) ->
  forall x, x ∈ placed' -> x ∈ placed /\ (x ∈ guRanked -> x ∈ guRanked').
Proof.
  revert guRanked placed removed.
  induction k1 as [|k IH]; intros guRanked placed removed Hevict; simpl in Hevict.
  - by inversion Hevict; subst.
  - bind_inv Hevict. rename a into candidate.
    unfold deref in E. destruct (guRanked !! k) eqn:Hk; [|discriminate].
    inversion E; subst. clear E.
    bind_inv Hevict. rename a into detail. clear E.
    assert (Hstep : forall x, x ∈ removePlaced placed candidate ->
              x ∈ placed /\ (x ∈ guRanked -> x ∈ delete k guRanked)).
    { intros x [Hx Hne]%elem_of_removePlaced. split; [done|].
      intros Hin. by eapply elem_of_delete_other. }
    destruct (Bool.eqb (isMale detail) userIsMale); [|by eapply IH].
    destruct (getMultiplier username <=? removed + getMultiplier candidate).
    + destruct (String.eqb username candidate); inversion Hevict; by subst.
    + intros x Hx. destruct (IH _ _ _ Hevict x Hx) as [Hx' Hkeep].
      destruct (Hstep x Hx') as [Hplaced Hdel]. auto.
Qed.

Lemma ugRankLoop_synced (inp : Inputs) (username : Username)
    (ugRanked : list nat) (st st' : LoopState) :
  (forall u, u ∈ placedUsers st -> u ∈ concat (ls_groups st)) ->
  ugRankLoop inp username ugRanked st = Ok st' ->
  forall u, u ∈ placedUsers st' -> u ∈ concat (ls_groups st').
Proof.
  revert st. induction ugRanked as [|groupID rest IH]; intros st Hsync Hloop;
    simpl in Hloop.
  - by inversion Hloop; subst.
  - bind_inv Hloop. rename a into group.
    unfold deref in E. destruct (ls_groups st !! groupID) eqn:Hgroup; [|discriminate].
    inversion E; subst. clear E.
    destruct (canTryJoiningGroup (in_antiPreferences inp) group username);
      simpl in Hloop; [|by eapply IH].
    bind_inv Hloop. rename a into guRanked.
    apply getGURanking_Permutation in E. rename E into Hperm.
    bind_inv Hloop. rename a into user. clear E.
    bind_inv Hloop. rename a into atMaximum. clear E.
    bind_inv Hloop. destruct a as [[guRanked' placed'] exit].
    assert (Hkeeps : forall x, x ∈ placed' ->
              x ∈ placedUsers st ++ [username]
              /\ (x ∈ guRanked -> x ∈ guRanked')).
    { destruct atMaximum.
      - by eapply evictLoop_keeps.
      - by inversion E; subst. }
    assert (Hsync' : forall u, u ∈ placed' ->
              u ∈ concat (<[groupID := guRanked']> (ls_groups st))).
    { intros u Hu. destruct (Hkeeps u Hu) as [Hplaced Hkeep].
      destruct (concat_insert_split _ groupID group guRanked' Hgroup)
        as (before & after & Hbefore & ->).
      assert (u ∈ before ++ guRanked ++ after) as Hin.
      { rewrite Hperm. unfold groupWithNew.
        apply elem_of_app in Hplaced as [Hplaced| ->%list_elem_of_singleton].
        - apply Hsync in Hplaced. rewrite Hbefore in Hplaced.
          rewrite !elem_of_app in *. tauto.
        - rewrite !elem_of_app, list_elem_of_singleton. tauto. }
      rewrite !elem_of_app in *. tauto. }
    destruct exit.
    + eapply IH; [|exact Hloop]. exact Hsync'.
    + by inversion Hloop; subst.
Qed.

Lemma iteration_synced (inp : Inputs) (i : nat) (username : Username)
    (st : LoopState) (i' : nat) (st' : LoopState) :
  (forall u, u ∈ placedUsers st -> u ∈ concat (ls_groups st)) ->
  iteration inp i username st = Ok (i', st') ->
  forall u, u ∈ placedUsers st' -> u ∈ concat (ls_groups st').
Proof.
  intros Hsync Hiter. unfold iteration in Hiter.
  destruct (includes (placedUsers st) username); [by inversion Hiter; subst|].
  bind_inv Hiter. destruct a as [ugRanked cursor']. clear E.
  bind_inv Hiter. rename a into st1.
  pose proof (fun Hs => ugRankLoop_synced _ _ _ _ _ Hs E) as Hsync1.
  specialize (Hsync1 Hsync).
  destruct (restartCondition (in_userOrder inp) i st1);
    by inversion Hiter; subst.
Qed.

Lemma forLoop_synced (inp : Inputs) (fuel i : nat) (st st' : LoopState) :
  (forall u, u ∈ placedUsers st -> u ∈ concat (ls_groups st)) ->
  forLoop inp fuel i st = Some (Ok st') ->
  forall u, u ∈ placedUsers st' -> u ∈ concat (ls_groups st').
Proof.
  revert i st. induction fuel as [|fuel IH]; intros i st Hsync; simpl;
    destruct (in_userOrder inp !! i) as [username|];
    try discriminate; try (by intros [= <-]).
  destruct (iteration inp i username st) as [[i' st1]|] eqn:Hiter; [|discriminate].
  apply IH. by eapply iteration_synced.
Qed.

Lemma canTry_subseteq (antiPreferences : list string) (group group' : Group)
    (username : Username) :
  group ⊆ group' ->
  canTryJoiningGroup antiPreferences group username = false ->
  canTryJoiningGroup antiPreferences group' username = false.
Proof.
  intros Hsub Hno.
  destruct (canTryJoiningGroup antiPreferences group' username) eqn:Hyes; [|done].
  rewrite canTry_true in Hyes.
  assert (canTryJoiningGroup antiPreferences group username = true) as Hcan.
  { apply canTry_true. intros member Hm. apply Hyes, Hsub, Hm. }
  congruence.
Qed.

Lemma canTry_false (antiPreferences : list string) (group : Group)
    (username : Username) :
  canTryJoiningGroup antiPreferences group username = false <->
  exists member, member ∈ group
                 /\ (join2 member username ∈ antiPreferences
                     \/ join2 username member ∈ antiPreferences).
Proof.
  induction group as [|m group IH]; simpl.
  - split; [discriminate|]. intros (member & Hm & _). inversion Hm.
  - destruct (includes antiPreferences (join2 m username)) eqn:H1.
    { apply includes_true in H1. split; [|done]. intros _. exists m.
      split; [left|by left]. }
    destruct (includes antiPreferences (join2 username m)) eqn:H2.
    { apply includes_true in H2. split; [|done]. intros _. exists m.
      split; [left|by right]. }
    apply includes_false in H1, H2. rewrite IH. split.
    + intros (member & Hm & Hc). exists member. split; [by right|done].
    + intros (member & [->|Hm]%elem_of_cons & Hc); [tauto|eauto].
Qed.

Lemma hasMaximum_unbounded (group : Group) (isMale_ oneGender : bool)
    (users : UserDetails) (atMaximum : bool) :
  hasMaximum group isMale_ PosInf PosInf oneGender users = Ok atMaximum ->
  atMaximum = false.
Proof.
  unfold hasMaximum. intros Hmax. bind_inv Hmax. destruct a as [same amount].
  destruct oneGender; inversion Hmax; reflexivity.
Qed.

Lemma fallbackTry_third_pass (inp : Inputs) (username : Username)
    (sorted : list nat) (groups : list Group) (j groupID : nat) (group : Group) :
  (length sorted * 2 <= j)%nat ->
  sorted !! (j mod length sorted)%nat = Some groupID ->
  groups !! groupID = Some group ->
  fallbackTry inp username sorted groups j = Ok None ->
  canTryJoiningGroup (in_antiPreferences inp) group username = false.
Proof.
  intros Hj HgroupID Hgroup. unfold fallbackTry.
  rewrite HgroupID. simpl. rewrite Hgroup. simpl.
  destruct (canTryJoiningGroup (in_antiPreferences inp) group username);
    [|done]. simpl. intros Htry.
  bind_inv Htry. rename a into user. clear E.
  bind_inv Htry. rename a into atMaximum.
  unfold effectiveGroupSize, effectiveGenderSize in E.
  replace (j <? length sorted * 2)%nat with false in E
    by (symmetry; apply Nat.ltb_ge; lia).
  replace (j <? length sorted)%nat with false in E
    by (symmetry; apply Nat.ltb_ge; lia).
  apply hasMaximum_unbounded in E as ->. discriminate.
Qed.

Lemma fallbackLoop_complete (inp : Inputs) (username : Username)
    (sorted : list nat) (groups groups' : list Group) (remaining j : nat) :
  fallbackLoop inp username sorted groups remaining j = Ok groups' ->
  (exists groupID group,
     groups !! groupID = Some group
     /\ groups' = <[groupID := group ++ [username]]> groups)
  \/ (groups' = groups
      /\ forall j', (j <= j' < j + remaining)%nat ->
                    fallbackTry inp username sorted groups j' = Ok None).
Proof.
  revert j. induction remaining as [|remaining IH]; intros j Hloop;
    simpl in Hloop.
  - right. inversion Hloop. split; [done|]. lia.
  - bind_inv Hloop. destruct a as [pushed|].
    + inversion Hloop; subst.
      apply fallbackTry_effect in E as (groupID & group & Hgroup & _ & ->).
      left. eauto.
    + destruct (IH _ Hloop) as [Hpushed|[-> Hnone]]; [by left|].
      right. split; [done|]. intros j' Hj'.
      destruct (decide (j' = j)) as [->|Hne]; [done|]. apply Hnone. lia.
Qed.

Lemma elem_of_concat_grown (groups groups' : list Group) (x : Username) :
  Forall2 (⊆) groups groups' -> x ∈ concat groups -> x ∈ concat groups'.
Proof.
  induction 1 as [|g g' groups groups' Hsub _ IH]; simpl; [done|].
  rewrite !elem_of_app. intros [Hx|Hx]; auto.
Qed.

Lemma allUsernamesLoop_complete (inp : Inputs) (placed rest : list Username)
    (groups groups' : list Group) :
  allUsernamesLoop inp placed rest groups = Ok groups' ->
  Forall2 (⊆) groups groups'
  /\ forall u, u ∈ rest ->
       u ∈ placed \/ u ∈ concat groups'
       \/ forall group, group ∈ groups' ->
            canTryJoiningGroup (in_antiPreferences inp) group u = false.
Proof.
  revert groups. induction rest as [|username rest IH]; intros groups Hloop;
    simpl in Hloop.
  - inversion Hloop; subst. split; [|intros u Hu; inversion Hu].
    apply Forall2_same_length_lookup_2; [done|].
    intros i g g' Hg Hg'. by simplify_eq.
  - destruct (includes placed username) eqn:Hplaced.
    { destruct (IH _ Hloop) as [Hgrow Hrest]. split; [done|].
      intros u [->|Hu]%elem_of_cons; [|by apply Hrest].
      left. by apply includes_true. }
    bind_inv Hloop. rename a into sorted. rename E into Hsorted.
    bind_inv Hloop. rename a into groups1. rename E into Hfallback.
    destruct (IH _ Hloop) as [Hgrow Hrest].
    destruct (sizeSortedGroups_defined (in_preferences inp) username groups
                (in_sizes inp)) as (sorted' & Hsorted' & Hperm).
    rewrite Hsorted in Hsorted'. inversion Hsorted'; subst sorted'.
    assert (Hgrow1 : Forall2 (⊆) groups groups1
              /\ (username ∈ concat groups1
                  \/ forall group, group ∈ groups ->
                       canTryJoiningGroup (in_antiPreferences inp) group username
                       = false)).
    { apply fallbackLoop_complete in Hfallback
        as [(groupID & group & Hgroup & ->)|[-> Hnone]].
      - split.
        + rewrite <- (list_insert_id groups groupID group) at 1 by done.
          apply Forall2_insert.
          * apply Forall2_same_length_lookup_2; [done|].
            intros i g g' Hg Hg'. by simplify_eq.
          * intros x Hx. apply elem_of_app. by left.
        + left.
          destruct (concat_insert_split _ groupID group (group ++ [username]) Hgroup)
            as (before & after & _ & ->).
          rewrite !elem_of_app, list_elem_of_singleton. tauto.
      - split.
        + apply Forall2_same_length_lookup_2; [done|].
          intros i g g' Hg Hg'. by simplify_eq.
        + right. intros group (groupID & Hgroup)%list_elem_of_lookup_1.
          assert (groupID ∈ sorted) as (k & Hk)%list_elem_of_lookup_1.
          { rewrite Hperm. apply elem_of_seq.
            apply lookup_lt_Some in Hgroup. lia. }
          pose proof (lookup_lt_Some _ _ _ Hk) as Hlt.
          apply (fallbackTry_third_pass inp username sorted groups
                   (length sorted * 2 + k) groupID group); [lia| |done|].
          * rewrite Nat.add_comm, Nat.mul_comm, Nat.Div0.mod_add.
            by rewrite Nat.mod_small.
          * apply Hnone. lia. }
    destruct Hgrow1 as [Hgrow1 Hplace]. split; [by etrans|].
    intros u [->|Hu]%elem_of_cons; [|by apply Hrest].
    right. destruct Hplace as [Hin|Hno].
    + left. by eapply elem_of_concat_grown.
    + right. intros group' (i & Hi)%list_elem_of_lookup_1.
      assert (Forall2 (⊆) groups groups') as Hall by by etrans.
      destruct (Forall2_lookup_r _ _ _ _ _ Hall Hi) as (group & Hgroup & Hsub).
      eapply canTry_subseteq; [exact Hsub|].
      apply Hno. by eapply list_elem_of_lookup_2.
Qed.

Lemma run_complete (inp : Inputs) (result : RunResult) (username : Username) :
  run inp = Some (Ok result) ->
  username ∈ in_allUsernames inp ->
  username ∈ concat (groups result)
  \/ forall group, group ∈ groups result ->
       canTryJoiningGroup (in_antiPreferences inp) group username = false.
Proof.
  intros Hrun Hin. unfold run in Hrun.
  destruct (phaseA inp) as [[st|]|] eqn:HphaseA; try discriminate.
  inversion Hrun as [Hres]. bind_inv Hres. rename a into groups'.
  inversion Hres; subst. simpl. clear Hres Hrun.
  unfold phaseB in E.
  destruct (allUsernamesLoop_complete _ _ _ _ _ E) as [Hgrow Hrest].
  destruct (Hrest username Hin) as [Hplaced|[Hgroups|Hno]]; auto.
  left. apply (elem_of_concat_grown _ _ _ Hgrow).
  apply (forLoop_synced inp (phaseAFuel inp) 0 (initialState inp) st);
    [|exact HphaseA|exact Hplaced].
  intros u Hu. inversion Hu.
Qed.



(** ** A missing user record *)

Lemma ugScores_ids (preferences : Preferences) (rest : list Group)
    (newMember : Username) (i : nat) (scores : list UGEntry) :
  ugScores preferences rest newMember i = Ok scores ->
  ug_groupID <$> scores = seq i (length rest).
Proof.
  revert i scores. induction rest as [|group rest IH]; intros i scores Hs;
    simpl in Hs.
  - by inversion Hs.
  - bind_inv Hs. clear E. bind_inv Hs. inversion Hs; subst. simpl.
    f_equal. by apply IH.
Qed.

Lemma getUGRanking_ids (coin : nat -> bool) (preferences : Preferences)
    (groups : list Group) (newMember : Username) (cursor : nat)
    (ugRanked : list nat) (cursor' : nat) :
  getUGRanking coin preferences groups newMember cursor = Ok (ugRanked, cursor') ->
  ugRanked ≡ₚ seq 0 (length groups).
Proof.
  unfold getUGRanking. intros Hrank. bind_inv Hrank. rename a into scores.
  apply ugScores_ids in E.
  pose proof (arraySortR_Permutation (ugCompare coin groups) scores cursor) as Hperm.
  destruct (arraySortR (ugCompare coin groups) scores cursor) as [sorted c].
  inversion Hrank; subst. simpl in Hperm. by rewrite Hperm, E.
Qed.

Lemma ugRankLoop_placed (inp : Inputs) (username : Username)
    (ugRanked : list nat) (st st' : LoopState) :
  ugRankLoop inp username ugRanked st = Ok st' ->
  forall x, x ∈ placedUsers st' -> x ∈ placedUsers st \/ x = username.
Proof.
  revert st. induction ugRanked as [|groupID rest IH]; intros st Hloop;
    simpl in Hloop.
  - inversion Hloop; subst. auto.
  - bind_inv Hloop. rename a into group. clear E.
    destruct (canTryJoiningGroup (in_antiPreferences inp) group username);
      simpl in Hloop; [|by eapply IH].
    bind_inv Hloop. clear E. bind_inv Hloop. rename a0 into user. clear E.
    bind_inv Hloop. rename a0 into atMaximum. clear E.
    bind_inv Hloop. destruct a0 as [[guRanked' placed'] exit].
    assert (Hsub : forall x, x ∈ placed' -> x ∈ placedUsers st \/ x = username).
    { intros x Hx.
      assert (x ∈ placedUsers st ++ [username]) as Hin.
      { destruct atMaximum.
        - apply evictLoop_sublist in E as [_ Hsub].
          by eapply sublist_subseteq.
        - by inversion E; subst. }
      apply elem_of_app in Hin as [Hin|Hin%list_elem_of_singleton]; auto. }
    destruct exit.
    + intros x Hx. destruct (IH _ Hloop x Hx) as [Hin| ->]; auto.
    + inversion Hloop; subst. exact Hsub.
Qed.

Lemma iteration_placed (inp : Inputs) (i : nat) (username : Username)
    (st : LoopState) (i' : nat) (st' : LoopState) :
  iteration inp i username st = Ok (i', st') ->
  forall x, x ∈ placedUsers st' -> x ∈ placedUsers st \/ x = username.
Proof.
  unfold iteration. intros Hiter.
  destruct (includes (placedUsers st) username);
    [inversion Hiter; subst; auto|].
  bind_inv Hiter. destruct a as [ugRanked cursor']. clear E.
  bind_inv Hiter. rename a into st1.
  pose proof (ugRankLoop_placed _ _ _ _ _ E) as Hsub. simpl in Hsub.
  destruct (restartCondition (in_userOrder inp) i st1);
    inversion Hiter; subst; exact Hsub.
Qed.

Section MissingRecord.
Context (inp : Inputs) (username : Username).
Hypothesis Hanti : in_antiPreferences inp = [].
Hypothesis Hnone : in_users inp !! username = None.

Lemma ugRankLoop_raises (ugRanked : list nat) (st : LoopState) :
  ugRanked ≠ [] ->
  Forall (fun groupID => (groupID < length (ls_groups st))%nat) ugRanked ->
  ugRankLoop inp username ugRanked st = TypeError.
Proof.
  destruct ugRanked as [|groupID rest]; [done|]. intros _ Hids. simpl.
  apply Forall_cons in Hids as [Hid _].
  destruct (lookup_lt_is_Some_2 _ _ Hid) as [group ->]. simpl.
  rewrite Hanti.
  replace (canTryJoiningGroup [] group username) with true.
  2: { symmetry. apply canTry_true. intros member _. split; intros Hc; inversion Hc. }
  simpl.
  destruct (getGURanking (in_preferences inp) (groupWithNew group username));
    [|reflexivity].
  simpl. by rewrite Hnone.
Qed.

Lemma iteration_raises (i : nat) (st : LoopState) :
  ls_groups st ≠ [] -> username ∉ placedUsers st ->
  iteration inp i username st = TypeError.
Proof.
  intros Hgroups Hplaced. unfold iteration.
  apply includes_false in Hplaced. rewrite Hplaced.
  destruct (getUGRanking (in_coin inp) (in_preferences inp) (ls_groups st)
              username (ls_cursor st)) as [[ugRanked cursor']|] eqn:Hrank;
    [|reflexivity].
  apply getUGRanking_ids in Hrank. simpl.
  rewrite ugRankLoop_raises; [reflexivity| |].
  - intros ->. apply Permutation_nil_l in Hrank.
    destruct (ls_groups st); [done|discriminate].
  - simpl. apply Forall_forall. intros groupID Hid. rewrite Hrank in Hid.
    apply elem_of_seq in Hid. lia.
Qed.

Lemma forLoop_raises (fuel i index : nat) (st : LoopState)
    (outcome : result LoopState) :
  in_userOrder inp !! index = Some username -> (i <= index)%nat ->
  ls_groups st ≠ [] -> username ∉ placedUsers st ->
  forLoop inp fuel i st = Some outcome ->
  outcome = TypeError.
Proof.
  intros Hindex. revert i st.
  induction fuel as [|fuel IH]; intros i st Hi Hgroups Hplaced; simpl.
  - destruct (in_userOrder inp !! i) eqn:Hlookup; [discriminate|].
    apply lookup_ge_None in Hlookup. apply lookup_lt_Some in Hindex. lia.
  - destruct (in_userOrder inp !! i) as [current|] eqn:Hlookup.
    2: { apply lookup_ge_None in Hlookup. apply lookup_lt_Some in Hindex. lia. }
    destruct (iteration inp i current st) as [[i' st']|] eqn:Hiter;
      [|by intros [= <-]].
    assert (current ≠ username) as Hne.
    { intros ->. rewrite iteration_raises in Hiter by done. discriminate. }
    apply IH.
    + destruct (iteration_next _ _ _ _ _ _ Hiter) as [[-> _]|(-> & _)]; [|lia].
      assert (i ≠ index) by (intros ->; congruence). lia.
    + pose proof (steps_length _ _ _ _
                    (iteration_steps inp i current st i' st'
                       (or_introl (list_elem_of_lookup_2 _ _ _ Hlookup)) Hiter))
        as Hlen.
      intros Hnil. rewrite Hnil in Hlen. destruct (ls_groups st); [done|discriminate].
    + intros Hin.
      destruct (iteration_placed _ _ _ _ _ _ Hiter username Hin); [done|congruence].
Qed.

End MissingRecord.


(** ** Trials that return *)



Lemma lookup_preferencesPromise (users : UserDetails) (username : Username)
    (friends : list string) :
  preferencesPromise users !! username = Some friends <->
  exists detail, users !! username = Some detail
                 /\ preferencesOf detail = Some friends.
Proof.
  unfold preferencesPromise. rewrite lookup_omap.
  destruct (users !! username) as [detail|]; simpl.
  - split; [eauto|]. by intros (? & [= <-] & ?).
  - split; [done|]. by intros (? & ? & _).
Qed.




(** ** The share of boys *)

Lemma currentMalesLoop_known (users : UserDetails) (group : Group)
    (currentMales : Z) :
  (forall m, m ∈ group -> is_Some (users !! m)) ->
  currentMalesLoop users group currentMales
  = Ok (currentMales
        + Z.of_nat (length (filter (fun m => sameGender users true m) group))).
Proof.
  revert currentMales.
  induction group as [|m group IH]; intros currentMales Hall; simpl.
  - f_equal. lia.
  - destruct (Hall m) as [detail Hdetail]; [left|]. rewrite Hdetail. simpl.
    rewrite IH by (intros; apply Hall; by right). f_equal.
    rewrite filter_cons.
    assert (Hsame : sameGender users true m = isMale detail).
    { unfold sameGender. rewrite Hdetail. by destruct (isMale detail). }
    rewrite Hsame. destruct (isMale detail); simpl; lia.
Qed.

(** [getGenderRadio] on a group of users with records: the number of boys
    over the number of members, a fraction of one for a group that has
    members and [NaN] for the empty group. *)
Theorem getGenderRadio_fraction (group : Group) (users : UserDetails) :
  (forall m, m ∈ group -> is_Some (users !! m)) ->
  exists ratio,
    getGenderRadio group users = Ok ratio
    /\ ratio = Num.divZ
                 (Z.of_nat (length (filter (fun m => sameGender users true m) group)))
                 (Z.of_nat (length group))
    /\ (group = [] -> ratio = NaN)
    /\ (group ≠ [] -> Num.inUnit ratio = true).
Proof.
  intros Hall. unfold getGenderRadio.
  rewrite currentMalesLoop_known by done. rewrite Z.add_0_l. simpl. eexists.
  split; [reflexivity|]. split; [reflexivity|]. split.
  - intros ->. reflexivity.
  - intros Hne.
    set (boys := Z.of_nat (length (filter _ group))).
    set (members := Z.of_nat (length group)).
    assert (Hboys : 0 <= boys <= members).
    { subst boys members. pose proof (length_filter (fun m => sameGender users true m) group).
      lia. }
    assert (Hmembers : 0 < members).
    { subst members. destruct group; [done|]. simpl. lia. }
    unfold Num.divZ. rewrite (proj2 (Z.eqb_neq _ 0)) by lia.
    unfold Num.inUnit, Num.gtb, Num.ofZ, Num.ltb, Num.isNaN.
    assert (Hq : (0 < inject_Z members)%Q).
    { change (inject_Z 0 < inject_Z members)%Q. rewrite <- Zlt_Qlt. lia. }
    destruct (Qlt_le_dec (inject_Z boys / inject_Z members) (inject_Z 0))
      as [Hneg|_].
    { exfalso. apply (Qlt_not_le _ _ Hneg).
      apply Qle_shift_div_l; [done|].
      rewrite <- inject_Z_mult, <- Zle_Qle. lia. }
    destruct (Qlt_le_dec (inject_Z 1) (inject_Z boys / inject_Z members))
      as [Hbig|_]; [|done].
    exfalso. apply (Qlt_not_le _ _ Hbig).
    apply Qle_shift_div_r; [done|].
    rewrite <- inject_Z_mult, <- Zle_Qle. lia.
Qed.

Lemma getGenderRadio_fraction_witness :
  exists ratio,
    getGenderRadio ["a"; "b"; "d"] formUsers = Ok ratio
    /\ ratio = Num.divZ
                 (Z.of_nat (length (filter (fun m => sameGender formUsers true m)
                                           ["a"; "b"; "d"])))
                 (Z.of_nat (length ["a"; "b"; "d"]))
    /\ (["a"; "b"; "d"] = [] -> ratio = NaN)
    /\ (["a"; "b"; "d"] ≠ [] -> Num.inUnit ratio = true).
Proof.
  apply (getGenderRadio_fraction ["a"; "b"; "d"] formUsers). known_members.
Defined.

(** ** Capacities in the ranked placement *)

Lemma filter_all (l : Group) : filter (fun _ : Username => Is_true true) l = l.
Proof.
  induction l as [|x l IH]; [done|]. rewrite filter_cons_True by done. by rewrite IH.
Qed.

Lemma weight_delete (P : Username -> bool) (l : Group) (k : nat) (c : Username) :
  l !! k = Some c ->
  getAllMultiplier (filter (fun m => P m) (delete k l))
  = getAllMultiplier (filter (fun m => P m) l)
    - (if P c then getMultiplier c else 0).
Proof.
  revert k. induction l as [|x l IH]; intros k Hk; [done|].
  destruct k as [|k]; simpl in Hk.
  - inversion Hk; subst. simpl. rewrite filter_cons.
    destruct (P c); simpl; rewrite ?getAllMultiplier_cons; lia.
  - simpl. rewrite !filter_cons.
    destruct (P x); simpl; rewrite ?getAllMultiplier_cons, (IH k Hk); lia.
Qed.

Lemma weight_sublist (P : Username -> bool) (l1 l2 : Group) :
  l1 `sublist_of` l2 ->
  getAllMultiplier (filter (fun m => P m) l1)
  <= getAllMultiplier (filter (fun m => P m) l2).
Proof.
  induction 1 as [|x l1 l2 _ IH|x l1 l2 _ IH]; [done| |];
    rewrite ?filter_cons; destruct (P x); simpl;
    rewrite ?getAllMultiplier_cons; pose proof (getMultiplier_range x); lia.
Qed.

Lemma weight_app_one (P : Username -> bool) (group : Group) (u : Username) :
  getAllMultiplier (filter (fun m => P m) (group ++ [u]))
  = getAllMultiplier (filter (fun m => P m) group)
    + (if P u then getMultiplier u else 0).
Proof.
  rewrite filter_app, getAllMultiplier_app, filter_cons, filter_nil.
  destruct (P u); simpl; rewrite ?getAllMultiplier_cons; change (getAllMultiplier []) with 0; lia.
Qed.

Lemma gtb_weight_mono (size : number) (w w' : Z) :
  w' <= w ->
  Num.gtb (Num.ofZ w) size = false -> Num.gtb (Num.ofZ w') size = false.
Proof.
  intros Hle. unfold Num.gtb, Num.ltb, Num.ofZ. destruct size as [x| | |]; try done.
  destruct (Qlt_le_dec x (inject_Z w)) as [|Hw]; [done|]. intros _.
  destruct (Qlt_le_dec x (inject_Z w')) as [Hw'|]; [|done].
  exfalso. apply (Qlt_not_le _ _ Hw'). apply (Qle_trans _ (inject_Z w)); [|exact Hw].
  rewrite <- Zle_Qle. lia.
Qed.

Lemma floorHalf_nonneg (size : number) :
  Num.ltb size (Num.ofZ 0) = false ->
  Num.ltb (Num.floorHalf size) (Num.ofZ 0) = false.
Proof.
  destruct size as [x| | |]; try done. intros Hx. unfold Num.floorHalf.
  rewrite ltb_ofZ. apply Z.ltb_ge.
  unfold Num.ltb, Num.ofZ in Hx.
  destruct (Qlt_le_dec x (inject_Z 0)) as [|Hpos]; [done|].
  change 0 with (Qfloor 0). apply Qfloor_resp_le.
  apply Qle_shift_div_l; [done|]. by rewrite Qmult_0_l.
Qed.

Lemma hasMaximumLoop_members (users : UserDetails) (isMale_ : bool)
    (group : Group) (acc outcome : Z * Z) :
  hasMaximumLoop users isMale_ group acc = Ok outcome ->
  forall m, m ∈ group -> is_Some (users !! m).
Proof.
  intros Hloop m Hm. destruct (users !! m) eqn:Hlookup; [eauto|].
  by rewrite (hasMaximumLoop_unknown users isMale_ group acc m Hm Hlookup) in Hloop.
Qed.

Lemma hasMaximum_false (group : Group) (isMale_ : bool)
    (maxAmount maxAmountSame : number) (oneGender : bool) (users : UserDetails) :
  hasMaximum group isMale_ maxAmount maxAmountSame oneGender users = Ok false ->
  Num.gtb (Num.ofZ (getAllMultiplier group)) maxAmount = false
  /\ (oneGender = false ->
      Num.gtb (Num.ofZ (getAllMultiplier
                          (filter (fun m => sameGender users isMale_ m) group)))
              maxAmountSame = false).
Proof.
  unfold hasMaximum. intros Hmax. bind_inv Hmax.
  pose proof (hasMaximumLoop_members _ _ _ _ _ E) as Hknown.
  rewrite hasMaximumLoop_known in E by done. inversion E; subst. simpl in Hmax.
  destruct oneGender.
  - inversion Hmax as [Htotal]. rewrite Htotal. split; [done|]. discriminate.
  - inversion Hmax as [Hboth]. apply orb_false_iff in Hboth as [Hsame Htotal].
    rewrite Hsame, Htotal. auto.
Qed.

Lemma evictLoop_weight (users : UserDetails) (userIsMale : bool)
    (username : Username) (P : Username -> bool) (k1 : nat) (guRanked : Group)
    (placed : list Username) (removed : Z)
    (guRanked' : Group) (placed' : list Username) (exit : Exit) :
  (forall c, sameGender users userIsMale c = true -> P c = true) ->
  sameGender users userIsMale username = true ->
  0 <= removed ->
  (exists i, (i < k1)%nat /\ guRanked !! i = Some username) ->
  evictLoop users userIsMale username k1 guRanked placed removed
  = Ok (guRanked', placed', exit) ->
  getAllMultiplier (filter (fun m => P m) guRanked') + getMultiplier username
  <= getAllMultiplier (filter (fun m => P m) guRanked) + removed.
Proof.
  intros HP Hsame. revert guRanked placed removed.
  induction k1 as [|k IH]; intros guRanked placed removed Hpos (i & Hi & Hu) Hevict;
    [lia|]. simpl in Hevict.
  bind_inv Hevict. rename a into candidate.
  unfold deref in E. destruct (guRanked !! k) eqn:Hk; [|discriminate].
  inversion E; subst. clear E.
  bind_inv Hevict. rename a into detail.
  unfold deref in E. destruct (users !! candidate) eqn:Hdetail; [|discriminate].
  inversion E; subst. clear E.
  pose proof (getMultiplier_range candidate) as Hrange.
  assert (Hgender : sameGender users userIsMale candidate
                    = Bool.eqb (isMale detail) userIsMale).
  { unfold sameGender. by rewrite Hdetail. }
  destruct (Bool.eqb (isMale detail) userIsMale) eqn:Heqb.
  - pose proof (weight_delete P guRanked k candidate Hk) as Hdel.
    rewrite (HP candidate Hgender) in Hdel.
    destruct (getMultiplier username <=? removed + getMultiplier candidate)
      eqn:Hreached.
    + apply Z.leb_le in Hreached.
      destruct (String.eqb username candidate); inversion Hevict; subst; lia.
    + apply Z.leb_gt in Hreached.
      assert (i ≠ k) as Hne.
      { intros ->. rewrite Hk in Hu. inversion Hu; subst. lia. }
      apply IH in Hevict; [lia|lia|].
      exists i. split; [lia|]. rewrite list_lookup_delete_lt by lia. done.
  - assert (i ≠ k) as Hne.
    { intros ->. rewrite Hk in Hu. inversion Hu; subst. congruence. }
    apply IH in Hevict; [done|done|]. exists i. split; [lia|done].
Qed.

Section Caps.
Context (inp : Inputs).

Lemma insert_withinCaps (groups : list Group) (groupID : nat) (group' : Group) :
  (forall gid group, groups !! gid = Some group ->
     withinCaps (in_users inp) (in_oneGenderGroups inp)
                (sizeAt (in_sizes inp) gid) group) ->
  withinCaps (in_users inp) (in_oneGenderGroups inp)
             (sizeAt (in_sizes inp) groupID) group' ->
  forall gid group, <[groupID := group']> groups !! gid = Some group ->
    withinCaps (in_users inp) (in_oneGenderGroups inp)
               (sizeAt (in_sizes inp) gid) group.
Proof.
  intros Hcaps Hnew gid group Hlookup.
  destruct (decide (gid = groupID)) as [->|Hne].
  - apply list_lookup_insert_Some in Hlookup as [(_ & <- & _)|[? _]]; done.
  - rewrite list_lookup_insert_ne in Hlookup by done. by apply Hcaps.
Qed.

Lemma ugRankLoop_withinCaps (username : Username) (ugRanked : list nat)
    (st st' : LoopState) :
  (forall gid group, ls_groups st !! gid = Some group ->
     withinCaps (in_users inp) (in_oneGenderGroups inp)
                (sizeAt (in_sizes inp) gid) group) ->
  ugRankLoop inp username ugRanked st = Ok st' ->
  forall gid group, ls_groups st' !! gid = Some group ->
    withinCaps (in_users inp) (in_oneGenderGroups inp)
               (sizeAt (in_sizes inp) gid) group.
Proof.
  revert st. induction ugRanked as [|groupID rest IH]; intros st Hcaps Hloop;
    simpl in Hloop.
  - by inversion Hloop; subst.
  - bind_inv Hloop. rename a into group.
    unfold deref in E. destruct (ls_groups st !! groupID) eqn:Hgroup; [|discriminate].
    inversion E; subst. clear E.
    destruct (canTryJoiningGroup (in_antiPreferences inp) group username);
      simpl in Hloop; [|by eapply IH].
    bind_inv Hloop. rename a into guRanked.
    apply getGURanking_Permutation in E. rename E into Hperm.
    unfold groupWithNew in Hperm.
    bind_inv Hloop. rename a into user.
    unfold deref in E. destruct (in_users inp !! username) eqn:Huser; [|discriminate].
    inversion E; subst. clear E.
    bind_inv Hloop. rename a into atMaximum. rename E into Hmax.
    bind_inv Hloop. destruct a as [[guRanked' placed'] exit]. rename E into Hevict.
    set (size := sizeAt (in_sizes inp) groupID) in *.
    destruct (Hcaps groupID group Hgroup) as [Htotal Hgender].
    assert (Hself : sameGender (in_users inp) (isMale user) username = true).
    { unfold sameGender. rewrite Huser. by destruct (isMale user). }
    assert (Hother : forall isMale_, isMale_ ≠ isMale user ->
              sameGender (in_users inp) isMale_ username = false).
    { intros isMale_ Hne. unfold sameGender. rewrite Huser.
      by destruct (isMale user), isMale_. }
    assert (Hweights : forall P : Username -> bool,
              getAllMultiplier (filter (fun m => P m) guRanked)
              = getAllMultiplier (filter (fun m => P m) group)
                + (if P username then getMultiplier username else 0)).
    { intros P. rewrite <- weight_app_one. apply getAllMultiplier_Permutation.
      by rewrite Hperm. }
    assert (Hnew : withinCaps (in_users inp) (in_oneGenderGroups inp) size guRanked').
    { destruct atMaximum.
      - assert (Hin : exists i, (i < length guRanked)%nat
                                /\ guRanked !! i = Some username).
        { assert (username ∈ guRanked) as (i & Hi)%list_elem_of_lookup_1.
          { rewrite Hperm, elem_of_app, list_elem_of_singleton. by right. }
          exists i. split; [by eapply lookup_lt_Some|done]. }
        pose proof (fun P HP => evictLoop_weight _ _ _ P _ _ _ _ _ _ _ HP Hself
                                  (Z.le_refl 0) Hin Hevict) as Hevicted.
        split.
        + specialize (Hevicted (fun _ => true) (fun _ _ => eq_refl)).
          specialize (Hweights (fun _ => true)). simpl in Hevicted, Hweights.
          rewrite !filter_all in Hevicted, Hweights.
          eapply gtb_weight_mono; [|exact Htotal]. lia.
        + intros Hmode isMale_. specialize (Hgender Hmode isMale_).
          eapply gtb_weight_mono; [|exact Hgender].
          destruct (decide (isMale_ = isMale user)) as [->|Hne].
          * specialize (Hevicted (sameGender (in_users inp) (isMale user))
                                 (fun _ H => H)).
            specialize (Hweights (sameGender (in_users inp) (isMale user))).
            rewrite Hself in Hweights. lia.
          * apply evictLoop_sublist in Hevict as [Hsub _].
            pose proof (weight_sublist (sameGender (in_users inp) isMale_)
                          _ _ Hsub) as Hle.
            specialize (Hweights (sameGender (in_users inp) isMale_)).
            rewrite (Hother isMale_ Hne) in Hweights. lia.
      - inversion Hevict; subst guRanked' placed' exit.
        apply hasMaximum_false in Hmax as [Hmaxtotal Hmaxsame].
        split; [done|]. intros Hmode isMale_.
        destruct (decide (isMale_ = isMale user)) as [->|Hne]; [by apply Hmaxsame|].
        eapply gtb_weight_mono; [|exact (Hgender Hmode isMale_)].
        specialize (Hweights (sameGender (in_users inp) isMale_)).
        rewrite (Hother isMale_ Hne) in Hweights. lia. }
    pose proof (insert_withinCaps _ groupID guRanked' Hcaps Hnew) as Hcaps'.
    destruct exit.
    + eapply IH; [|exact Hloop]. exact Hcaps'.
    + inversion Hloop; subst. exact Hcaps'.
Qed.

Lemma iteration_withinCaps (i : nat) (username : Username)
    (st : LoopState) (i' : nat) (st' : LoopState) :
  (forall gid group, ls_groups st !! gid = Some group ->
     withinCaps (in_users inp) (in_oneGenderGroups inp)
                (sizeAt (in_sizes inp) gid) group) ->
  iteration inp i username st = Ok (i', st') ->
  forall gid group, ls_groups st' !! gid = Some group ->
    withinCaps (in_users inp) (in_oneGenderGroups inp)
               (sizeAt (in_sizes inp) gid) group.
Proof.
  intros Hcaps Hiter. unfold iteration in Hiter.
  destruct (includes (placedUsers st) username); [by inversion Hiter; subst|].
  bind_inv Hiter. destruct a as [ugRanked cursor']. clear E.
  bind_inv Hiter. rename a into st1.
  pose proof (fun H => ugRankLoop_withinCaps _ _ _ _ H E) as Hcaps1.
  specialize (Hcaps1 Hcaps).
  destruct (restartCondition (in_userOrder inp) i st1);
    by inversion Hiter; subst.
Qed.

Lemma forLoop_withinCaps (fuel i : nat) (st st' : LoopState) :
  (forall gid group, ls_groups st !! gid = Some group ->
     withinCaps (in_users inp) (in_oneGenderGroups inp)
                (sizeAt (in_sizes inp) gid) group) ->
  forLoop inp fuel i st = Some (Ok st') ->
  forall gid group, ls_groups st' !! gid = Some group ->
    withinCaps (in_users inp) (in_oneGenderGroups inp)
               (sizeAt (in_sizes inp) gid) group.
Proof.
  revert i st. induction fuel as [|fuel IH]; intros i st Hcaps; simpl;
    destruct (in_userOrder inp !! i) as [username|];
    try discriminate; try (by intros [= <-]).
  destruct (iteration inp i username st) as [[i' st1]|] eqn:Hiter; [|discriminate].
  apply IH. by eapply iteration_withinCaps.
Qed.

End Caps.

(** The ranked placement never overfills a group: with sizes that are not
    negative, every group it leaves behind weighs no more than its size,
    and, unless gender is ignored, the members of either gender weigh no
    more than half the size, rounded down. *)
Theorem phaseA_within_caps (inp : Inputs) (st : LoopState) :
  (forall size, size ∈ in_sizes inp -> Num.ltb size (Num.ofZ 0) = false) ->
  phaseA inp = Some (Ok st) ->
  forall groupID group,
    ls_groups st !! groupID = Some group ->
    withinCaps (in_users inp) (in_oneGenderGroups inp)
               (sizeAt (in_sizes inp) groupID) group.
Proof.
  intros Hsizes HphaseA.
  apply (forLoop_withinCaps inp (phaseAFuel inp) 0 (initialState inp) st);
    [|exact HphaseA].
  intros gid group [-> Hgid]%lookup_replicate.
  destruct (lookup_lt_is_Some_2 _ _ Hgid) as [size Hsize].
  unfold sizeAt. rewrite Hsize. simpl.
  pose proof (Hsizes size (list_elem_of_lookup_2 _ _ _ Hsize)) as Hpos.
  split; [exact Hpos|]. intros _ isMale_. rewrite filter_nil.
  by apply floorHalf_nonneg.
Qed.

Lemma phaseA_within_caps_witness :
  exists st,
    phaseA formInputs = Some (Ok st)
    /\ forall groupID group,
         ls_groups st !! groupID = Some group ->
         withinCaps (in_users formInputs) (in_oneGenderGroups formInputs)
                    (sizeAt (in_sizes formInputs) groupID) group.
Proof.
  destruct (phaseA formInputs) as [[st|]|] eqn:HphaseA;
    [|vm_compute in HphaseA; discriminate HphaseA..].
  exists st. split; [reflexivity|].
  apply (phaseA_within_caps formInputs st); [|exact HphaseA].
  intros size Hsize. vm_compute in Hsize.
  repeat (apply elem_of_cons in Hsize as [->|Hsize]; [reflexivity|]).
  inversion Hsize.
Defined.
